(** * Combat engine of the Pokemon combat simulator (dashboard.py)

    A shallow embedding of the combat engine: the move filter, the
    type-effectiveness resolver, the damage calculator and the battle loop.

    Python values are embedded as follows.
    - [int] is [Z]; [float] is an IEEE-754 binary64 number, embedded as
      [spec_float] with the operations of [SpecFloat] at [prec = 53],
      [emax = 1024] (round to nearest, ties to even).
    - Exceptions are the [Raise] outcomes of a state-and-error monad whose
      state is the number of values already drawn from the random source;
      the source itself is the sequence [rand] of the values that
      successive calls of [random.random()] return.
    - The catalog ([fetch_move], [fetch_type]) is a function from names to
      optional records ([None] is the HTTP failure).
    - The dicts with a fixed set of keys (stat mappings, move and type
      records, rows of the log and of the HP trace) are records, so the
      [KeyError] of a missing key has no counterpart.
    - Strings are byte strings; [str.title] and [str.replace] are embedded
      for ASCII text, which is what the catalog's identifiers are. *)

From Stdlib Require Import ZArith QArith Qround Qpower List String Ascii Bool.
From Stdlib Require Import Lia Lqa.
From Stdlib Require Import SpecFloat.
Import ListNotations.
Open Scope string_scope.
Open Scope list_scope.
Open Scope Z_scope.

(** ** Python floats *)

Module PyFloat.

Definition prec : Z := 53.
Definition emax : Z := 1024.

Definition float : Type := spec_float.

Inductive exn : Type :=
| ZeroDivisionError
| TypeError
| OverflowError
| ValueError.

Inductive outcome (A : Type) : Type :=
| Ok (a : A)
| Raise (e : exn).
Arguments Ok {A} a.
Arguments Raise {A} e.

Definition fmul : float -> float -> float := SFmul prec emax.
Definition fadd : float -> float -> float := SFadd prec emax.
Definition fltb : float -> float -> bool := SFltb.
Definition fleb : float -> float -> bool := SFleb.
Definition feqb : float -> float -> bool := SFeqb.

Definition is_zero (x : float) : bool :=
  match x with S754_zero _ => true | _ => false end.

Definition is_infinity (x : float) : bool :=
  match x with S754_infinity _ => true | _ => false end.

(** [float(z)]: the nearest binary64 number; an [int] beyond the range of
    binary64 raises [OverflowError]. *)
Definition float_of_int (z : Z) : outcome float :=
  let x := binary_normalize prec emax z 0 false in
  if is_infinity x then Raise OverflowError else Ok x.

(** [x / y] on floats. *)
Definition fdiv (x y : float) : outcome float :=
  if is_zero y then Raise ZeroDivisionError else Ok (SFdiv prec emax x y).

(** [a / b] on ints: the correctly rounded quotient. *)
Definition int_truediv (a b : Z) : outcome float :=
  match b with
  | Z0 => Raise ZeroDivisionError
  | _ =>
      let q :=
        match a with
        | Z0 => S754_zero (b <? 0)
        | _ => SFdiv prec emax
                 (S754_finite (a <? 0) (Z.to_pos (Z.abs a)) 0)
                 (S754_finite (b <? 0) (Z.to_pos (Z.abs b)) 0)
        end in
      if is_infinity q then Raise OverflowError else Ok q
  end.

(** [int(x)]: truncation toward zero. *)
Definition int_of_float (x : float) : outcome Z :=
  match x with
  | S754_zero _ => Ok 0
  | S754_infinity _ => Raise OverflowError
  | S754_nan => Raise ValueError
  | S754_finite s m e =>
      let n := match e with
               | Zneg k => Z.shiftr (Zpos m) (Zpos k)
               | _ => Z.shiftl (Zpos m) e
               end in
      Ok (if s then - n else n)
  end.

(** Float literals of the source. *)
Definition f0_0 : float := S754_zero false.
Definition f1_0 : float := Eval vm_compute in binary_normalize prec emax 1 0 false.
Definition f2_0 : float := Eval vm_compute in binary_normalize prec emax 2 0 false.
Definition f4_0 : float := Eval vm_compute in binary_normalize prec emax 4 0 false.
Definition f0_5 : float := Eval vm_compute in binary_normalize prec emax 1 (-1) false.
Definition f0_25 : float := Eval vm_compute in binary_normalize prec emax 1 (-2) false.

End PyFloat.
Import PyFloat.

(** ** Exceptions and the random source *)

Class Monad (m : Type -> Type) : Type :=
  { ret : forall {A : Type}, A -> m A;
    bind : forall {A B : Type}, m A -> (A -> m B) -> m B }.

Declare Scope monad_scope.
Notation "x <- c ;; k" := (bind c (fun x => k))
  (at level 100, c at next level, right associativity) : monad_scope.
Notation "' p <- c ;; k" := (bind c (fun x => let 'p := x in k))
  (at level 100, p pattern, c at next level, right associativity) : monad_scope.
Open Scope monad_scope.

#[export] Instance outcome_monad : Monad outcome :=
  {| ret := fun A a => Ok a;
     bind := fun A B c k => match c with Ok a => k a | Raise e => Raise e end |}.

(** A computation that may call [random.random()] and may raise: it maps the
    number of values drawn so far to an outcome and the new number. *)
Definition M (A : Type) : Type := nat -> outcome (A * nat).

#[export] Instance M_monad : Monad M :=
  {| ret := fun A a n => Ok (a, n);
     bind := fun A B c k n =>
               match c n with Ok (a, n') => k a n' | Raise e => Raise e end |}.

Definition lift {A : Type} (c : outcome A) : M A :=
  fun n => match c with Ok a => Ok (a, n) | Raise e => Raise e end.

(** Float-with-int arithmetic: the int operand is converted first. *)
Definition fadd_int (x : float) (z : Z) : outcome float :=
  y <- float_of_int z ;; ret (fadd x y).
Definition fmul_int (x : float) (z : Z) : outcome float :=
  y <- float_of_int z ;; ret (fmul x y).
Definition fdiv_int (x : float) (z : Z) : outcome float :=
  y <- float_of_int z ;; fdiv x y.

(** ** Data model *)

Record Stats : Type :=
  { hp : Z; attack : Z; defense : Z;
    special_attack : Z; special_defense : Z; speed : Z }.

Record Pokemon : Type :=
  { name : string; sprite : string; types : list string;
    stats : Stats; moves : list string }.

(** A move record of the catalog; [None] is JSON [null]. *)
Record MoveData : Type :=
  { move_name : string; power : option Z; accuracy : option Z;
    move_type : string; damage_class : string }.

(** The [damage_relations] of a type record, as lists of type names. *)
Record TypeData : Type :=
  { double_damage_to : list string;
    half_damage_to : list string;
    no_damage_to : list string }.

(** A row of [battle_log]; [Defender_HP] is the key ["Defender HP"]. *)
Record TurnEvent : Type :=
  { Round : Z; Attacker : string; Move : string; Damage : Z;
    Effectiveness : float; Note : string; Defender_HP : Z }.

(** A row of [hp_history]; [sample_hp] is the key ["hp"]. *)
Record HpSample : Type :=
  { round : Z; pokemon : string; sample_hp : Z }.

(** The locals of [simulate_battle] that its loops update. *)
Record BattleState : Type :=
  { p1_hp : Z; p2_hp : Z;
    battle_log : list TurnEvent; hp_history : list HpSample }.

(** [range(a, b)]. *)
Fixpoint range_from (a : Z) (len : nat) : list Z :=
  match len with
  | O => []
  | S len' => a :: range_from (a + 1) len'
  end.
Definition range (a b : Z) : list Z := range_from a (Z.to_nat (b - a)).

Definition LEVEL : Z := 50.

(** ** Strings *)

(** [x in xs] for a list of strings. *)
Definition str_in (x : string) (xs : list string) : bool :=
  existsb (String.eqb x) xs.

Definition is_upper (c : ascii) : bool :=
  let n := nat_of_ascii c in (65 <=? n)%nat && (n <=? 90)%nat.
Definition is_lower (c : ascii) : bool :=
  let n := nat_of_ascii c in (97 <=? n)%nat && (n <=? 122)%nat.
Definition to_upper (c : ascii) : ascii :=
  if is_lower c then ascii_of_nat (nat_of_ascii c - 32) else c.
Definition to_lower (c : ascii) : ascii :=
  if is_upper c then ascii_of_nat (nat_of_ascii c + 32) else c.

(** [str.title()]: a cased character is upper-cased after an uncased one
    (or at the start) and lower-cased after a cased one. *)
Fixpoint title_from (previous_is_cased : bool) (s : string) : string :=
  match s with
  | EmptyString => EmptyString
  | String c rest =>
      String (if previous_is_cased then to_lower c else to_upper c)
             (title_from (is_upper c || is_lower c) rest)
  end.
Definition title (s : string) : string := title_from false s.

(** [s.replace("-", " ")]. *)
Fixpoint replace_dash (s : string) : string :=
  match s with
  | EmptyString => EmptyString
  | String c rest =>
      String (if Ascii.eqb c "-" then " "%char else c) (replace_dash rest)
  end.

Section Engine.

(** The catalog and the random source. *)
Variable fetch_move : string -> option MoveData.
Variable fetch_type : string -> option TypeData.
Variable rand : nat -> float.

Definition random_random : M float := fun n => Ok (rand n, S n).

(** ** Move filter *)

(** The loop of [get_damaging_moves]; [calls] records the names passed to
    [fetch_move], in order. *)
Fixpoint get_damaging_moves_loop (move_names : list string)
    (damaging : list string) (checked : Z) (calls : list string)
    : list string * Z * list string :=
  match move_names with
  | [] => (damaging, checked, calls)
  | name :: rest =>
      let move_data := fetch_move name in
      let calls := calls ++ [name] in
      let checked := checked + 1 in
      let damaging :=
        match move_data with
        | Some md =>
            match power md with
            | Some p => if p >? 0 then damaging ++ [name] else damaging
            | None => damaging
            end
        | None => damaging
        end in
      if checked >=? 50 then (damaging, checked, calls)
      else get_damaging_moves_loop rest damaging checked calls
  end.

Definition get_damaging_moves_traced (move_names : list string)
    : list string * Z * list string :=
  get_damaging_moves_loop move_names [] 0 [].

Definition get_damaging_moves (move_names : list string) : list string :=
  fst (fst (get_damaging_moves_traced move_names)).

(** ** Type effectiveness *)

Definition get_type_effectiveness (move_type : string)
    (defender_types : list string) : float :=
  match fetch_type move_type with
  | None => f1_0
  | Some dr =>
      fold_left
        (fun effectiveness d_type =>
           if str_in d_type (double_damage_to dr) then fmul effectiveness f2_0
           else if str_in d_type (half_damage_to dr) then fmul effectiveness f0_5
           else if str_in d_type (no_damage_to dr) then fmul effectiveness f0_0
           else effectiveness)
        defender_types f1_0
  end.

Definition effectiveness_label (eff : float) : string :=
  if feqb eff f0_0 then "No effect!"
  else if fleb f4_0 eff then "It's ultra effective!"
  else if fleb f2_0 eff then "It's super effective!"
  else if fleb eff f0_25 then "It's barely effective…"
  else if fltb eff f1_0 then "It's not very effective…"
  else "".

(** ** Damage calculator *)

(** Lines 171-173: the value of
    [int(((2 * LEVEL / 5 + 2) * power * (atk / dfn) / 50 + 2) * effectiveness)],
    operand by operand in Python's evaluation order. *)
Definition hit_damage (power : option Z) (atk dfn : Z) (effectiveness : float)
    : outcome Z :=
  x <- int_truediv (2 * LEVEL) 5 ;;
  x <- fadd_int x 2 ;;
  x <- match power with
       | Some p => fmul_int x p
       | None => Raise TypeError
       end ;;
  q <- int_truediv atk dfn ;;
  x <- ret (fmul x q) ;;
  x <- fdiv_int x 50 ;;
  x <- fadd_int x 2 ;;
  int_of_float (fmul x effectiveness).

Definition calculate_damage (attacker_stats defender_stats : Stats)
    (defender_types : list string) (move_data : MoveData)
    : M (Z * float * bool) :=
  let power := power move_data in
  let accuracy :=
    match accuracy move_data with
    | Some a => if a =? 0 then 100 else a
    | None => 100
    end in
  let move_type := move_type move_data in
  let damage_class := damage_class move_data in
  let '(atk, dfn) :=
    if String.eqb damage_class "physical"
    then (attack attacker_stats, defense defender_stats)
    else (special_attack attacker_stats, special_defense defender_stats) in
  let effectiveness := get_type_effectiveness move_type defender_types in
  r <- random_random ;;
  threshold <- lift (int_truediv accuracy 100) ;;
  damage <-
    (if fltb r threshold then lift (hit_damage power atk dfn effectiveness)
     else ret 0) ;;
  let missed := (damage =? 0) && negb (feqb effectiveness f0_0) in
  ret (damage, effectiveness, missed).

(** ** Battle simulator *)

(** An entry of [order]: attacker, its move, defender, defender's key. *)
Definition Slot : Type := (Pokemon * MoveData * Pokemon * string)%type.

(** Lines 223-229: the damage is applied to the side named by [def_key];
    the result is the new state and [def_hp_after]. *)
Definition apply_damage (def_key : string) (dmg : Z) (st : BattleState)
    : BattleState * Z :=
  if String.eqb def_key "p1" then
    let h := Z.max 0 (p1_hp st - dmg) in
    ({| p1_hp := h; p2_hp := p2_hp st;
        battle_log := battle_log st; hp_history := hp_history st |}, h)
  else
    let h := Z.max 0 (p2_hp st - dmg) in
    ({| p1_hp := p1_hp st; p2_hp := h;
        battle_log := battle_log st; hp_history := hp_history st |}, h).

(** Lines 231-241: [battle_log.append({...})]. *)
Definition log_append (e : TurnEvent) (st : BattleState) : BattleState :=
  {| p1_hp := p1_hp st; p2_hp := p2_hp st;
     battle_log := battle_log st ++ [e]; hp_history := hp_history st |}.

Definition turn_event (rnd : Z) (attacker : Pokemon) (atk_move : MoveData)
    (dmg : Z) (eff : float) (missed : bool) (def_hp_after : Z) : TurnEvent :=
  let eff_msg := effectiveness_label eff in
  {| Round := rnd;
     Attacker := title (name attacker);
     Move := title (replace_dash (move_name atk_move));
     Damage := dmg;
     Effectiveness := eff;
     Note := if missed then "Missed!" else eff_msg;
     Defender_HP := def_hp_after |}.

(** The inner loop, [for attacker, atk_move, defender, def_key in order],
    of round [rnd]. *)
Fixpoint turns (rnd : Z) (order : list Slot) (st : BattleState)
    : M BattleState :=
  match order with
  | [] => ret st
  | (attacker, atk_move, defender, def_key) :: rest =>
      '(dmg, eff, missed) <-
        calculate_damage (stats attacker) (stats defender) (types defender)
                         atk_move ;;
      let '(st, def_hp_after) := apply_damage def_key dmg st in
      let st :=
        log_append
          (turn_event rnd attacker atk_move dmg eff missed def_hp_after) st in
      if def_hp_after <=? 0 then ret st else turns rnd rest st
  end.

Section Battle.

Variables (p1 : Pokemon) (p1_move : MoveData)
          (p2 : Pokemon) (p2_move : MoveData).

(** Turn order of one round. *)
Definition turn_order : M (list Slot) :=
  let p1_speed := speed (stats p1) in
  let p2_speed := speed (stats p2) in
  if p1_speed >? p2_speed then
    ret [ (p1, p1_move, p2, "p2"); (p2, p2_move, p1, "p1") ]
  else if p2_speed >? p1_speed then
    ret [ (p2, p2_move, p1, "p1"); (p1, p1_move, p2, "p2") ]
  else
    r <- random_random ;;
    if fltb r f0_5 then
      ret [ (p1, p1_move, p2, "p2"); (p2, p2_move, p1, "p1") ]
    else
      ret [ (p2, p2_move, p1, "p1"); (p1, p1_move, p2, "p2") ].

(** Lines 247-249: the two [hp_history.append] of round [rnd]. *)
Definition record_round (rnd : Z) (st : BattleState) : BattleState :=
  {| p1_hp := p1_hp st; p2_hp := p2_hp st;
     battle_log := battle_log st;
     hp_history :=
       hp_history st ++
       [ {| round := rnd; pokemon := name p1; sample_hp := p1_hp st |};
         {| round := rnd; pokemon := name p2; sample_hp := p2_hp st |} ] |}.

(** The outer loop, [for rnd in range(1, 101)]. *)
Fixpoint rounds (rnds : list Z) (st : BattleState) : M BattleState :=
  match rnds with
  | [] => ret st
  | rnd :: rest =>
      order <- turn_order ;;
      st <- turns rnd order st ;;
      let st := record_round rnd st in
      if (p1_hp st <=? 0) || (p2_hp st <=? 0) then ret st
      else rounds rest st
  end.

Definition initial_state : BattleState :=
  {| p1_hp := hp (stats p1); p2_hp := hp (stats p2);
     battle_log := [];
     hp_history :=
       [ {| round := 0; pokemon := name p1; sample_hp := hp (stats p1) |};
         {| round := 0; pokemon := name p2; sample_hp := hp (stats p2) |} ]
  |}.

Definition winner_of (st : BattleState) : string :=
  if (p1_hp st <=? 0) && (p2_hp st <=? 0) then "It's a draw!"
  else if p1_hp st <=? 0 then title (name p2)
  else if p2_hp st <=? 0 then title (name p1)
  else "Draw — 100-round limit reached!".

Definition simulate_battle
    : M (list TurnEvent * list HpSample * string) :=
  st <- rounds (range 1 101) initial_state ;;
  ret (battle_log st, hp_history st, winner_of st).

End Battle.

End Engine.

(** * Vocabulary of the statements *)

(** The sign bit of [x] is clear (NaN carries no sign). *)
Definition nonneg_sign (x : float) : Prop :=
  match x with
  | S754_zero s | S754_infinity s | S754_finite s _ _ => s = false
  | S754_nan => True
  end.

(** [x] is a zero or a finite float whose exponent is at most [K] and whose
    mantissa has at most 53 bits; so $|x| < 2^{K + 53}$. *)
Definition fbound (K : Z) (x : float) : Prop :=
  match x with
  | S754_zero _ => True
  | S754_finite _ m e => e <= K /\ Z.pos (digits2_pos m) <= 53
  | _ => False
  end.

(** A value that [random.random()] can return: a float in $[0, 1)$. *)
Definition unit_interval (r : float) : Prop :=
  fleb f0_0 r = true /\ fltb r f1_0 = true.

(** The data model's stat mapping: non-negative integers. *)
Definition valid_stats (s : Stats) : Prop :=
  0 <= hp s /\ 0 <= attack s /\ 0 <= defense s /\
  0 <= special_attack s /\ 0 <= special_defense s /\ 0 <= speed s.

(** The data model's power: absent or a non-negative integer. *)
Definition valid_move (m : MoveData) : Prop :=
  forall p, power m = Some p -> 0 <= p.

Definition valid_pokemon (p : Pokemon) : Prop := valid_stats (stats p).

(** An integer that binary64 represents exactly. *)
Definition exact_int (z : Z) : Prop := 0 <= z < 2 ^ 53.

(** Stats on which no hit can raise: exactly representable, with both
    defence stats positive. *)
Definition ready_stats (s : Stats) : Prop :=
  exact_int (hp s) /\ exact_int (attack s) /\ exact_int (defense s) /\
  exact_int (special_attack s) /\ exact_int (special_defense s) /\
  exact_int (speed s) /\ 0 < defense s /\ 0 < special_defense s.

(** A damaging move: its power is present, and its accuracy is absent or a
    percentage. *)
Definition ready_move (m : MoveData) : Prop :=
  (exists p, power m = Some p /\ exact_int p) /\
  (forall a, accuracy m = Some a -> 0 <= a <= 100).

(** A combatant of the data model: ready stats and at most two types. *)
Definition ready_pokemon (p : Pokemon) : Prop :=
  ready_stats (stats p) /\ (List.length (types p) <= 2)%nat.

(** The accuracy that [calculate_damage] uses (line 154). *)
Definition accuracy_used (m : MoveData) : Z :=
  match accuracy m with
  | Some a => if a =? 0 then 100 else a
  | None => 100
  end.

(** The stat pair that [calculate_damage] selects (lines 159-164). *)
Definition attack_stat (m : MoveData) (attacker_stats : Stats) : Z :=
  if String.eqb (damage_class m) "physical" then attack attacker_stats
  else special_attack attacker_stats.
Definition defense_stat (m : MoveData) (defender_stats : Stats) : Z :=
  if String.eqb (damage_class m) "physical" then defense defender_stats
  else special_defense defender_stats.

(** [missed], as line 177 computes it from the damage. *)
Definition missed_flag (damage : Z) (effectiveness : float) : bool :=
  (damage =? 0) && negb (feqb effectiveness f0_0).

(** ** The formula in exact arithmetic *)

(** The rational number [m * 2 ^ e] of a mantissa [m] at exponent [e]. *)
Definition pos_value (m e : Z) : Q := (inject_Z m * 2 ^ e)%Q.

(** The rational number that a float denotes (a zero, an infinity and a NaN
    count as 0). *)
Definition float_value (x : float) : Q :=
  match x with
  | S754_finite s m e =>
      if s then (- pos_value (Z.pos m) e)%Q else pos_value (Z.pos m) e
  | _ => 0%Q
  end.

(** The formula as the specification writes it, in exact rational
    arithmetic: [exact_base] is the factor
    (2*level/5 + 2) * power * (atk/def) / 50 + 2, [exact_formula] its
    product with the effectiveness, and [exact_damage] the floor of that. *)
Definition exact_base (level power atk def : Z) : Q :=
  ((2 * inject_Z level / 5 + 2) * inject_Z power
   * (inject_Z atk / inject_Z def) / 50 + 2)%Q.

Definition exact_formula (level power atk def : Z) (effectiveness : Q) : Q :=
  (exact_base level power atk def * effectiveness)%Q.

Definition exact_damage (level power atk def : Z) (effectiveness : Q) : Z :=
  Qfloor (exact_formula level power atk def effectiveness).

(** [q] is an integer. *)
Definition whole (q : Q) : Prop := (inject_Z (Qfloor q) == q)%Q.

(** The factor of line 172 that [effectiveness] multiplies:
    [(2 * LEVEL / 5 + 2) * power * (atk / dfn) / 50 + 2]. *)
Definition hit_base (power : option Z) (atk dfn : Z) : outcome float :=
  x <- int_truediv (2 * LEVEL) 5 ;;
  x <- fadd_int x 2 ;;
  x <- match power with
       | Some p => fmul_int x p
       | None => Raise TypeError
       end ;;
  q <- int_truediv atk dfn ;;
  x <- fdiv_int (fmul x q) 50 ;;
  fadd_int x 2.

(** [m] with its accuracy field set to [a]. *)
Definition with_accuracy (a : option Z) (m : MoveData) : MoveData :=
  {| move_name := move_name m; power := power m; accuracy := a;
     move_type := move_type m; damage_class := damage_class m |}.

(** ** Vocabulary of the catalog properties *)

(** The test of line 99 on the record fetched for a name. *)
Definition damaging_move (fetch_move : string -> option MoveData)
    (name : string) : bool :=
  match fetch_move name with
  | Some md => match power md with Some p => p >? 0 | None => false end
  | None => false
  end.

(** The factor of one defending type: the first match among
    double-damage-to, half-damage-to and no-damage-to; [None] leaves the
    multiplier unchanged. *)
Definition type_factor (dr : TypeData) (d_type : string) : option float :=
  if str_in d_type (double_damage_to dr) then Some f2_0
  else if str_in d_type (half_damage_to dr) then Some f0_5
  else if str_in d_type (no_damage_to dr) then Some f0_0
  else None.

Definition factor_value (dr : TypeData) (d_type : string) : float :=
  match type_factor dr d_type with Some f => f | None => f1_0 end.

Definition effectiveness_values : list float :=
  [f0_0; f0_25; f0_5; f1_0; f2_0; f4_0].

(** [l1] is [l2] with some entries removed: same entries, same order. *)
Inductive subseq {A : Type} : list A -> list A -> Prop :=
| subseq_nil : subseq [] []
| subseq_skip (x : A) (l1 l2 : list A) : subseq l1 l2 -> subseq l1 (x :: l2)
| subseq_take (x : A) (l1 l2 : list A) :
    subseq l1 l2 -> subseq (x :: l1) (x :: l2).

(** The largest value that [random.random()] can return, 1 - 2^-53. *)
Definition largest_draw : float :=
  S754_finite false 9007199254740991 (-53).

(** [x] is not a zero, and when it is finite its magnitude is at least
    $2^k$: a mantissa of d bits with exponent e has d + e > k. *)
Definition at_least_pow2 (k : Z) (x : float) : Prop :=
  match x with
  | S754_zero _ => False
  | S754_finite _ m e => k < Z.pos (digits2_pos m) + e
  | _ => True
  end.

(** Bounds of the relative error of one rounding, 3 * 2^-52, and of one
    division, 2^-50. *)
Definition rnd_err : Q := 3 # 4503599627370496.
Definition div_err : Q := 1 # 1125899906842624.

(** [x] is a positive finite float of magnitude at least $2^k$ and
    exponent at most [K], whose value lies between [lo] and [hi]. *)
Definition pfloat (k K : Z) (lo hi : Q) (x : float) : Prop :=
  nonneg_sign x /\ fbound K x /\ at_least_pow2 k x /\
  (lo <= float_value x <= hi)%Q.

(** The floats 22.0 (that is, [2 * LEVEL / 5 + 2]) and 50.0. *)
Definition f22 : float := S754_finite false 6192449487634432 (-48).
Definition f50 : float := S754_finite false 7036874417766400 (-47).

(** ** Vocabulary of the battle properties *)

(** The event leaves its defender standing. *)
Definition standing (e : TurnEvent) : Prop := 0 < Defender_HP e.

(** No event follows an event whose defender is at 0 HP. *)
Definition only_last_faints (log : list TurnEvent) : Prop :=
  forall before e after,
    log = before ++ e :: after -> Defender_HP e <= 0 -> after = [].

(** The HP trace that records, from round [rnd] on, one pair of HP values
    per round: first side, then second side. *)
Fixpoint history_rows (n1 n2 : string) (rnd : Z) (rows : list (Z * Z))
    : list HpSample :=
  match rows with
  | [] => []
  | (h1, h2) :: rest =>
      {| round := rnd; pokemon := n1; sample_hp := h1 |} ::
      {| round := rnd; pokemon := n2; sample_hp := h2 |} ::
      history_rows n1 n2 (rnd + 1) rest
  end.

(** A later entry never exceeds an earlier one. *)
Definition non_increasing (l : list Z) : Prop :=
  forall i j x y,
    (i <= j)%nat -> nth_error l i = Some x -> nth_error l j = Some y -> y <= x.

(** A slot of the turn order whose stats and power obey the data model. *)
Definition valid_slot (s : Slot) : Prop :=
  let '(attacker, atk_move, defender, _) := s in
  valid_pokemon attacker /\ valid_pokemon defender /\ valid_move atk_move.

(** A slot of the turn order on which [calculate_damage] returns. *)
Definition ready_slot (s : Slot) : Prop :=
  let '(attacker, atk_move, defender, _) := s in
  ready_pokemon attacker /\ ready_pokemon defender /\ ready_move atk_move.

(** The rows are non-increasing and non-negative on both sides. *)
Definition trace_ok (rows : list (Z * Z)) : Prop :=
  non_increasing (map fst rows) /\ non_increasing (map snd rows) /\
  Forall (fun r => 0 <= fst r /\ 0 <= snd r) rows.

(** ** Vocabulary of the round structure *)

Section RoundShape.

Variable fetch_type : string -> option TypeData.
Variable rand : nat -> float.
Variables (p1 : Pokemon) (p1_move : MoveData)
          (p2 : Pokemon) (p2_move : MoveData).

(** The log row of a hit of round [rnd] by [attacker] with [mv] on
    [defender], whose HP was [hp_before] (lines 219-241): its damage and
    effectiveness are those of the call of [calculate_damage] that consumes
    the random value number [draw]. *)
Definition logged_hit (rnd : Z) (attacker : Pokemon) (mv : MoveData)
    (defender : Pokemon) (hp_before : Z) (draw : nat) (e : TurnEvent)
    : Prop :=
  Round e = rnd /\
  Attacker e = title (name attacker) /\
  Move e = title (replace_dash (move_name mv)) /\
  Effectiveness e =
    get_type_effectiveness fetch_type (move_type mv) (types defender) /\
  Note e = (if missed_flag (Damage e) (Effectiveness e) then "Missed!"
            else effectiveness_label (Effectiveness e)) /\
  Defender_HP e = Z.max 0 (hp_before - Damage e) /\
  (feqb (Effectiveness e) f0_0 = true -> Damage e = 0) /\
  (valid_pokemon attacker -> valid_pokemon defender -> valid_move mv ->
   0 <= Damage e) /\
  (exists missed,
      calculate_damage fetch_type rand (stats attacker) (stats defender)
                       (types defender) mv draw
      = Ok (Damage e, Effectiveness e, missed, S draw)).

(** The events [evs] of a round in which [a] attacks first, its hit
    consuming the random value number [draw]: [a] hits [b]; if [b] still
    stands, [b] hits [a]. [ha], [hb] are the HP values before the round and
    [ha'], [hb'] after it. *)
Definition exchange (rnd : Z) (a : Pokemon) (a_move : MoveData) (ha : Z)
    (b : Pokemon) (b_move : MoveData) (hb : Z) (draw : nat)
    (evs : list TurnEvent) (ha' hb' : Z) : Prop :=
  (exists e,
      evs = [e] /\ logged_hit rnd a a_move b hb draw e /\
      Defender_HP e <= 0 /\ ha' = ha /\ hb' = Defender_HP e)
  \/ (exists e1 e2,
         evs = [e1; e2] /\ logged_hit rnd a a_move b hb draw e1 /\
         0 < Defender_HP e1 /\ logged_hit rnd b b_move a ha (S draw) e2 /\
         hb' = Defender_HP e1 /\ ha' = Defender_HP e2).

(** The number of random values that the turn order of one round draws. *)
Definition order_draws : nat :=
  if speed (stats p1) =? speed (stats p2) then 1%nat else 0%nat.

(** One round of the battle, starting at the random value number [draw]:
    the side that is not slower attacks first; with equal speeds the first
    side attacks first exactly when the value drawn is below 0.5. *)
Definition round_ok (rnd : Z) (h : Z * Z) (draw : nat)
    (evs : list TurnEvent) (h' : Z * Z) : Prop :=
  (speed (stats p2) <= speed (stats p1) /\
   (speed (stats p1) = speed (stats p2) -> fltb (rand draw) f0_5 = true) /\
   exchange rnd p1 p1_move (fst h) p2 p2_move (snd h) (draw + order_draws)%nat
            evs (fst h') (snd h'))
  \/ (speed (stats p1) <= speed (stats p2) /\
      (speed (stats p1) = speed (stats p2) ->
       fltb (rand draw) f0_5 = false) /\
      exchange rnd p2 p2_move (snd h) p1 p1_move (fst h)
               (draw + order_draws)%nat evs (snd h') (fst h')).

(** Consecutive rounds from round [rnd] and random value number [draw] on,
    each given by its events and the pair of HP values it ends with; a
    round is followed by another one only when both sides stand at its
    end. *)
Fixpoint rounds_ok (rnd : Z) (h : Z * Z) (draw : nat)
    (rs : list (list TurnEvent * (Z * Z))) : Prop :=
  match rs with
  | [] => True
  | (evs, h') :: rest =>
      round_ok rnd h draw evs h' /\
      (rest <> [] -> 0 < fst h' /\ 0 < snd h') /\
      rounds_ok (rnd + 1) h' (draw + order_draws + List.length evs)%nat rest
  end.

(** [mv] always lands (accuracy 100, absent or 0) and is at least half
    effective against [defender], on valid stats and power. *)
Definition sure_hit (attacker : Pokemon) (mv : MoveData) (defender : Pokemon)
    : Prop :=
  valid_pokemon attacker /\ valid_pokemon defender /\ valid_move mv /\
  accuracy_used mv = 100 /\
  In (get_type_effectiveness fetch_type (move_type mv) (types defender))
     [f0_5; f1_0; f2_0; f4_0].

(** The event was logged for a hit of [attacker] with [mv]. *)
Definition hit_by (attacker : Pokemon) (mv : MoveData) (e : TurnEvent)
    : Prop :=
  Attacker e = title (name attacker) /\
  Move e = title (replace_dash (move_name mv)).

End RoundShape.

(** ** Catalog excerpts used in the examples *)

(** Two type records. [normal]: nothing is weak to it, [rock] and [steel]
    resist it, [ghost] is immune. [bug]: three types are weak to it, seven
    resist it. *)
Definition sample_types (t : string) : option TypeData :=
  if String.eqb t "normal" then
    Some {| double_damage_to := [];
            half_damage_to := ["rock"; "steel"];
            no_damage_to := ["ghost"] |}
  else if String.eqb t "bug" then
    Some {| double_damage_to := ["grass"; "psychic"; "dark"];
            half_damage_to := ["fire"; "fighting"; "poison"; "flying";
                               "ghost"; "steel"; "fairy"];
            no_damage_to := [] |}
  else None.

Definition pound : MoveData :=
  {| move_name := "pound"; power := Some 40; accuracy := Some 100;
     move_type := "normal"; damage_class := "physical" |}.

Definition bug_bite : MoveData :=
  {| move_name := "bug-bite"; power := Some 60; accuracy := Some 100;
     move_type := "bug"; damage_class := "physical" |}.

Definition caterpie : Pokemon :=
  {| name := "caterpie"; sprite := ""; types := ["bug"];
     stats := {| hp := 45; attack := 30; defense := 35; special_attack := 20;
                 special_defense := 20; speed := 45 |};
     moves := ["bug-bite"] |}.

Definition ekans : Pokemon :=
  {| name := "ekans"; sprite := ""; types := ["poison"];
     stats := {| hp := 35; attack := 60; defense := 44; special_attack := 40;
                 special_defense := 54; speed := 55 |};
     moves := ["pound"] |}.

Definition chansey : Pokemon :=
  {| name := "chansey"; sprite := ""; types := ["normal"];
     stats := {| hp := 250; attack := 5; defense := 5; special_attack := 35;
                 special_defense := 105; speed := 50 |};
     moves := ["pound"] |}.

Definition aggron : Pokemon :=
  {| name := "aggron"; sprite := ""; types := ["steel"; "rock"];
     stats := {| hp := 70; attack := 110; defense := 180;
                 special_attack := 60; special_defense := 60; speed := 50 |};
     moves := ["pound"] |}.

(** The stats of the documented scenario: attack 100 against defense 50. *)
Definition scenario_stats (atk dfn : Z) : Stats :=
  {| hp := 100; attack := atk; defense := dfn; special_attack := 60;
     special_defense := 60; speed := 60 |}.

(** A random source that returns the same value at every call. *)
Definition constant_source (r : float) : nat -> float := fun _ => r.

(** A catalog of three moves. *)
Definition sample_moves (m : string) : option MoveData :=
  if String.eqb m "pound" then Some pound
  else if String.eqb m "growl" then
    Some {| move_name := "growl"; power := None; accuracy := Some 100;
            move_type := "normal"; damage_class := "status" |}
  else if String.eqb m "tackle" then
    Some {| move_name := "tackle"; power := Some 40; accuracy := Some 100;
            move_type := "normal"; damage_class := "physical" |}
  else None.

(** Two combatants with the stats of the documented scenario. *)
Definition sparring (n : string) (h : Z) : Pokemon :=
  {| name := n; sprite := ""; types := ["water"];
     stats := {| hp := h; attack := 100; defense := 50; special_attack := 60;
                 special_defense := 60; speed := 60 |};
     moves := ["pound"] |}.

(** The battle of two such combatants starting at 100 HP, and its result. *)
Definition sparring_match : M (list TurnEvent * list HpSample * string) :=
  simulate_battle sample_types (constant_source f0_5)
    (sparring "alpha" 100) pound (sparring "beta" 100) pound.

(** A move that the draw 0.5 never lets land, and the battle in which both
    sides use it. *)
Definition wild_swing : MoveData :=
  {| move_name := "wild-swing"; power := Some 40; accuracy := Some 40;
     move_type := "normal"; damage_class := "physical" |}.

Definition stalemate : M (list TurnEvent * list HpSample * string) :=
  simulate_battle sample_types (constant_source f0_5)
    (sparring "alpha" 100) wild_swing (sparring "beta" 100) wild_swing.

(** Two combatants that enter the battle with no HP left. *)
Definition spent_match : M (list TurnEvent * list HpSample * string) :=
  simulate_battle sample_types (constant_source f0_5)
    (sparring "alpha" 0) pound (sparring "beta" 0) pound.

Definition sparring_result
    : list TurnEvent * list HpSample * string * nat :=
  Eval vm_compute in
    match sparring_match 0%nat with
    | Ok r => r
    | Raise _ => ([], [], "", 0%nat)
    end.

(** A ghost-type combatant, immune to [pound], and its battle against a
    water-type one. *)
Definition phantom (n : string) (h : Z) : Pokemon :=
  {| name := n; sprite := ""; types := ["ghost"];
     stats := {| hp := h; attack := 100; defense := 50; special_attack := 60;
                 special_defense := 60; speed := 60 |};
     moves := ["pound"] |}.

Definition haunted_match : M (list TurnEvent * list HpSample * string) :=
  simulate_battle sample_types (constant_source f0_5)
    (sparring "alpha" 100) pound (phantom "gamma" 100) pound.

Definition haunted_result
    : list TurnEvent * list HpSample * string * nat :=
  Eval vm_compute in
    match haunted_match 0%nat with
    | Ok r => r
    | Raise _ => ([], [], "", 0%nat)
    end.

(** Caterpie against the faster Ekans. *)
Definition bug_duel : M (list TurnEvent * list HpSample * string) :=
  simulate_battle sample_types (constant_source f0_5)
    caterpie bug_bite ekans pound.

Definition bug_duel_result
    : list TurnEvent * list HpSample * string * nat :=
  Eval vm_compute in
    match bug_duel 0%nat with
    | Ok r => r
    | Raise _ => ([], [], "", 0%nat)
    end.

(** * Properties *)

(** Closes [valid_stats], [valid_pokemon] and [valid_move] goals on records
    given in full. *)
Ltac valid_record :=
  first [ progress (unfold valid_pokemon, valid_stats); simpl;
          repeat split; lia
        | let p := fresh "p" in
          let H := fresh "H" in
          unfold valid_move; intros p H; simpl in H; injection H as <-; lia ].

(** Closes [ready_stats] and [ready_move] goals on records given in full. *)
Ltac ready_record :=
  first [ progress (unfold ready_pokemon, ready_stats, exact_int); simpl;
          repeat split; lia
        | split;
          [ eexists; split; [reflexivity | unfold exact_int; lia]
          | let a := fresh "a" in
            let H := fresh "H" in
            intros a H; simpl in H;
            first [discriminate H | injection H as <-; lia] ] ].

Ltac monad_simpl :=
  cbn [bind ret M_monad outcome_monad lift random_random].

(** Splits a hypothesis [(x <- c ;; k x) = Ok r] on the outcome of [c]. *)
Ltac bind_ok H x E :=
  match type of H with
  | match ?c with Ok _ => _ | Raise _ => _ end = Ok _ =>
      destruct c as [x|] eqn:E; [|discriminate H]
  end.

(** Products of non-negative rationals. *)
Ltac qnonneg :=
  repeat match goal with
         | |- (0 <= _ * _)%Q => apply Qmult_le_0_compat
         end;
  first [assumption | lra].

(** An inequality between closed rationals. *)
Ltac closed_Qle := apply Qle_bool_imp_le; vm_compute; reflexivity.

(** ** Signs of float results *)

Lemma binary_round_aux_nonneg (mx ex : Z) (lx : location) :
  nonneg_sign (binary_round_aux prec emax false mx ex lx).
Proof.
  unfold binary_round_aux.
  destruct (shr_fexp prec emax mx ex lx) as [mrs' e'].
  destruct (shr_fexp prec emax _ e' loc_Exact) as [mrs'' e''].
  destruct (shr_m mrs''); simpl; trivial.
  destruct (_ <=? _); reflexivity.
Qed.

Lemma binary_round_nonneg (m : positive) (e : Z) :
  nonneg_sign (binary_round prec emax false m e).
Proof.
  unfold binary_round.
  destruct (shl_align m e _) as [mz ez]. apply binary_round_aux_nonneg.
Qed.

Lemma binary_normalize_nonneg (z e : Z) :
  0 <= z -> nonneg_sign (binary_normalize prec emax z e false).
Proof.
  intros Hz. destruct z as [|m|m]; [reflexivity| |lia].
  apply binary_round_nonneg.
Qed.

Lemma fmul_nonneg (x y : float) :
  nonneg_sign x -> nonneg_sign y -> nonneg_sign (fmul x y).
Proof.
  destruct x as [sx|sx| |sx mx ex], y as [sy|sy| |sy my ey]; simpl;
    intros Hx Hy; subst; simpl; trivial.
  apply binary_round_aux_nonneg.
Qed.

Lemma fadd_nonneg (x y : float) :
  nonneg_sign x -> nonneg_sign y -> nonneg_sign (fadd x y).
Proof.
  destruct x as [sx|sx| |sx mx ex], y as [sy|sy| |sy my ey]; simpl;
    intros Hx Hy; subst; simpl; trivial.
  apply binary_round_nonneg.
Qed.

Lemma SFdiv_nonneg (x y : float) :
  nonneg_sign x -> nonneg_sign y -> nonneg_sign (SFdiv prec emax x y).
Proof.
  destruct x as [sx|sx| |sx mx ex], y as [sy|sy| |sy my ey]; simpl;
    intros Hx Hy; subst; simpl; trivial.
  destruct (SFdiv_core_binary prec emax (Z.pos mx) ex (Z.pos my) ey)
    as [[mz ez] lz].
  apply binary_round_aux_nonneg.
Qed.

Lemma float_of_int_nonneg (z : Z) (x : float) :
  0 <= z -> float_of_int z = Ok x -> nonneg_sign x.
Proof.
  unfold float_of_int. intros Hz H.
  destruct (is_infinity _); [discriminate|].
  injection H as <-. now apply binary_normalize_nonneg.
Qed.

Lemma fdiv_nonneg (x y q : float) :
  nonneg_sign x -> nonneg_sign y -> fdiv x y = Ok q -> nonneg_sign q.
Proof.
  unfold fdiv. intros Hx Hy H. destruct (is_zero y); [discriminate|].
  injection H as <-. now apply SFdiv_nonneg.
Qed.

Lemma int_truediv_nonneg (a b : Z) (q : float) :
  0 <= a -> 0 <= b -> int_truediv a b = Ok q -> nonneg_sign q.
Proof.
  unfold int_truediv. intros Ha Hb H.
  destruct b as [|b|b]; [discriminate| |lia].
  destruct a as [|a|a]; [| |lia].
  - simpl in H. injection H as <-. reflexivity.
  - destruct (is_infinity _); [discriminate|]. injection H as <-.
    exact (SFdiv_nonneg (S754_finite false a 0) (S754_finite false b 0)
             eq_refl eq_refl).
Qed.

Lemma int_of_float_nonneg (x : float) (n : Z) :
  nonneg_sign x -> int_of_float x = Ok n -> 0 <= n.
Proof.
  destruct x as [s|s| |s m e]; simpl; intros Hx H; try discriminate.
  - injection H as <-. lia.
  - subst s. injection H as <-.
    destruct e as [|k|k].
    + rewrite Z.shiftl_0_r. lia.
    + apply Z.shiftl_nonneg. lia.
    + apply Z.shiftr_nonneg. lia.
Qed.

(** Multiplying by a zero gives a zero, unless the other factor is an
    infinity or a NaN. *)
Lemma int_of_fmul_zero (x y : float) (n : Z) :
  is_zero y = true -> int_of_float (fmul x y) = Ok n -> n = 0.
Proof.
  destruct y as [sy| | |]; try discriminate. intros _.
  destruct x as [sx|sx| |sx mx ex]; simpl; intros H; try discriminate;
    now injection H.
Qed.

(** ** Magnitudes of float results *)

Lemma digits2_pos_bounds (m : positive) :
  2 ^ (Z.pos (digits2_pos m) - 1) <= Z.pos m < 2 ^ Z.pos (digits2_pos m).
Proof.
  induction m as [m IH|m IH|]; cbn [digits2_pos].
  - rewrite Pos2Z.inj_succ.
    replace (Z.succ (Z.pos (digits2_pos m)) - 1) with (Z.pos (digits2_pos m) - 1 + 1) by lia.
    rewrite Z.pow_succ_r by lia. rewrite Z.pow_add_r by lia. lia.
  - rewrite Pos2Z.inj_succ.
    replace (Z.succ (Z.pos (digits2_pos m)) - 1) with (Z.pos (digits2_pos m) - 1 + 1) by lia.
    rewrite Z.pow_succ_r by lia. rewrite Z.pow_add_r by lia. lia.
  - simpl. lia.
Qed.

Lemma Zdigits2_nonneg (z : Z) : 0 <= Zdigits2 z.
Proof. destruct z; simpl; lia. Qed.

Lemma Zdigits2_upper (z : Z) : 0 <= z -> z < 2 ^ Zdigits2 z.
Proof.
  destruct z as [|m|m]; simpl; try lia. intros _. apply digits2_pos_bounds.
Qed.

Lemma Zdigits2_le (z k : Z) : 0 <= k -> 0 <= z < 2 ^ k -> Zdigits2 z <= k.
Proof.
  intros Hk [Hz Hlt]. destruct z as [|m|m]; simpl; try lia.
  destruct (digits2_pos_bounds m) as [Hlo _].
  destruct (Z.le_gt_cases (Z.pos (digits2_pos m)) k) as [H|H]; trivial.
  exfalso. assert (2 ^ k <= 2 ^ (Z.pos (digits2_pos m) - 1))
    by (apply Z.pow_le_mono_r; lia). lia.
Qed.

Lemma shr_1_m (mrs : shr_record) :
  0 <= shr_m mrs -> shr_m (shr_1 mrs) = shr_m mrs / 2.
Proof.
  destruct mrs as [m r s]. cbn [shr_m shr_1]. intros Hm.
  destruct m as [|[p|p|]|p]; cbn [shr_m]; try lia.
  - reflexivity.
  - rewrite Pos2Z.inj_xI. apply Z.div_unique with 1; lia.
  - rewrite Pos2Z.inj_xO. apply Z.div_unique with 0; lia.
  - reflexivity.
Qed.

Lemma pow2_xO (p : positive) : 2 ^ Z.pos p~0 = 2 ^ Z.pos p * 2 ^ Z.pos p.
Proof. rewrite Pos2Z.inj_xO, <- Z.pow_add_r by lia. f_equal. lia. Qed.

Lemma pow2_xI (p : positive) : 2 ^ Z.pos p~1 = 2 * (2 ^ Z.pos p * 2 ^ Z.pos p).
Proof.
  rewrite Pos2Z.inj_xI, <- Z.pow_add_r, <- Z.pow_succ_r by lia. f_equal. lia.
Qed.

Lemma iter_shr_1_m (p : positive) :
  forall mrs,
    0 <= shr_m mrs ->
    shr_m (iter_pos shr_1 p mrs) = shr_m mrs / 2 ^ Z.pos p.
Proof.
  assert (H1 : forall mrs, 0 <= shr_m mrs -> 0 <= shr_m (shr_1 mrs)).
  { intros mrs H. rewrite shr_1_m by exact H. apply Z.div_pos; lia. }
  induction p as [p IH|p IH|]; intros mrs Hm; cbn [iter_pos].
  - assert (H2 := H1 mrs Hm).
    assert (H3 : 0 <= shr_m (iter_pos shr_1 p (shr_1 mrs))).
    { rewrite IH by exact H2. apply Z.div_pos; lia. }
    rewrite IH by exact H3. rewrite IH by exact H2. rewrite shr_1_m by exact Hm.
    rewrite !Z.div_div by lia. now rewrite pow2_xI, Z.mul_assoc.
  - assert (H3 : 0 <= shr_m (iter_pos shr_1 p mrs)).
    { rewrite IH by exact Hm. apply Z.div_pos; lia. }
    rewrite IH by exact H3. rewrite IH by exact Hm.
    rewrite !Z.div_div by lia. now rewrite pow2_xO.
  - rewrite shr_1_m by exact Hm. reflexivity.
Qed.

Lemma shr_m_of_loc (m : Z) (l : location) : shr_m (shr_record_of_loc m l) = m.
Proof. destruct l as [|[]]; reflexivity. Qed.

Lemma fexp_eq (e : Z) : fexp prec emax e = Z.max (e - 53) (-1074).
Proof. reflexivity. Qed.

(** The shift by [fexp] leaves a mantissa below 2^53 and raises the exponent
    to [fexp]. *)
Lemma shr_fexp_spec (m e : Z) (l : location) (mrs' : shr_record) (e' : Z) :
  0 <= m ->
  shr_fexp prec emax m e l = (mrs', e') ->
  0 <= shr_m mrs' /\ shr_m mrs' < 2 ^ 53 /\
  e' = Z.max e (fexp prec emax (Zdigits2 m + e)).
Proof.
  intros Hm. unfold shr_fexp, shr. rewrite fexp_eq.
  assert (Hd := Zdigits2_nonneg m). assert (Hu := Zdigits2_upper m Hm).
  set (d := Zdigits2 m) in *.
  destruct (Z.max (d + e - 53) (-1074) - e) as [|n|n] eqn:En;
    intros H; injection H as <- <-; rewrite ?shr_m_of_loc.
  - split; [exact Hm|]. split; [|lia].
    eapply Z.lt_le_trans; [exact Hu|]. apply Z.pow_le_mono_r; lia.
  - rewrite iter_shr_1_m by (now rewrite shr_m_of_loc).
    rewrite shr_m_of_loc. split; [apply Z.div_pos; lia|]. split; [|lia].
    apply Z.div_lt_upper_bound; [lia|].
    rewrite <- Z.pow_add_r by lia.
    eapply Z.lt_le_trans; [exact Hu|]. apply Z.pow_le_mono_r; lia.
  - split; [exact Hm|]. split; [|lia].
    eapply Z.lt_le_trans; [exact Hu|]. apply Z.pow_le_mono_r; lia.
Qed.

Lemma round_nearest_even_bounds (m : Z) (l : location) :
  m <= round_nearest_even m l <= m + 1.
Proof.
  unfold round_nearest_even. destruct l as [|[]]; try lia.
  destruct (Z.even m); lia.
Qed.

Lemma binary_round_aux_finite (s : bool) (mx ex : Z) (lx : location) (E : Z) :
  0 <= mx -> ex <= E -> Zdigits2 mx + ex <= E + 53 ->
  -1074 <= E -> E + 1 <= 971 ->
  fbound (E + 1) (binary_round_aux prec emax s mx ex lx).
Proof.
  intros Hm He Hd Hlo Hhi. unfold binary_round_aux.
  destruct (shr_fexp prec emax mx ex lx) as [mrs' e'] eqn:E1.
  apply shr_fexp_spec in E1; [|exact Hm]. destruct E1 as (H0 & H53 & He').
  rewrite fexp_eq in He'.
  set (m1 := round_nearest_even (shr_m mrs') (loc_of_shr_record mrs')).
  assert (Hm1 := round_nearest_even_bounds (shr_m mrs') (loc_of_shr_record mrs')).
  fold m1 in Hm1.
  destruct (shr_fexp prec emax m1 e' loc_Exact) as [mrs'' e''] eqn:E2.
  apply shr_fexp_spec in E2; [|lia]. destruct E2 as (H0' & H53' & He'').
  rewrite fexp_eq in He''.
  assert (Hd1 : Zdigits2 m1 <= 54).
  { apply Zdigits2_le; [lia|]. split; [lia|].
    change (2 ^ 54) with (2 * 2 ^ 53). lia. }
  destruct (shr_m mrs'') as [|m|m] eqn:Em; cbn [fbound]; trivial; [|lia].
  replace (e'' <=? emax - prec) with true
    by (symmetry; apply Z.leb_le; unfold emax, prec; lia).
  cbn [fbound]. split; [lia|].
  change (Z.pos (digits2_pos m)) with (Zdigits2 (Z.pos m)).
  apply Zdigits2_le; lia.
Qed.

Lemma iter_xO_value (m d : positive) :
  Z.pos (Pos.iter xO m d) = Z.pos m * 2 ^ Z.pos d.
Proof.
  induction d as [|d IH] using Pos.peano_ind.
  - simpl. lia.
  - rewrite Pos.iter_succ, Pos2Z.inj_xO, IH, Pos2Z.inj_succ, Z.pow_succ_r by lia.
    ring.
Qed.

Lemma digits_pos_le (m : positive) (k : Z) :
  Z.pos m < 2 ^ k -> 0 <= k -> Z.pos (digits2_pos m) <= k.
Proof.
  intros H Hk. change (Zdigits2 (Z.pos m) <= k). apply Zdigits2_le; lia.
Qed.

Lemma shl_align_spec (m : positive) (e e' : Z) (m' : positive) (e'' : Z) :
  shl_align m e e' = (m', e'') ->
  e'' <= e /\
  Z.pos (digits2_pos m') + e'' <= Z.pos (digits2_pos m) + e.
Proof.
  unfold shl_align. destruct (e' - e) as [|d|d] eqn:Ed;
    intros H; injection H as <- <-; try lia.
  split; [lia|].
  assert (Hb := digits2_pos_bounds m).
  assert (Z.pos (digits2_pos (Pos.iter xO m d)) <= Z.pos (digits2_pos m) + Z.pos d);
    [|lia].
  apply digits_pos_le; [|lia].
  rewrite iter_xO_value, Z.pow_add_r by lia.
  apply Z.mul_lt_mono_pos_r; [lia|]. apply Hb.
Qed.

Lemma binary_round_finite (s : bool) (m : positive) (e E : Z) :
  e <= E -> Z.pos (digits2_pos m) + e <= E + 53 ->
  -1074 <= E -> E + 1 <= 971 ->
  fbound (E + 1) (binary_round prec emax s m e).
Proof.
  intros He Hd Hlo Hhi. unfold binary_round.
  destruct (shl_align m e _) as [mz ez] eqn:Es.
  apply shl_align_spec in Es. destruct Es as [Hez Hdz].
  apply binary_round_aux_finite; cbn [Zdigits2]; lia.
Qed.

Lemma digits_mul (a b : positive) :
  Z.pos (digits2_pos (a * b)) <= Z.pos (digits2_pos a) + Z.pos (digits2_pos b).
Proof.
  apply digits_pos_le; [|lia].
  rewrite Pos2Z.inj_mul, Z.pow_add_r by lia.
  assert (Ha := digits2_pos_bounds a). assert (Hb := digits2_pos_bounds b).
  apply Z.mul_lt_mono_nonneg; lia.
Qed.

Lemma SFmul_finite (K1 K2 : Z) (x y : float) :
  fbound K1 x -> fbound K2 y ->
  -1074 <= K1 + K2 + 53 -> K1 + K2 + 54 <= 971 ->
  fbound (K1 + K2 + 54) (SFmul prec emax x y).
Proof.
  intros Hx Hy Hlo Hhi.
  destruct x as [sx|sx| |sx mx ex], y as [sy|sy| |sy my ey];
    cbn [fbound] in Hx, Hy; try contradiction; cbn [SFmul fbound]; trivial.
  replace (K1 + K2 + 54) with (K1 + K2 + 53 + 1) by lia.
  assert (Hd := digits_mul mx my).
  apply binary_round_aux_finite; cbn [Zdigits2]; lia.
Qed.

Lemma Zdigits2_mono (a b : Z) : 0 <= a <= b -> Zdigits2 a <= Zdigits2 b.
Proof.
  intros H. apply Zdigits2_le; [apply Zdigits2_nonneg|].
  assert (Hb := Zdigits2_upper b). lia.
Qed.

Lemma SFdiv_finite (K1 : Z) (x : float) (sy : bool) (my : positive) (ey : Z) :
  fbound K1 x ->
  -1074 <= K1 - ey -> K1 - ey + 1 <= 971 ->
  fbound (K1 - ey + 1) (SFdiv prec emax x (S754_finite sy my ey)).
Proof.
  intros Hx Hlo Hhi.
  destruct x as [sx|sx| |sx mx ex]; cbn [fbound] in Hx; try contradiction;
    cbn [SFdiv fbound]; trivial.
  unfold SFdiv_core_binary. rewrite fexp_eq. cbn [Zdigits2].
  set (d1 := Z.pos (digits2_pos mx)). set (d2 := Z.pos (digits2_pos my)).
  set (e' := Z.min (Z.max (d1 + ex - (d2 + ey) - 53) (-1074)) (ex - ey)).
  set (m' := match ex - ey - e' with
             | 0 => Z.pos mx
             | Z.pos _ => Z.shiftl (Z.pos mx) (ex - ey - e')
             | Z.neg _ => 0
             end).
  assert (Hm' : 0 <= m' /\ Zdigits2 m' + e' <= d1 + ex - ey).
  { unfold m'. destruct (ex - ey - e') as [|sh|sh] eqn:Es.
    - cbn [Zdigits2]. fold d1. lia.
    - rewrite Z.shiftl_mul_pow2 by lia. split; [lia|].
      assert (Zdigits2 (Z.pos mx * 2 ^ Z.pos sh) <= d1 + Z.pos sh); [|lia].
      apply Zdigits2_le; [lia|]. split; [lia|].
      rewrite Z.pow_add_r by lia.
      apply Z.mul_lt_mono_pos_r; [lia|]. apply digits2_pos_bounds.
    - cbn [Zdigits2]. lia. }
  destruct Hm' as [Hm0 Hmd].
  destruct (Z.div_eucl m' (Z.pos my)) as [q r] eqn:Eq.
  assert (Hq : q = m' / Z.pos my) by (unfold Z.div; now rewrite Eq).
  assert (Hq0 : 0 <= q) by (rewrite Hq; apply Z.div_pos; lia).
  assert (Hqm : q <= m').
  { rewrite Hq. apply Z.div_le_upper_bound; [lia|]. nia. }
  assert (Hdq := Zdigits2_mono q m' (conj Hq0 Hqm)).
  apply binary_round_aux_finite; unfold d1 in *; lia.
Qed.

Lemma shl_align_fst (m : positive) (e e' : Z) :
  e' <= e ->
  Z.pos (digits2_pos (fst (shl_align m e e'))) + e' <= Z.pos (digits2_pos m) + e.
Proof.
  intros Hle. destruct (shl_align m e e') as [m' e''] eqn:Es.
  assert (e'' = e').
  { revert Es. unfold shl_align. destruct (e' - e) eqn:Ed;
      intros H; injection H as <- <-; lia. }
  apply shl_align_spec in Es. cbn [fst]. lia.
Qed.

Lemma digits_add (a b : positive) (k : Z) :
  Z.pos (digits2_pos a) <= k -> Z.pos (digits2_pos b) <= k ->
  Z.pos (digits2_pos (a + b)) <= k + 1.
Proof.
  intros Ha Hb. apply digits_pos_le; [|lia].
  assert (Ha' := digits2_pos_bounds a). assert (Hb' := digits2_pos_bounds b).
  assert (2 ^ Z.pos (digits2_pos a) <= 2 ^ k) by (apply Z.pow_le_mono_r; lia).
  assert (2 ^ Z.pos (digits2_pos b) <= 2 ^ k) by (apply Z.pow_le_mono_r; lia).
  rewrite Pos2Z.inj_add, Z.pow_add_r by lia. change (2 ^ 1) with 2. lia.
Qed.

Lemma SFadd_finite (K1 K2 : Z) (x y : float) :
  nonneg_sign x -> nonneg_sign y -> fbound K1 x -> fbound K2 y ->
  -1074 <= Z.max K1 K2 + 1 -> Z.max K1 K2 + 2 <= 971 ->
  fbound (Z.max K1 K2 + 2) (SFadd prec emax x y).
Proof.
  intros Sx Sy Hx Hy Hlo Hhi.
  destruct x as [sx|sx| |sx mx ex], y as [sy|sy| |sy my ey];
    cbn [fbound nonneg_sign] in Hx, Hy, Sx, Sy; try contradiction; subst;
    cbn [SFadd fbound]; trivial; try lia.
  cbn [cond_Zopp]. 
  set (ez := Z.min ex ey).
  assert (Ha := shl_align_fst mx ex ez ltac:(lia)).
  assert (Hb := shl_align_fst my ey ez ltac:(lia)).
  set (a := fst (shl_align mx ex ez)) in *.
  set (b := fst (shl_align my ey ez)) in *.
  change (Z.pos a + Z.pos b) with (Z.pos (a + b)). cbn [binary_normalize].
  replace (Z.max K1 K2 + 2) with (Z.max K1 K2 + 1 + 1) by lia.
  assert (Hd := digits_add a b (Z.max K1 K2 + 53 - ez) ltac:(lia) ltac:(lia)).
  apply binary_round_finite; lia.
Qed.

Lemma fmul_finite (K1 K2 : Z) (x y : float) :
  fbound K1 x -> fbound K2 y ->
  -1074 <= K1 + K2 + 53 -> K1 + K2 + 54 <= 971 ->
  fbound (K1 + K2 + 54) (fmul x y).
Proof. apply SFmul_finite. Qed.

Lemma fadd_finite (K1 K2 : Z) (x y : float) :
  nonneg_sign x -> nonneg_sign y -> fbound K1 x -> fbound K2 y ->
  -1074 <= Z.max K1 K2 + 1 -> Z.max K1 K2 + 2 <= 971 ->
  fbound (Z.max K1 K2 + 2) (fadd x y).
Proof. apply SFadd_finite. Qed.

(** An exactly representable [int] converts without raising. *)
Lemma float_of_int_finite (z : Z) :
  exact_int z ->
  exists x, float_of_int z = Ok x /\ fbound 1 x /\ nonneg_sign x.
Proof.
  intros [Hz Hlt]. unfold float_of_int.
  assert (Hb : fbound 1 (binary_normalize prec emax z 0 false)).
  { destruct z as [|m|m]; [exact I| |lia]. cbn [binary_normalize].
    apply (binary_round_finite false m 0 0); try lia.
    assert (Z.pos (digits2_pos m) <= 53) by (apply digits_pos_le; lia). lia. }
  assert (Hs := binary_normalize_nonneg z 0 Hz).
  destruct (binary_normalize prec emax z 0 false) as [s|s| |s m e];
    try contradiction; cbn [is_infinity]; eauto.
Qed.

(** The quotient of two exactly representable [int]s neither overflows nor
    divides by zero when the divisor is positive. *)
Lemma int_truediv_finite (a b : Z) :
  exact_int a -> exact_int b -> 0 < b ->
  exists q, int_truediv a b = Ok q /\ fbound 1 q /\ nonneg_sign q.
Proof.
  intros [Ha Hla] [Hb Hlb] Hpos. unfold int_truediv.
  destruct b as [|b|b]; try lia. destruct a as [|a|a]; try lia.
  - cbn [is_infinity]. eexists. split; [reflexivity|]. split; [exact I|reflexivity].
  - cbn [Z.abs Z.to_pos Z.ltb Z.compare].
    assert (Hq : fbound (0 - 0 + 1)
                   (SFdiv prec emax (S754_finite false a 0)
                      (S754_finite false b 0))).
    { apply SFdiv_finite; try lia. cbn [fbound]. split; [lia|].
      apply digits_pos_le; lia. }
    assert (Hs : nonneg_sign (SFdiv prec emax (S754_finite false a 0)
                                (S754_finite false b 0)))
      by (apply SFdiv_nonneg; reflexivity).
    destruct (SFdiv prec emax _ _) as [s|s| |s m e];
      try contradiction; cbn [is_infinity]; eauto.
Qed.

(** ** Move filter *)

Section MoveFilterFacts.

Variable fetch_move : string -> option MoveData.

Lemma get_damaging_moves_loop_spec (move_names : list string) :
  forall damaging checked calls,
    0 <= checked < 50 ->
    let scanned := firstn (Z.to_nat (50 - checked)) move_names in
    get_damaging_moves_loop fetch_move move_names damaging checked calls =
    (damaging ++ filter (damaging_move fetch_move) scanned,
     checked + Z.of_nat (List.length scanned),
     calls ++ scanned).
Proof.
  induction move_names as [|name rest IH]; intros damaging checked calls Hc.
  - cbv zeta. rewrite firstn_nil. simpl. now rewrite !app_nil_r, Z.add_0_r.
  - cbv zeta. cbn [get_damaging_moves_loop].
    replace (Z.to_nat (50 - checked)) with (S (Z.to_nat (50 - (checked + 1))))
      by lia.
    cbn [firstn filter List.length]. unfold damaging_move at 2.
    set (damaging' := match fetch_move name with
                      | Some md => match power md with
                                   | Some p => if p >? 0 then damaging ++ [name]
                                               else damaging
                                   | None => damaging
                                   end
                      | None => damaging
                      end).
    assert (Hd : forall l, damaging' ++ l =
              damaging ++
              (if match fetch_move name with
                  | Some md => match power md with
                               | Some p => p >? 0
                               | None => false
                               end
                  | None => false
                  end
               then name :: l else l)).
    { intros l. unfold damaging'. destruct (fetch_move name) as [md|]; trivial.
      destruct (power md) as [pw|]; trivial.
      destruct (pw >? 0); trivial. now rewrite <- app_assoc. }
    destruct (checked + 1 >=? 50) eqn:E.
    + replace (Z.to_nat (50 - (checked + 1))) with 0%nat by lia.
      cbn [firstn filter List.length]. rewrite <- Hd, app_nil_r.
      reflexivity.
    + rewrite IH by lia. cbv zeta. rewrite <- Hd, <- !app_assoc.
      rewrite Nat2Z.inj_succ. cbn [app]. do 2 f_equal. lia.
Qed.

(** C8. [get_damaging_moves] calls [fetch_move] on the first 50 names and
    on no other, so at most 50 times; it returns, in order, those of the
    first 50 names whose fetched record has a power that is present and
    greater than 0, and so depends on the first 50 names only. *)
Theorem get_damaging_moves_scans_50 (move_names : list string) :
  get_damaging_moves_traced fetch_move move_names =
    (filter (damaging_move fetch_move) (firstn 50 move_names),
     Z.of_nat (List.length (firstn 50 move_names)),
     firstn 50 move_names)
  /\ (List.length (firstn 50 move_names) <= 50)%nat
  /\ get_damaging_moves fetch_move move_names =
     filter (damaging_move fetch_move) (firstn 50 move_names)
  /\ get_damaging_moves fetch_move move_names =
     get_damaging_moves fetch_move (firstn 50 move_names).
Proof.
  assert (H : forall l, get_damaging_moves_traced fetch_move l =
            (filter (damaging_move fetch_move) (firstn 50 l),
             Z.of_nat (List.length (firstn 50 l)), firstn 50 l)).
  { intros l. unfold get_damaging_moves_traced.
    rewrite get_damaging_moves_loop_spec by lia. reflexivity. }
  unfold get_damaging_moves. rewrite !H. cbn [fst].
  rewrite firstn_firstn. repeat split. apply firstn_le_length.
Qed.

End MoveFilterFacts.

(** The 51st name is not looked up, whatever its move. *)
Example get_damaging_moves_cap :
  get_damaging_moves sample_moves
    (["pound"; "growl"; "tackle"; "splash"] ++ repeat "growl" 46 ++ ["pound"])
  = ["pound"; "tackle"].
Proof. reflexivity. Qed.

(** ** Type effectiveness *)

Section TypeFacts.

Variable fetch_type : string -> option TypeData.

Lemma effectiveness_one_type (dr : TypeData) (move_type t : string) :
  fetch_type move_type = Some dr ->
  get_type_effectiveness fetch_type move_type [t] = factor_value dr t /\
  In (factor_value dr t) [f0_0; f0_5; f1_0; f2_0].
Proof.
  intros Hf. unfold get_type_effectiveness, factor_value, type_factor.
  rewrite Hf. cbn [fold_left].
  destruct (str_in t (double_damage_to dr)); [split; [reflexivity|simpl; auto]|].
  destruct (str_in t (half_damage_to dr)); [split; [reflexivity|simpl; auto]|].
  destruct (str_in t (no_damage_to dr)); split; try reflexivity; simpl; auto.
Qed.

Lemma effectiveness_two_types (dr : TypeData) (move_type t1 t2 : string) :
  fetch_type move_type = Some dr ->
  get_type_effectiveness fetch_type move_type [t1; t2] =
    fmul (factor_value dr t1) (factor_value dr t2) /\
  In (fmul (factor_value dr t1) (factor_value dr t2)) effectiveness_values.
Proof.
  intros Hf. unfold get_type_effectiveness, factor_value, type_factor.
  rewrite Hf. cbn [fold_left].
  destruct (str_in t1 (double_damage_to dr)), (str_in t1 (half_damage_to dr)),
    (str_in t1 (no_damage_to dr)), (str_in t2 (double_damage_to dr)),
    (str_in t2 (half_damage_to dr)), (str_in t2 (no_damage_to dr));
    (split; [reflexivity|vm_compute; tauto]).
Qed.

Lemma effectiveness_in_values (move_type : string)
    (defender_types : list string) :
  (List.length defender_types <= 2)%nat ->
  In (get_type_effectiveness fetch_type move_type defender_types)
     effectiveness_values.
Proof.
  intros Hlen.
  destruct (fetch_type move_type) as [dr|] eqn:Hf.
  - destruct defender_types as [|t1 [|t2 [|t3 ts]]]; simpl in Hlen; try lia.
    + unfold get_type_effectiveness. rewrite Hf. simpl. auto.
    + destruct (effectiveness_one_type dr move_type t1 Hf) as [-> Hin].
      unfold effectiveness_values. simpl in Hin |- *. tauto.
    + destruct (effectiveness_two_types dr move_type t1 t2 Hf) as [-> Hin].
      exact Hin.
  - unfold get_type_effectiveness. rewrite Hf. simpl. auto.
Qed.

(** C7. A failed type lookup gives exactly 1.0. Otherwise the multiplier
    starts at 1.0 and each defending type multiplies it by its factor: 2.0,
    0.5 or 0.0 for the first of double-damage-to, half-damage-to and
    no-damage-to that lists it, and nothing (a factor 1.0) when none does.
    For one or two defending types the result is the product of their
    factors and lies in {0, 0.25, 0.5, 1, 2, 4}. *)
Theorem type_effectiveness_product (move_type : string)
    (defender_types : list string) :
  (fetch_type move_type = None ->
   get_type_effectiveness fetch_type move_type defender_types = f1_0)
  /\ (forall dr,
        fetch_type move_type = Some dr ->
        get_type_effectiveness fetch_type move_type defender_types =
          fold_left
            (fun eff t =>
               match type_factor dr t with
               | Some f => fmul eff f
               | None => eff
               end)
            defender_types f1_0
        /\ (forall t, defender_types = [t] ->
              get_type_effectiveness fetch_type move_type defender_types =
                factor_value dr t)
        /\ (forall t1 t2, defender_types = [t1; t2] ->
              get_type_effectiveness fetch_type move_type defender_types =
                fmul (factor_value dr t1) (factor_value dr t2)))
  /\ ((1 <= List.length defender_types <= 2)%nat ->
      In (get_type_effectiveness fetch_type move_type defender_types)
         effectiveness_values).
Proof.
  split; [|split].
  - intros Hf. unfold get_type_effectiveness. now rewrite Hf.
  - intros dr Hf. split; [|split].
    + unfold get_type_effectiveness. rewrite Hf.
      generalize f1_0. induction defender_types as [|t ts IH]; intros acc.
      * reflexivity.
      * cbn [fold_left]. rewrite IH. f_equal. unfold type_factor.
        destruct (str_in t (double_damage_to dr)); trivial.
        destruct (str_in t (half_damage_to dr)); trivial.
        destruct (str_in t (no_damage_to dr)); trivial.
    + intros t ->. now apply effectiveness_one_type.
    + intros t1 t2 ->. now apply effectiveness_two_types.
  - intros [_ Hlen]. now apply effectiveness_in_values.
Qed.

End TypeFacts.

(** ** Damage calculator *)

Lemma hit_damage_eq (power : option Z) (atk dfn : Z) (eff : float) :
  hit_damage power atk dfn eff =
  (x <- hit_base power atk dfn ;; int_of_float (fmul x eff)).
Proof.
  unfold hit_damage, hit_base.
  destruct (int_truediv (2 * LEVEL) 5) as [x1|]; monad_simpl; trivial.
  destruct (fadd_int x1 2) as [x2|]; monad_simpl; trivial.
  destruct power as [p|]; monad_simpl; trivial.
  destruct (fmul_int x2 p) as [x3|]; monad_simpl; trivial.
  destruct (int_truediv atk dfn) as [q|]; reflexivity.
Qed.

Lemma fadd_int_nonneg (x y : float) (z : Z) :
  nonneg_sign x -> 0 <= z -> fadd_int x z = Ok y -> nonneg_sign y.
Proof.
  unfold fadd_int. monad_simpl. intros Hx Hz H. bind_ok H w E.
  injection H as <-. apply fadd_nonneg; eauto using float_of_int_nonneg.
Qed.

Lemma fmul_int_nonneg (x y : float) (z : Z) :
  nonneg_sign x -> 0 <= z -> fmul_int x z = Ok y -> nonneg_sign y.
Proof.
  unfold fmul_int. monad_simpl. intros Hx Hz H. bind_ok H w E.
  injection H as <-. apply fmul_nonneg; eauto using float_of_int_nonneg.
Qed.

Lemma fdiv_int_nonneg (x y : float) (z : Z) :
  nonneg_sign x -> 0 <= z -> fdiv_int x z = Ok y -> nonneg_sign y.
Proof.
  unfold fdiv_int. monad_simpl. intros Hx Hz H. bind_ok H w E.
  eapply fdiv_nonneg; [exact Hx| |exact H].
  eapply float_of_int_nonneg; eassumption.
Qed.

Lemma hit_base_nonneg (power : option Z) (atk dfn : Z) (x : float) :
  (forall p, power = Some p -> 0 <= p) -> 0 <= atk -> 0 <= dfn ->
  hit_base power atk dfn = Ok x -> nonneg_sign x.
Proof.
  unfold hit_base. monad_simpl. intros Hp Ha Hd H.
  bind_ok H x1 E1. bind_ok H x2 E2.
  destruct power as [p|]; [|discriminate H].
  bind_ok H x3 E3. bind_ok H q E4. bind_ok H x5 E5.
  assert (H1 : nonneg_sign x1)
    by (eapply int_truediv_nonneg; [| |exact E1]; unfold LEVEL; lia).
  assert (H2 : nonneg_sign x2)
    by (eapply fadd_int_nonneg; [exact H1| |exact E2]; lia).
  assert (H3 : nonneg_sign x3)
    by (eapply fmul_int_nonneg; [exact H2| |exact E3]; now apply Hp).
  assert (H4 : nonneg_sign q)
    by (eapply int_truediv_nonneg; [| |exact E4]; assumption).
  assert (H5 : nonneg_sign x5)
    by (eapply fdiv_int_nonneg;
          [apply (fmul_nonneg x3 q H3 H4)| |exact E5]; lia).
  eapply fadd_int_nonneg; [exact H5| |exact H]. lia.
Qed.

(** A hit that lands on non-negative stats deals a non-negative damage. *)
Lemma hit_damage_nonneg (power : option Z) (atk dfn : Z) (eff : float)
    (dmg : Z) :
  (forall p, power = Some p -> 0 <= p) -> 0 <= atk -> 0 <= dfn ->
  nonneg_sign eff ->
  hit_damage power atk dfn eff = Ok dmg -> 0 <= dmg.
Proof.
  rewrite hit_damage_eq. monad_simpl. intros Hp Ha Hd He H.
  bind_ok H x E.
  eapply int_of_float_nonneg; [|exact H].
  apply fmul_nonneg; eauto using hit_base_nonneg.
Qed.

Lemma feqb_zero (x : float) : feqb x f0_0 = true -> is_zero x = true.
Proof.
  destruct x as [s|[]| |[] m e]; intros H; trivial; cbv in H; discriminate H.
Qed.

(** A hit on an immune defender deals no damage. *)
Lemma hit_damage_immune (power : option Z) (atk dfn : Z) (eff : float)
    (dmg : Z) :
  feqb eff f0_0 = true ->
  hit_damage power atk dfn eff = Ok dmg -> dmg = 0.
Proof.
  rewrite hit_damage_eq. monad_simpl. intros He H. bind_ok H x E.
  eapply int_of_fmul_zero; [|exact H]. now apply feqb_zero.
Qed.

(** With exactly representable operands and a positive defence stat the
    base value of a hit is a finite, non-negative float. *)
Lemma hit_base_finite (p atk dfn : Z) :
  exact_int p -> exact_int atk -> exact_int dfn -> 0 < dfn ->
  exists x, hit_base (Some p) atk dfn = Ok x /\ fbound 112 x /\ nonneg_sign x.
Proof.
  intros Hp Ha Hd Hpos.
  destruct (float_of_int_finite p Hp) as (pw & Epw & Bpw & Spw).
  destruct (int_truediv_finite atk dfn Ha Hd Hpos) as (q & Eq & Bq & Sq).
  set (f22 := S754_finite false 6192449487634432 (-48)).
  set (f50 := S754_finite false 7036874417766400 (-47)).
  assert (B22 : fbound (-48) f22) by (cbn; lia).
  assert (S22 : nonneg_sign f22) by reflexivity.
  assert (B3 := fmul_finite _ _ f22 pw B22 Bpw ltac:(lia) ltac:(lia)).
  assert (S3 := fmul_nonneg f22 pw S22 Spw).
  assert (B4 := fmul_finite _ _ _ q B3 Bq ltac:(lia) ltac:(lia)).
  assert (S4 := fmul_nonneg _ q S3 Sq).
  assert (B5 := SFdiv_finite _ _ false 7036874417766400 (-47) B4
                  ltac:(lia) ltac:(lia)).
  assert (S5 := SFdiv_nonneg _ f50 S4 eq_refl).
  assert (B6 := fadd_finite _ _ _ f2_0 S5 eq_refl B5
                  (ltac:(cbn; lia) : fbound (-51) f2_0) ltac:(lia) ltac:(lia)).
  assert (S6 := fadd_nonneg _ f2_0 S5 eq_refl).
  exists (fadd (SFdiv prec emax (fmul (fmul f22 pw) q) f50) f2_0).
  split; [|split; [exact B6|exact S6]].
  unfold hit_base, fadd_int, fmul_int, fdiv_int.
  change (int_truediv (2 * LEVEL) 5)
    with (Ok (S754_finite false 5629499534213120 (-48))).
  change (float_of_int 2) with (Ok f2_0).
  change (float_of_int 50) with (Ok f50).
  monad_simpl. rewrite Epw. monad_simpl. rewrite Eq. monad_simpl.
  reflexivity.
Qed.

Lemma effectiveness_values_bound (eff : float) :
  In eff effectiveness_values -> fbound (-50) eff /\ nonneg_sign eff.
Proof.
  unfold effectiveness_values. simpl.
  intros [<-|[<-|[<-|[<-|[<-|[<-|[]]]]]]]; cbn; split; trivial; lia.
Qed.

(** Under the same conditions the hit formula returns. *)
Lemma hit_damage_returns (p atk dfn : Z) (eff : float) :
  exact_int p -> exact_int atk -> exact_int dfn -> 0 < dfn ->
  In eff effectiveness_values ->
  exists dmg, hit_damage (Some p) atk dfn eff = Ok dmg.
Proof.
  intros Hp Ha Hd Hpos He.
  destruct (hit_base_finite p atk dfn Hp Ha Hd Hpos) as (x & Ex & Bx & Sx).
  destruct (effectiveness_values_bound eff He) as [Be _].
  rewrite hit_damage_eq, Ex. monad_simpl.
  assert (B := fmul_finite _ _ x eff Bx Be ltac:(lia) ltac:(lia)).
  destruct (fmul x eff) as [s|s| |s m e]; try contradiction;
    cbn [int_of_float]; eauto.
Qed.

Section DamageFacts.

Variable fetch_type : string -> option TypeData.
Variable rand : nat -> float.

Lemma get_type_effectiveness_nonneg (move_type : string)
    (defender_types : list string) :
  nonneg_sign (get_type_effectiveness fetch_type move_type defender_types).
Proof.
  unfold get_type_effectiveness.
  destruct (fetch_type move_type) as [dr|]; [|reflexivity].
  assert (H : nonneg_sign f1_0) by reflexivity. revert H.
  generalize f1_0 as acc.
  induction defender_types as [|d ds IH]; intros acc Hacc; simpl; trivial.
  apply IH.
  destruct (str_in d (double_damage_to dr)); [now apply fmul_nonneg|].
  destruct (str_in d (half_damage_to dr)); [now apply fmul_nonneg|].
  destruct (str_in d (no_damage_to dr)); [now apply fmul_nonneg|trivial].
Qed.

(** [calculate_damage] draws once, compares the draw with accuracy/100 and
    either evaluates the hit formula or yields 0. *)
Lemma calculate_damage_eq (a d : Stats) (ts : list string) (m : MoveData)
    (n : nat) :
  let eff := get_type_effectiveness fetch_type (move_type m) ts in
  calculate_damage fetch_type rand a d ts m n =
  match int_truediv (accuracy_used m) 100 with
  | Raise e => Raise e
  | Ok threshold =>
      if fltb (rand n) threshold then
        match hit_damage (power m) (attack_stat m a) (defense_stat m d) eff with
        | Ok dmg => Ok (dmg, eff, missed_flag dmg eff, S n)
        | Raise e => Raise e
        end
      else Ok (0, eff, missed_flag 0 eff, S n)
  end.
Proof.
  unfold calculate_damage, accuracy_used, attack_stat, defense_stat.
  destruct (String.eqb (damage_class m) "physical"); monad_simpl;
    (destruct (int_truediv _ 100) as [th|e]; monad_simpl; [|reflexivity]);
    (destruct (fltb (rand n) th); monad_simpl; [|reflexivity]);
    destruct (hit_damage _ _ _ _); reflexivity.
Qed.

Lemma valid_stats_selected (m : MoveData) (a d : Stats) :
  valid_stats a -> valid_stats d ->
  0 <= attack_stat m a /\ 0 <= defense_stat m d.
Proof.
  unfold valid_stats, attack_stat, defense_stat.
  destruct (String.eqb (damage_class m) "physical"); intuition.
Qed.

(** Every call draws exactly one random value. *)
Lemma calculate_damage_draws (a d : Stats) (ts : list string) (m : MoveData)
    (n n' : nat) (r : Z * float * bool) :
  calculate_damage fetch_type rand a d ts m n = Ok (r, n') -> n' = S n.
Proof.
  rewrite calculate_damage_eq.
  destruct (int_truediv _ 100) as [th|]; [|discriminate].
  destruct (fltb (rand n) th); [destruct (hit_damage _ _ _ _)|];
    intros H; try discriminate H; now injection H.
Qed.

Lemma calculate_damage_nonneg (a d : Stats) (ts : list string) (m : MoveData)
    (n n' : nat) (dmg : Z) (e : float) (missed : bool) :
  valid_stats a -> valid_stats d -> valid_move m ->
  calculate_damage fetch_type rand a d ts m n = Ok (dmg, e, missed, n') ->
  0 <= dmg.
Proof.
  intros Ha Hd Hm. rewrite calculate_damage_eq.
  destruct (valid_stats_selected m a d Ha Hd) as [Hatk Hdfn].
  destruct (int_truediv _ 100) as [th|]; [|discriminate].
  destruct (fltb (rand n) th).
  - destruct (hit_damage _ _ _ _) as [dmg'|] eqn:Ehit; [|discriminate].
    intros H. injection H as <- _ _ _.
    eapply hit_damage_nonneg; [exact Hm|exact Hatk|exact Hdfn| |exact Ehit].
    apply get_type_effectiveness_nonneg.
  - intros H. injection H as <- _ _ _. lia.
Qed.

Lemma ready_stats_selected (m : MoveData) (a d : Stats) :
  ready_stats a -> ready_stats d ->
  exact_int (attack_stat m a) /\ exact_int (defense_stat m d) /\
  0 < defense_stat m d.
Proof.
  unfold ready_stats, attack_stat, defense_stat.
  destruct (String.eqb (damage_class m) "physical"); intuition.
Qed.

Lemma ready_accuracy (m : MoveData) :
  ready_move m -> 1 <= accuracy_used m <= 100.
Proof.
  intros [_ Hacc]. unfold accuracy_used.
  destruct (accuracy m) as [a|]; [|lia].
  specialize (Hacc a eq_refl). destruct (a =? 0) eqn:E; lia.
Qed.

(** On a ready attacker, defender and move, [calculate_damage] returns
    at every state of the random source. *)
Lemma calculate_damage_returns (a d : Stats) (ts : list string)
    (m : MoveData) (n : nat) :
  ready_stats a -> ready_stats d -> ready_move m ->
  (List.length ts <= 2)%nat ->
  exists dmg missed,
    calculate_damage fetch_type rand a d ts m n =
    Ok (dmg, get_type_effectiveness fetch_type (move_type m) ts, missed, S n).
Proof.
  intros Ha Hd Hm Hts. rewrite calculate_damage_eq.
  destruct (ready_stats_selected m a d Ha Hd) as (Hatk & Hdfn & Hpos).
  assert (Hacc := ready_accuracy m Hm).
  destruct (int_truediv_finite (accuracy_used m) 100) as (th & -> & _);
    try (unfold exact_int; lia).
  destruct (fltb (rand n) th); [|eauto].
  destruct Hm as [(p & -> & Hp) _].
  destruct (hit_damage_returns p _ _
              (get_type_effectiveness fetch_type (move_type m) ts)
              Hp Hatk Hdfn Hpos) as (dmg & ->).
  - now apply effectiveness_in_values.
  - eauto.
Qed.

Lemma accuracy_full_threshold : int_truediv 100 100 = Ok f1_0.
Proof. reflexivity. Qed.

(** C3, as amended. On non-negative stats and power every damage that
    [calculate_damage] returns is a non-negative integer, and when the
    effectiveness is 0 it is 0 and the hit is not flagged as missed. When
    moreover the stats and the power are below 2^53, the defence stats are
    positive, the power is present, the accuracy is absent or within 0..100
    and the defender has at most two types, the call returns at every
    value of the draw; so with effectiveness 0 it returns (0, 0.0, False)
    whatever the draw. *)
Theorem calculate_damage_nonneg_immune (a d : Stats) (ts : list string)
    (m : MoveData) (n : nat) :
  valid_stats a -> valid_stats d -> valid_move m ->
  let eff := get_type_effectiveness fetch_type (move_type m) ts in
  (forall dmg e missed n',
      calculate_damage fetch_type rand a d ts m n = Ok (dmg, e, missed, n') ->
      0 <= dmg /\ (feqb e f0_0 = true -> dmg = 0 /\ missed = false))
  /\ (ready_stats a -> ready_stats d -> ready_move m ->
      (List.length ts <= 2)%nat ->
      (exists dmg missed,
          calculate_damage fetch_type rand a d ts m n =
          Ok (dmg, eff, missed, S n))
      /\ (feqb eff f0_0 = true ->
          calculate_damage fetch_type rand a d ts m n =
          Ok (0, eff, false, S n))).
Proof.
  intros Ha Hd Hm eff.
  assert (Himmune : forall dmg e missed n',
             calculate_damage fetch_type rand a d ts m n
               = Ok (dmg, e, missed, n') ->
             feqb e f0_0 = true -> dmg = 0 /\ missed = false).
  { intros dmg e missed n'. rewrite calculate_damage_eq. fold eff.
    destruct (int_truediv (accuracy_used m) 100) as [th|]; [|discriminate].
    destruct (fltb (rand n) th).
    - destruct (hit_damage _ _ _ _) as [dmg'|] eqn:Ehit; [|discriminate].
      intros H He. injection H as <- <- <- <-.
      split; [now apply hit_damage_immune in Ehit|].
      unfold missed_flag. rewrite He. apply andb_false_r.
    - intros H He. injection H as <- <- <- <-. split; [reflexivity|].
      unfold missed_flag. rewrite He. reflexivity. }
  split.
  - intros dmg e missed n' H. split; [|now apply (Himmune _ _ _ _ H)].
    exact (calculate_damage_nonneg a d ts m n n' dmg e missed Ha Hd Hm H).
  - intros Ra Rd Rm Hts.
    destruct (calculate_damage_returns a d ts m n Ra Rd Rm Hts)
      as (dmg & missed & Hret).
    fold eff in Hret. split; [eauto|].
    intros He. destruct (Himmune _ _ _ _ Hret He) as [-> ->]. exact Hret.
Qed.

(** C10. An accuracy field equal to 0 is treated as an absent one: the
    accuracy used is 100, and at every draw in [0, 1) the result is the
    one of the hit formula. *)
Theorem accuracy_zero_always_hits (a d : Stats) (ts : list string)
    (m : MoveData) (n : nat) :
  accuracy m = Some 0 -> unit_interval (rand n) ->
  let eff := get_type_effectiveness fetch_type (move_type m) ts in
  accuracy_used m = 100
  /\ calculate_damage fetch_type rand a d ts m n =
     calculate_damage fetch_type rand a d ts (with_accuracy None m) n
  /\ calculate_damage fetch_type rand a d ts m n =
     (dmg <- hit_damage (power m) (attack_stat m a) (defense_stat m d) eff ;;
      Ok (dmg, eff, missed_flag dmg eff, S n)).
Proof.
  intros Hacc [_ Hr] eff.
  assert (Hused : accuracy_used m = 100) by (unfold accuracy_used; now rewrite Hacc).
  split; [exact Hused|]. split.
  - rewrite !calculate_damage_eq. rewrite Hused. reflexivity.
  - rewrite calculate_damage_eq, Hused, accuracy_full_threshold, Hr.
    reflexivity.
Qed.

End DamageFacts.


(** C1 as stated fails at Caterpie's Bug Bite on Ekans (power 60, attack 30,
    defense 44, effectiveness 0.5). The draw 0.5 is below
    accuracy/100 = 1.0, so the hit lands. The exact value of the formula is
    (18 + 2) * 0.5 = 10; in binary64 the quotient 30 / 44 is rounded, the
    base comes out just below 20, and the damage returned is 9. *)
Lemma binary64_rounding_shows :
  int_truediv (accuracy_used bug_bite) 100 = Ok f1_0
  /\ fltb (constant_source f0_5 0%nat) f1_0 = true
  /\ calculate_damage sample_types (constant_source f0_5)
       (stats caterpie) (stats ekans) (types ekans) bug_bite 0%nat
     = Ok (9, f0_5, false, 1%nat)
  /\ power bug_bite = Some 60
  /\ attack_stat bug_bite (stats caterpie) = 30
  /\ defense_stat bug_bite (stats ekans) = 44
  /\ (float_value f0_5 == 1 # 2)%Q
  /\ (exact_formula 50 60 30 44 (float_value f0_5) == 10)%Q
  /\ exact_damage 50 60 30 44 (float_value f0_5) = 10.
Proof. repeat split. Qed.

(** C2, at Chansey's Pound against Aggron. The draw 0.5 is below
    accuracy/100 = 1.0, so the hit lands; its damage truncates to 0 under
    the effectiveness 0.25, and the hit is returned as missed. *)
Theorem landed_hit_flagged_missed :
  int_truediv (accuracy_used pound) 100 = Ok f1_0
  /\ fltb (constant_source f0_5 0%nat) f1_0 = true
  /\ hit_damage (power pound) 5 180 f0_25 = Ok 0
  /\ calculate_damage sample_types (constant_source f0_5)
       (stats chansey) (stats aggron) (types aggron) pound 0%nat
     = Ok (0, f0_25, true, 1%nat).
Proof. repeat split. Qed.

(** C3, as stated, fails where the defence stat is 0: against an immune
    defender the effectiveness is 0, the draw 0.5 lands, and the call
    raises instead of returning a damage of 0. *)
Lemma immune_hit_on_zero_defense_raises :
  get_type_effectiveness sample_types (move_type pound) ["ghost"] = f0_0
  /\ fltb (constant_source f0_5 0%nat) f1_0 = true
  /\ calculate_damage sample_types (constant_source f0_5)
       (scenario_stats 100 50) (scenario_stats 100 0) ["ghost"] pound 0%nat
     = Raise ZeroDivisionError.
Proof. repeat split. Qed.

(** ** Strings *)

Lemma to_upper_not_lower_s (c : ascii) : to_upper c <> "s"%char.
Proof.
  destruct c as [[] [] [] [] [] [] [] []]; vm_compute; discriminate.
Qed.

Lemma apostrophe_is_uncased (c : ascii) :
  to_lower c = "'"%char \/ to_upper c = "'"%char ->
  is_upper c || is_lower c = false.
Proof.
  destruct c as [[] [] [] [] [] [] [] []]; vm_compute;
    intros [H|H]; try reflexivity; discriminate H.
Qed.

(** [str.title()] capitalises the letter after an apostrophe, so no name
    is titled to the simultaneous-KO message. *)
Lemma title_not_draw (s : string) : title s <> "It's a draw!".
Proof.
  unfold title.
  destruct s as [|c0 [|c1 [|c2 [|c3 s]]]]; cbn [title_from]; try discriminate.
  intros H. injection H as _ _ H2 H3 _.
  assert (Hc2 : is_upper c2 || is_lower c2 = false).
  { apply apostrophe_is_uncased.
    destruct (is_upper c1 || is_lower c1); auto. }
  rewrite Hc2 in H3. now apply to_upper_not_lower_s in H3.
Qed.

(** ** Lists *)

Lemma history_rows_app (n1 n2 : string) (rows rows' : list (Z * Z)) :
  forall rnd,
    history_rows n1 n2 rnd (rows ++ rows') =
    history_rows n1 n2 rnd rows ++
    history_rows n1 n2 (rnd + Z.of_nat (List.length rows)) rows'.
Proof.
  induction rows as [|[h1 h2] rows IH]; intros rnd.
  - simpl. now rewrite Z.add_0_r.
  - cbn [history_rows app List.length]. rewrite IH.
    do 3 f_equal. rewrite Nat2Z.inj_succ. apply f_equal2; [lia|reflexivity].
Qed.

Lemma non_increasing_snoc (l : list Z) (x : Z) :
  non_increasing l -> (forall y, In y l -> x <= y) ->
  non_increasing (l ++ [x]).
Proof.
  intros Hl Hx i j a b Hij Hi Hj.
  destruct (Nat.lt_ge_cases j (List.length l)) as [Hlt|Hge].
  - rewrite nth_error_app1 in Hi, Hj by lia. eauto.
  - assert (b = x) as ->.
    { rewrite nth_error_app2 in Hj by lia.
      destruct (j - List.length l)%nat as [|[|k]]; simpl in Hj;
        congruence. }
    destruct (Nat.lt_ge_cases i (List.length l)) as [Hlt'|Hge'].
    + rewrite nth_error_app1 in Hi by lia.
      apply Hx. eapply nth_error_In; eassumption.
    + rewrite nth_error_app2 in Hi by lia.
      destruct (i - List.length l)%nat as [|[|k]]; simpl in Hi;
        try discriminate. injection Hi as <-. lia.
Qed.

Lemma trace_ok_snoc (rows : list (Z * Z)) (h1 h2 : Z) :
  trace_ok rows ->
  (forall r, In r rows -> h1 <= fst r /\ h2 <= snd r) ->
  0 <= h1 -> 0 <= h2 ->
  trace_ok (rows ++ [(h1, h2)]).
Proof.
  intros (H1 & H2 & H3) Hle Hh1 Hh2. unfold trace_ok.
  rewrite !map_app. cbn [map fst snd]. repeat split.
  - apply non_increasing_snoc; [exact H1|].
    intros y Hy. apply in_map_iff in Hy. destruct Hy as (r & <- & Hr).
    now apply Hle.
  - apply non_increasing_snoc; [exact H2|].
    intros y Hy. apply in_map_iff in Hy. destruct Hy as (r & <- & Hr).
    now apply Hle.
  - apply Forall_app. split; [exact H3|]. repeat constructor; assumption.
Qed.

Lemma removelast_only_last (log : list TurnEvent) :
  Forall standing (removelast log) -> only_last_faints log.
Proof.
  intros H before e after -> He.
  destruct after as [|e' after]; [reflexivity|]. exfalso.
  rewrite removelast_app in H by discriminate.
  apply Forall_app in H. destruct H as [_ H].
  cbn [removelast] in H. inversion H as [|? ? Hst _]. unfold standing in Hst. lia.
Qed.

(** ** Battle simulator *)

Lemma apply_damage_spec (def_key : string) (dmg : Z) (st st1 : BattleState)
    (dha : Z) :
  apply_damage def_key dmg st = (st1, dha) ->
  battle_log st1 = battle_log st /\ hp_history st1 = hp_history st /\
  ((p1_hp st1 = Z.max 0 (p1_hp st - dmg) /\ p2_hp st1 = p2_hp st /\
    dha = p1_hp st1) \/
   (p2_hp st1 = Z.max 0 (p2_hp st - dmg) /\ p1_hp st1 = p1_hp st /\
    dha = p2_hp st1)).
Proof.
  unfold apply_damage.
  destruct (String.eqb def_key "p1"); intros H; injection H as <- <-;
    simpl; auto 6.
Qed.

Lemma Forall_removelast {A : Type} (P : A -> Prop) (l : list A) :
  Forall P l -> Forall P (removelast l).
Proof.
  induction 1 as [|x l Hx Hl IH]; simpl; [constructor|].
  destruct l; [constructor|]. constructor; assumption.
Qed.

Lemma removelast_cons_standing (e : TurnEvent) (l : list TurnEvent) :
  standing e -> Forall standing (removelast l) ->
  Forall standing (removelast (e :: l)).
Proof.
  intros He Hl. simpl. destruct l; [constructor|]. now constructor.
Qed.

Section BattleFacts.

Variable fetch_type : string -> option TypeData.
Variable rand : nat -> float.

Lemma turns_cons_inv (rnd : Z) (attacker : Pokemon) (atk_move : MoveData)
    (defender : Pokemon) (def_key : string) (rest : list Slot)
    (st st' : BattleState) (n n' : nat) :
  turns fetch_type rand rnd ((attacker, atk_move, defender, def_key) :: rest)
        st n = Ok (st', n') ->
  exists dmg eff missed st1 dha,
    calculate_damage fetch_type rand (stats attacker) (stats defender)
                     (types defender) atk_move n
      = Ok (dmg, eff, missed, S n) /\
    apply_damage def_key dmg st = (st1, dha) /\
    let st2 :=
      log_append (turn_event rnd attacker atk_move dmg eff missed dha) st1 in
    (dha <= 0 /\ st' = st2 /\ n' = S n) \/
    (0 < dha /\ turns fetch_type rand rnd rest st2 (S n) = Ok (st', n')).
Proof.
  cbn [turns]. monad_simpl. intros H.
  destruct (calculate_damage _ _ _ _ _ _ n) as [[[[dmg eff] missed] n1]|]
    eqn:Ecalc; [|discriminate H].
  assert (n1 = S n) by (eapply calculate_damage_draws; exact Ecalc). subst n1.
  destruct (apply_damage def_key dmg st) as [st1 dha] eqn:Eapp.
  exists dmg, eff, missed, st1, dha. split; [reflexivity|]. split; [exact Eapp|].
  cbv zeta. destruct (dha <=? 0) eqn:Ecmp.
  - left. cbv beta in H. injection H as <- <-. split; [lia|auto].
  - right. split; [lia|exact H].
Qed.

(** What one run of the inner loop does to the log and the random source. *)
Lemma turns_log (rnd : Z) (order : list Slot) :
  forall st n st' n',
    turns fetch_type rand rnd order st n = Ok (st', n') ->
    exists evs,
      battle_log st' = battle_log st ++ evs /\
      hp_history st' = hp_history st /\
      Forall (fun e => Round e = rnd) evs /\
      (List.length evs <= List.length order)%nat /\
      (n' <= n + List.length order)%nat /\
      Forall standing (removelast evs) /\
      (0 < p1_hp st' -> 0 < p2_hp st' -> Forall standing evs).
Proof.
  induction order as [|[[[attacker atk_move] defender] def_key] rest IH];
    intros st n st' n' H.
  - injection H as <- <-. exists []. rewrite app_nil_r.
    repeat split; auto; simpl; lia.
  - apply turns_cons_inv in H.
    destruct H as (dmg & eff & missed & st1 & dha & _ & Happ & H).
    apply apply_damage_spec in Happ. destruct Happ as (Hlog & Hhist & Hhp).
    set (e := turn_event rnd attacker atk_move dmg eff missed dha) in *.
    cbv zeta in H. destruct H as [(Hdha & -> & ->)|(Hdha & H)].
    + exists [e]. simpl. rewrite Hlog, Hhist.
      repeat split; auto; simpl; lia.
    + apply IH in H. destruct H as (evs & Hl & Hh & Hr & Hlen & Hn & Hs & Hst).
      exists (e :: evs). simpl in Hl, Hh. rewrite Hl, Hh, Hlog, Hhist.
      rewrite <- app_assoc. simpl.
      split; [reflexivity|]. split; [reflexivity|].
      split; [constructor; auto|]. split; [lia|]. split; [lia|].
      split; [apply removelast_cons_standing; auto|].
      intros H1 H2. constructor; auto.
Qed.

(** The inner loop keeps HP values non-negative. *)
Lemma turns_hp_nonneg (rnd : Z) (order : list Slot) :
  forall st n st' n',
    0 <= p1_hp st -> 0 <= p2_hp st ->
    turns fetch_type rand rnd order st n = Ok (st', n') ->
    0 <= p1_hp st' /\ 0 <= p2_hp st'.
Proof.
  induction order as [|[[[attacker atk_move] defender] def_key] rest IH];
    intros st n st' n' H1 H2 H.
  - injection H as <- <-. auto.
  - apply turns_cons_inv in H.
    destruct H as (dmg & eff & missed & st1 & dha & _ & Happ & H).
    apply apply_damage_spec in Happ. destruct Happ as (_ & _ & Hhp).
    cbv zeta in H. destruct H as [(Hdha & -> & ->)|(Hdha & H)].
    + simpl. lia.
    + apply IH in H; [exact H| |]; simpl; lia.
Qed.

(** On valid slots the inner loop never raises an HP value. *)
Lemma turns_hp_decreasing (rnd : Z) (order : list Slot) :
  Forall valid_slot order ->
  forall st n st' n',
    0 <= p1_hp st -> 0 <= p2_hp st ->
    turns fetch_type rand rnd order st n = Ok (st', n') ->
    p1_hp st' <= p1_hp st /\ p2_hp st' <= p2_hp st.
Proof.
  induction 1 as [|[[[attacker atk_move] defender] def_key] rest Hv Hrest IH];
    intros st n st' n' H1 H2 H.
  - injection H as <- <-. lia.
  - apply turns_cons_inv in H.
    destruct H as (dmg & eff & missed & st1 & dha & Hcalc & Happ & H).
    destruct Hv as (Ha & Hd & Hm).
    apply (calculate_damage_nonneg _ _ _ _ _ _ _ _ _ _ _ Ha Hd Hm) in Hcalc.
    apply apply_damage_spec in Happ. destruct Happ as (_ & _ & Hhp).
    cbv zeta in H. destruct H as [(Hdha & -> & ->)|(Hdha & H)].
    + simpl. lia.
    + apply IH in H; simpl in *; lia.
Qed.

(** The inner loop stops at the first fainted defender, so it cannot bring
    both sides to 0 when both were standing. *)
Lemma turns_one_standing (rnd : Z) (order : list Slot) :
  forall st n st' n',
    0 < p1_hp st -> 0 < p2_hp st ->
    turns fetch_type rand rnd order st n = Ok (st', n') ->
    0 < p1_hp st' \/ 0 < p2_hp st'.
Proof.
  induction order as [|[[[attacker atk_move] defender] def_key] rest IH];
    intros st n st' n' H1 H2 H.
  - injection H as <- <-. auto.
  - apply turns_cons_inv in H.
    destruct H as (dmg & eff & missed & st1 & dha & _ & Happ & H).
    apply apply_damage_spec in Happ. destruct Happ as (_ & _ & Hhp).
    cbv zeta in H. destruct H as [(Hdha & -> & ->)|(Hdha & H)].
    + simpl. lia.
    + apply IH in H; [exact H| |]; simpl; lia.
Qed.

(** On ready slots the inner loop returns. *)
Lemma turns_returns (rnd : Z) (order : list Slot) :
  Forall ready_slot order ->
  forall st n, exists st' n',
    turns fetch_type rand rnd order st n = Ok (st', n').
Proof.
  induction 1 as [|[[[attacker atk_move] defender] def_key] rest Hr Hrest IH];
    intros st n.
  - exists st, n. reflexivity.
  - destruct Hr as ((Ra & _) & (Rd & Rt) & Rm).
    destruct (calculate_damage_returns fetch_type rand _ _ _ _ n Ra Rd Rm Rt)
      as (dmg & missed & Hret).
    cbn [turns]. monad_simpl. rewrite Hret.
    destruct (apply_damage def_key dmg st) as [st1 dha].
    destruct (dha <=? 0); [eauto|apply IH].
Qed.

Section Rounds.

Variables (p1 : Pokemon) (p1_move : MoveData)
          (p2 : Pokemon) (p2_move : MoveData).

Local Notation "'run_rounds'" :=
  (rounds fetch_type rand p1 p1_move p2 p2_move).
Local Notation "'order_of'" := (turn_order rand p1 p1_move p2 p2_move).

Lemma turn_order_spec (n : nat) :
  exists order n1,
    order_of n = Ok (order, n1) /\ (n1 <= n + 1)%nat /\
    (order = [ (p1, p1_move, p2, "p2"); (p2, p2_move, p1, "p1") ] \/
     order = [ (p2, p2_move, p1, "p1"); (p1, p1_move, p2, "p2") ]).
Proof.
  unfold turn_order.
  destruct (speed (stats p1) >? speed (stats p2)).
  { eexists _, n. split; [reflexivity|]. split; [lia|auto]. }
  destruct (speed (stats p2) >? speed (stats p1)).
  { eexists _, n. split; [reflexivity|]. split; [lia|auto]. }
  monad_simpl. destruct (fltb (rand n) f0_5);
    (eexists _, (S n); split; [reflexivity|]; split; [lia|auto]).
Qed.

Lemma rounds_cons_inv (rnd : Z) (rest : list Z) (st st' : BattleState)
    (n n' : nat) :
  run_rounds (rnd :: rest) st n = Ok (st', n') ->
  exists order n1 st1 n2,
    (n1 <= n + 1)%nat /\
    (order = [ (p1, p1_move, p2, "p2"); (p2, p2_move, p1, "p1") ] \/
     order = [ (p2, p2_move, p1, "p1"); (p1, p1_move, p2, "p2") ]) /\
    turns fetch_type rand rnd order st n1 = Ok (st1, n2) /\
    let st2 := record_round p1 p2 rnd st1 in
    ((p1_hp st1 <= 0 \/ p2_hp st1 <= 0) /\ st' = st2 /\ n' = n2) \/
    (0 < p1_hp st1 /\ 0 < p2_hp st1 /\ run_rounds rest st2 n2 = Ok (st', n')).
Proof.
  cbn [rounds]. monad_simpl.
  destruct (turn_order_spec n) as (order & n1 & -> & Hn1 & Horder).
  intros H.
  destruct (turns fetch_type rand rnd order st n1) as [[st1 n2]|] eqn:Et;
    [|discriminate H].
  exists order, n1, st1, n2.
  split; [exact Hn1|]. split; [exact Horder|]. split; [exact Et|].
  cbv zeta. unfold record_round at 1 2 in H. cbn [p1_hp p2_hp] in H.
  destruct (p1_hp st1 <=? 0) eqn:E1; cbn [orb] in H.
  { left. injection H as <- <-. split; [lia|auto]. }
  destruct (p2_hp st1 <=? 0) eqn:E2.
  { left. injection H as <- <-. split; [lia|auto]. }
  right. split; [lia|]. split; [lia|exact H].
Qed.

Lemma order_length (order : list Slot) :
  order = [ (p1, p1_move, p2, "p2"); (p2, p2_move, p1, "p1") ] \/
  order = [ (p2, p2_move, p1, "p1"); (p1, p1_move, p2, "p2") ] ->
  List.length order = 2%nat.
Proof. intros [-> | ->]; reflexivity. Qed.

Lemma order_valid (order : list Slot) :
  valid_pokemon p1 -> valid_pokemon p2 ->
  valid_move p1_move -> valid_move p2_move ->
  order = [ (p1, p1_move, p2, "p2"); (p2, p2_move, p1, "p1") ] \/
  order = [ (p2, p2_move, p1, "p1"); (p1, p1_move, p2, "p2") ] ->
  Forall valid_slot order.
Proof.
  intros V1 V2 M1 M2 [-> | ->];
    repeat apply Forall_cons; try apply Forall_nil; simpl; auto.
Qed.

Lemma order_ready (order : list Slot) :
  ready_pokemon p1 -> ready_pokemon p2 ->
  ready_move p1_move -> ready_move p2_move ->
  order = [ (p1, p1_move, p2, "p2"); (p2, p2_move, p1, "p1") ] \/
  order = [ (p2, p2_move, p1, "p1"); (p1, p1_move, p2, "p2") ] ->
  Forall ready_slot order.
Proof.
  intros R1 R2 M1 M2 [-> | ->];
    repeat apply Forall_cons; try apply Forall_nil; simpl; auto.
Qed.

(** On ready combatants and moves the outer loop returns. *)
Lemma rounds_returns (rnds : list Z) :
  ready_pokemon p1 -> ready_pokemon p2 ->
  ready_move p1_move -> ready_move p2_move ->
  forall st n, exists st' n', run_rounds rnds st n = Ok (st', n').
Proof.
  intros R1 R2 M1 M2.
  induction rnds as [|rnd rest IH]; intros st n.
  - exists st, n. reflexivity.
  - cbn [rounds]. monad_simpl.
    destruct (turn_order_spec n) as (order & n1 & -> & _ & Horder).
    destruct (turns_returns rnd order (order_ready order R1 R2 M1 M2 Horder)
                st n1) as (st1 & n2 & ->).
    destruct (_ || _); [eauto|apply IH].
Qed.

(** Between rounds every logged defender is standing; after the last round
    only the last event may show a fainted defender. *)
Lemma rounds_cut_short (rnds : list Z) :
  forall st n st' n',
    Forall standing (battle_log st) ->
    run_rounds rnds st n = Ok (st', n') ->
    Forall standing (removelast (battle_log st')).
Proof.
  induction rnds as [|rnd rest IH]; intros st n st' n' Hlog H.
  - injection H as <- <-. now apply Forall_removelast.
  - apply rounds_cons_inv in H.
    destruct H as (order & n1 & st1 & n2 & _ & _ & Ht & H).
    apply turns_log in Ht.
    destruct Ht as (evs & Hl & _ & _ & _ & _ & Hcut & Hall).
    cbv zeta in H. destruct H as [(_ & -> & _)|(H1 & H2 & H)].
    + cbn [battle_log record_round]. rewrite Hl.
      destruct evs as [|e evs].
      * rewrite app_nil_r. now apply Forall_removelast.
      * rewrite removelast_app by discriminate.
        apply Forall_app. split; assumption.
    + apply IH in H; [exact H|].
      cbn [battle_log record_round]. rewrite Hl.
      apply Forall_app. split; auto.
Qed.

(** Rounds, log and trace of the outer loop over [len] rounds from [k]. *)
Lemma rounds_bounds (len : nat) :
  forall k st n st' n',
    run_rounds (range_from k len) st n = Ok (st', n') ->
    exists evs samples,
      battle_log st' = battle_log st ++ evs /\
      hp_history st' = hp_history st ++ samples /\
      Forall (fun e => k <= Round e < k + Z.of_nat len) evs /\
      Forall (fun s => k <= round s < k + Z.of_nat len) samples /\
      (List.length evs <= 2 * len)%nat /\
      (List.length samples <= 2 * len)%nat /\
      (n' <= n + 3 * len)%nat.
Proof.
  induction len as [|len IH]; intros k st n st' n' H.
  - injection H as <- <-. exists [], []. rewrite !app_nil_r.
    repeat split; auto; simpl; lia.
  - cbn [range_from] in H. apply rounds_cons_inv in H.
    destruct H as (order & n1 & st1 & n2 & Hn1 & Horder & Ht & H).
    apply turns_log in Ht.
    destruct Ht as (evs & Hl & Hh & Hr & Hlen & Hn2 & _ & _).
    rewrite (order_length _ Horder) in Hlen, Hn2.
    set (new := [ {| round := k; pokemon := name p1; sample_hp := p1_hp st1 |};
                  {| round := k; pokemon := name p2; sample_hp := p2_hp st1 |} ]).
    assert (Hevs : Forall (fun e => k <= Round e < k + Z.of_nat (S len)) evs).
    { eapply Forall_impl; [|exact Hr]. simpl. intros e ->. lia. }
    assert (Hnew : Forall (fun s => k <= round s < k + Z.of_nat (S len)) new).
    { repeat constructor; simpl; lia. }
    cbv zeta in H. destruct H as [(_ & -> & ->)|(_ & _ & H)].
    + exists evs, new. cbn [battle_log hp_history record_round].
      rewrite Hl, Hh. repeat split; auto; simpl; lia.
    + apply IH in H.
      destruct H as (evs' & samples' & Hl' & Hh' & Hr' & Hs' & He' & Hc' & Hn').
      cbn [battle_log hp_history record_round] in Hl', Hh'.
      exists (evs ++ evs'), (new ++ samples').
      rewrite Hl', Hh', Hl, Hh, <- !app_assoc.
      split; [reflexivity|]. split; [reflexivity|].
      split.
      { apply Forall_app. split; [exact Hevs|].
        eapply Forall_impl; [|exact Hr']. simpl. intros e He. lia. }
      split.
      { apply Forall_app. split; [exact Hnew|].
        eapply Forall_impl; [|exact Hs']. simpl. intros e He. lia. }
      rewrite !length_app. simpl. repeat split; lia.
Qed.

(** While both sides stand, the outer loop cannot end with both at 0. *)
Lemma rounds_one_standing (rnds : list Z) :
  forall st n st' n',
    0 < p1_hp st -> 0 < p2_hp st ->
    run_rounds rnds st n = Ok (st', n') ->
    0 < p1_hp st' \/ 0 < p2_hp st'.
Proof.
  induction rnds as [|rnd rest IH]; intros st n st' n' H1 H2 H.
  - injection H as <- <-. auto.
  - apply rounds_cons_inv in H.
    destruct H as (order & n1 & st1 & n2 & _ & _ & Ht & H).
    apply turns_one_standing in Ht; try assumption.
    cbv zeta in H. destruct H as [(_ & -> & _)|(H1' & H2' & H)].
    + exact Ht.
    + apply IH in H; assumption.
Qed.

(** The HP trace grows by one row per round, and each new row is below
    all earlier ones. *)
Lemma rounds_history (len : nat) :
  valid_pokemon p1 -> valid_pokemon p2 ->
  valid_move p1_move -> valid_move p2_move ->
  forall k st n st' n' rows,
    hp_history st = history_rows (name p1) (name p2) 0 rows ->
    k = Z.of_nat (List.length rows) ->
    trace_ok rows ->
    (forall r, In r rows -> p1_hp st <= fst r /\ p2_hp st <= snd r) ->
    0 <= p1_hp st -> 0 <= p2_hp st ->
    run_rounds (range_from k len) st n = Ok (st', n') ->
    exists more,
      hp_history st' = history_rows (name p1) (name p2) 0 (rows ++ more) /\
      trace_ok (rows ++ more).
Proof.
  intros V1 V2 M1 M2.
  induction len as [|len IH]; intros k st n st' n' rows Hh Hk Hok Hle H1 H2 H.
  - injection H as <- <-. exists []. rewrite app_nil_r. auto.
  - cbn [range_from] in H. apply rounds_cons_inv in H.
    destruct H as (order & n1 & st1 & n2 & _ & Horder & Ht & H).
    assert (Hdec := turns_hp_decreasing k order
                      (order_valid order V1 V2 M1 M2 Horder) _ _ _ _ H1 H2 Ht).
    assert (Hnn := turns_hp_nonneg k order _ _ _ _ H1 H2 Ht).
    apply turns_log in Ht. destruct Ht as (_ & _ & Hhist & _).
    set (row := (p1_hp st1, p2_hp st1)).
    assert (Hrow : hp_history (record_round p1 p2 k st1) =
                   history_rows (name p1) (name p2) 0 (rows ++ [row])).
    { cbn [hp_history record_round]. rewrite Hhist, Hh, history_rows_app.
      cbn [history_rows]. rewrite Z.add_0_l, <- Hk. reflexivity. }
    assert (Hok' : trace_ok (rows ++ [row])).
    { apply trace_ok_snoc; try lia; try assumption.
      intros r Hr. apply Hle in Hr. lia. }
    cbv zeta in H. destruct H as [(_ & -> & _)|(_ & _ & H)].
    + exists [row]. auto.
    + eapply (IH _ _ _ _ _ (rows ++ [row])) in H; try assumption.
      * destruct H as (more & Hh' & Hok''). exists (row :: more).
        rewrite <- app_assoc in Hh', Hok''. auto.
      * rewrite length_app. simpl. lia.
      * cbn [p1_hp p2_hp record_round]. intros r Hr.
        apply in_app_iff in Hr. destruct Hr as [Hr|[<-|[]]].
        -- apply Hle in Hr. lia.
        -- simpl. lia.
      * cbn [p1_hp record_round]. lia.
      * cbn [p2_hp record_round]. lia.
Qed.

Local Notation "'battle'" :=
  (simulate_battle fetch_type rand p1 p1_move p2 p2_move).

Lemma simulate_battle_inv (n n' : nat) (log : list TurnEvent)
    (hist : list HpSample) (winner : string) :
  battle n = Ok (log, hist, winner, n') ->
  exists st,
    run_rounds (range 1 101) (initial_state p1 p2) n = Ok (st, n') /\
    log = battle_log st /\ hist = hp_history st /\
    winner = winner_of p1 p2 st.
Proof.
  unfold simulate_battle. monad_simpl.
  destruct (run_rounds _ _ n) as [[st n1]|]; [|discriminate].
  intros H. injection H as <- <- <- <-. exists st. auto.
Qed.

(** C4. In the log of a battle no event follows an event whose defender is
    at 0 HP: the second attacker of that round does not act, and no later
    round is played. *)
Theorem no_turn_after_faint (n n' : nat) (log : list TurnEvent)
    (hist : list HpSample) (winner : string) :
  simulate_battle fetch_type rand p1 p1_move p2 p2_move n
    = Ok (log, hist, winner, n') ->
  only_last_faints log
  /\ (forall before e after,
        log = before ++ e :: after -> Defender_HP e <= 0 ->
        ~ exists e', In e' after /\ Round e' = Round e).
Proof.
  intros H. apply simulate_battle_inv in H.
  destruct H as (st & H & -> & _ & _).
  apply rounds_cut_short in H; [|constructor].
  apply removelast_only_last in H. split; [exact H|].
  intros before e after Hlog He (e' & Hin & _).
  rewrite (H before e after Hlog He) in Hin. destruct Hin.
Qed.

(** C5. The HP trace of a battle between valid combatants lists, round by
    round from round 0, one HP value per side; each side's values start at
    its hp stat, never increase and are never negative. *)
Theorem hp_history_monotone (n n' : nat) (log : list TurnEvent)
    (hist : list HpSample) (winner : string) :
  valid_pokemon p1 -> valid_pokemon p2 ->
  valid_move p1_move -> valid_move p2_move ->
  simulate_battle fetch_type rand p1 p1_move p2 p2_move n
    = Ok (log, hist, winner, n') ->
  exists rows,
    hist = history_rows (name p1) (name p2) 0
             ((hp (stats p1), hp (stats p2)) :: rows) /\
    non_increasing (hp (stats p1) :: map fst rows) /\
    non_increasing (hp (stats p2) :: map snd rows) /\
    Forall (fun h => 0 <= h) (hp (stats p1) :: map fst rows) /\
    Forall (fun h => 0 <= h) (hp (stats p2) :: map snd rows).
Proof.
  intros V1 V2 M1 M2 H. apply simulate_battle_inv in H.
  destruct H as (st & H & _ & -> & _).
  assert (Hhp1 : 0 <= hp (stats p1)) by apply V1.
  assert (Hhp2 : 0 <= hp (stats p2)) by apply V2.
  eapply (rounds_history _ V1 V2 M1 M2 _ _ _ _ _
            [(hp (stats p1), hp (stats p2))]) in H; try assumption.
  - destruct H as (more & Hh & (Hm1 & Hm2 & Hnn)). exists more.
    cbn [app map fst snd] in *. repeat split; try assumption.
    + apply Forall_forall. intros h Hin.
      change (In h (map fst ((hp (stats p1), hp (stats p2)) :: more))) in Hin.
      apply in_map_iff in Hin. destruct Hin as (r & <- & Hr).
      rewrite Forall_forall in Hnn. now apply Hnn.
    + apply Forall_forall. intros h Hin.
      change (In h (map snd ((hp (stats p1), hp (stats p2)) :: more))) in Hin.
      apply in_map_iff in Hin. destruct Hin as (r & <- & Hr).
      rewrite Forall_forall in Hnn. now apply Hnn.
  - reflexivity.
  - reflexivity.
  - repeat split.
    + intros i j x y Hij Hi Hj.
      destruct i as [|[|i]], j as [|[|j]]; simpl in Hi, Hj;
        try discriminate; try lia. injection Hi as <-. injection Hj as <-. lia.
    + intros i j x y Hij Hi Hj.
      destruct i as [|[|i]], j as [|[|j]]; simpl in Hi, Hj;
        try discriminate; try lia. injection Hi as <-. injection Hj as <-. lia.
    + repeat constructor; assumption.
  - intros r [<-|[]]. simpl. lia.
Qed.

(** C6. [simulate_battle] runs its loop over the 100 values of
    [range(1, 101)], so it always terminates: the embedding is a total
    function that either raises or returns, and on ready combatants and
    moves it returns. A returned battle has at most 100 rounds: the trace
    has at most 2 + 2 * 100 samples, the log at most 2 * 100 events, every
    logged round number lies in 1..100 and every traced one in 0..100, and
    at most 300 random values were drawn. *)
Theorem battle_within_100_rounds (n : nat) :
  (ready_pokemon p1 -> ready_pokemon p2 ->
   ready_move p1_move -> ready_move p2_move ->
   exists log hist winner n',
     simulate_battle fetch_type rand p1 p1_move p2 p2_move n
       = Ok (log, hist, winner, n'))
  /\ (forall log hist winner n',
        simulate_battle fetch_type rand p1 p1_move p2 p2_move n
          = Ok (log, hist, winner, n') ->
        Forall (fun e => 1 <= Round e <= 100) log /\
        Forall (fun s => 0 <= round s <= 100) hist /\
        (List.length hist <= 2 + 2 * 100)%nat /\
        (List.length log <= 2 * 100)%nat /\
        (n' <= n + 3 * 100)%nat).
Proof.
  split.
  - intros R1 R2 M1 M2. unfold simulate_battle. monad_simpl.
    destruct (rounds_returns (range 1 101) R1 R2 M1 M2 (initial_state p1 p2) n)
      as (st & n' & ->).
    eauto.
  - intros log hist winner n' H.
    apply simulate_battle_inv in H. destruct H as (st & H & -> & -> & _).
    apply (rounds_bounds 100 1) in H.
    destruct H as (evs & samples & -> & -> & He & Hs & Hle & Hls & Hn).
    cbn [battle_log hp_history initial_state app].
    split; [eapply Forall_impl; [|exact He]; simpl; intros; lia|].
    split.
    { repeat (constructor; [simpl; lia|]).
      eapply Forall_impl; [|exact Hs]. simpl; intros; lia. }
    cbn [List.length]. repeat split; lia.
Qed.

(** C9, as amended. When both combatants start with a positive HP, the two
    HP values are never both 0 at the end, so the winner is never the
    simultaneous-KO message: it is a titled name or the 100-round message. *)
Theorem no_simultaneous_ko (n n' : nat) (log : list TurnEvent)
    (hist : list HpSample) (winner : string) :
  0 < hp (stats p1) -> 0 < hp (stats p2) ->
  simulate_battle fetch_type rand p1 p1_move p2 p2_move n
    = Ok (log, hist, winner, n') ->
  winner <> "It's a draw!"
  /\ (winner = title (name p1) \/ winner = title (name p2) \/
      winner = "Draw — 100-round limit reached!").
Proof.
  intros H1 H2 H. apply simulate_battle_inv in H.
  destruct H as (st & H & _ & _ & ->).
  apply rounds_one_standing in H; [|assumption..].
  unfold winner_of.
  destruct (p1_hp st <=? 0) eqn:E1, (p2_hp st <=? 0) eqn:E2; cbn [andb].
  - exfalso. lia.
  - split; [apply title_not_draw|auto].
  - split; [apply title_not_draw|auto].
  - split; [discriminate|auto].
Qed.

End Rounds.

End BattleFacts.

(** ** Move filter: what is offered *)

Lemma subseq_refl {A : Type} (l : list A) : subseq l l.
Proof. induction l; constructor; assumption. Qed.

Lemma subseq_filter {A : Type} (f : A -> bool) (l : list A) :
  subseq (filter f l) l.
Proof.
  induction l as [|x l IH]; cbn [filter]; [constructor|].
  destruct (f x); [apply subseq_take|apply subseq_skip]; exact IH.
Qed.

Lemma subseq_firstn {A : Type} (l : list A) :
  forall k, subseq (firstn k l) l.
Proof.
  assert (Hnil : forall l' : list A, subseq [] l')
    by (induction l'; constructor; assumption).
  induction l as [|x l IH]; intros [|k]; cbn [firstn]; try apply Hnil.
  apply subseq_take, IH.
Qed.

Lemma subseq_trans {A : Type} (l1 l2 l3 : list A) :
  subseq l1 l2 -> subseq l2 l3 -> subseq l1 l3.
Proof.
  intros H12 H23. revert l1 H12.
  induction H23 as [|x l2 l3 H IH|x l2 l3 H IH]; intros l1 H12.
  - exact H12.
  - apply subseq_skip. now apply IH.
  - inversion H12 as [|y l1' l2' H'|y l1' l2' H']; subst.
    + apply subseq_skip. now apply IH.
    + apply subseq_take. now apply IH.
Qed.

Lemma subseq_In {A : Type} (l1 l2 : list A) (x : A) :
  subseq l1 l2 -> In x l1 -> In x l2.
Proof.
  induction 1 as [|y l1 l2 H IH|y l1 l2 H IH]; simpl; intuition.
Qed.

Lemma subseq_NoDup {A : Type} (l1 l2 : list A) :
  subseq l1 l2 -> NoDup l2 -> NoDup l1.
Proof.
  induction 1 as [|y l1 l2 H IH|y l1 l2 H IH]; intros Hnd; trivial;
    inversion Hnd as [|? ? Hnot Hnd']; subst; auto.
  constructor; auto. intros Hin. apply Hnot. eapply subseq_In; eassumption.
Qed.

Lemma float_of_int_raises (z : Z) (e : exn) :
  float_of_int z = Raise e -> e = OverflowError.
Proof.
  unfold float_of_int. cbv zeta. destruct (is_infinity _); intros H;
    [now injection H as <-|discriminate H].
Qed.

Lemma int_truediv_raises (a b : Z) (e : exn) :
  int_truediv a b = Raise e ->
  (b = 0 /\ e = ZeroDivisionError) \/ (b <> 0 /\ e = OverflowError).
Proof.
  unfold int_truediv.
  destruct b as [|b|b]; [intros H; injection H as <-; auto| |]; cbv zeta;
    destruct (is_infinity _); intros H; try discriminate H;
    injection H as <-; right; (split; [discriminate|reflexivity]).
Qed.

Lemma int_of_float_raises (x : float) (e : exn) :
  int_of_float x = Raise e -> e = OverflowError \/ e = ValueError.
Proof.
  destruct x; cbn [int_of_float]; intros H; try discriminate H;
    injection H as <-; auto.
Qed.

(** What the base value of a hit can raise, and when. *)
Lemma hit_base_raises (power : option Z) (atk dfn : Z) (e : exn) :
  hit_base power atk dfn = Raise e ->
  (power = None /\ e = TypeError) \/
  (power <> None /\ dfn = 0 /\ e = ZeroDivisionError) \/
  e = OverflowError.
Proof.
  unfold hit_base, fadd_int, fmul_int, fdiv_int.
  change (int_truediv (2 * LEVEL) 5)
    with (Ok (S754_finite false 5629499534213120 (-48))).
  change (float_of_int 2) with (Ok f2_0).
  change (float_of_int 50)
    with (Ok (S754_finite false 7036874417766400 (-47))).
  monad_simpl.
  destruct power as [p|]; [|intros H; injection H as <-; auto].
  destruct (float_of_int p) as [pw|e1] eqn:Ep; monad_simpl.
  - destruct (int_truediv atk dfn) as [q|e2] eqn:Eq; monad_simpl.
    + unfold fdiv. cbn [is_zero]. discriminate.
    + intros H. injection H as <-. apply int_truediv_raises in Eq.
      destruct Eq as [[-> ->]|[_ ->]]; auto.
      right. left. split; [discriminate|auto].
  - intros H. injection H as <-. apply float_of_int_raises in Ep. auto.
Qed.

Lemma hit_damage_raises (power : option Z) (atk dfn : Z) (eff : float)
    (e : exn) :
  hit_damage power atk dfn eff = Raise e ->
  (power = None /\ e = TypeError) \/
  (power <> None /\ dfn = 0 /\ e = ZeroDivisionError) \/
  e = OverflowError \/ e = ValueError.
Proof.
  rewrite hit_damage_eq. monad_simpl.
  destruct (hit_base power atk dfn) as [x|e1] eqn:Eb.
  - intros H. apply int_of_float_raises in H. tauto.
  - intros H. injection H as <-. apply hit_base_raises in Eb. tauto.
Qed.

Section MoveFilterOffer.

Variable fetch_move : string -> option MoveData.

Lemma get_damaging_moves_filter (move_names : list string) :
  get_damaging_moves fetch_move move_names =
  filter (damaging_move fetch_move) (firstn 50 move_names).
Proof.
  unfold get_damaging_moves, get_damaging_moves_traced.
  rewrite get_damaging_moves_loop_spec by lia. reflexivity.
Qed.

(** X1. Every move name that [get_damaging_moves] returns is one of the
    first 50 names given, and the catalog has a record for it whose power
    is present and positive; so with that record [calculate_damage] never
    raises [TypeError], whatever the combatants and the draw. *)
Theorem offered_moves_have_power (move_names : list string) (name : string) :
  In name (get_damaging_moves fetch_move move_names) ->
  In name (firstn 50 move_names)
  /\ exists md p,
       fetch_move name = Some md /\ power md = Some p /\ 0 < p
       /\ valid_move md
       /\ forall fetch_type rand a d ts n,
            calculate_damage fetch_type rand a d ts md n <> Raise TypeError.
Proof.
  rewrite get_damaging_moves_filter. intros Hin.
  apply filter_In in Hin. destruct Hin as [Hin Hd]. split; [exact Hin|].
  unfold damaging_move in Hd.
  destruct (fetch_move name) as [md|]; [|discriminate Hd].
  destruct (power md) as [p|] eqn:Ep; [|discriminate Hd].
  exists md, p. split; [reflexivity|]. split; [exact Ep|]. split; [lia|].
  split.
  { intros q Hq. rewrite Ep in Hq. injection Hq as <-. lia. }
  intros fetch_type rand a d ts n. rewrite calculate_damage_eq.
  destruct (int_truediv (accuracy_used md) 100) as [th|e0] eqn:Eth.
  - destruct (fltb (rand n) th); [|discriminate].
    destruct (hit_damage _ _ _ _) as [dmg|e1] eqn:Eh; [discriminate|].
    apply hit_damage_raises in Eh. rewrite Ep in Eh.
    destruct Eh as [[Hn _]|[(_ & _ & ->)|[->| ->]]]; discriminate.
  - apply int_truediv_raises in Eth.
    destruct Eth as [[H0 _]|[_ ->]]; [discriminate H0|discriminate].
Qed.

(** X2. [get_damaging_moves] only removes names: its result is the given
    list with some entries removed, in the same order; it has at most 50
    entries and repeats a name only if the given list does. It is empty
    exactly when none of the first 50 names is a damaging move, and in
    particular on the empty list. *)
Theorem damaging_moves_subsequence (move_names : list string) :
  subseq (get_damaging_moves fetch_move move_names) move_names
  /\ (List.length (get_damaging_moves fetch_move move_names) <= 50)%nat
  /\ (NoDup move_names -> NoDup (get_damaging_moves fetch_move move_names))
  /\ (get_damaging_moves fetch_move move_names = [] <->
      forall name, In name (firstn 50 move_names) ->
                   damaging_move fetch_move name = false)
  /\ get_damaging_moves fetch_move [] = [].
Proof.
  rewrite get_damaging_moves_filter.
  assert (Hsub : subseq (filter (damaging_move fetch_move)
                           (firstn 50 move_names)) move_names).
  { eapply subseq_trans; [apply subseq_filter|apply subseq_firstn]. }
  split; [exact Hsub|]. split; [|split; [|split]].
  - eapply Nat.le_trans; [apply filter_length_le|].
    rewrite length_firstn. lia.
  - now apply subseq_NoDup.
  - split.
    + intros Hnil name Hin.
      destruct (damaging_move fetch_move name) eqn:Ed; [|reflexivity].
      assert (Hf : In name (filter (damaging_move fetch_move)
                              (firstn 50 move_names)))
        by (apply filter_In; auto).
      rewrite Hnil in Hf. destruct Hf.
    + intros Hall.
      destruct (filter _ _) as [|x l] eqn:Ef; [reflexivity|].
      assert (Hx : In x (filter (damaging_move fetch_move)
                           (firstn 50 move_names)))
        by (rewrite Ef; simpl; auto).
      apply filter_In in Hx. destruct Hx as [Hin Hd].
      rewrite (Hall x Hin) in Hd. discriminate Hd.
  - reflexivity.
Qed.

End MoveFilterOffer.

(** ** Type effectiveness: defender with two types *)

Section TypeEdges.

Variable fetch_type : string -> option TypeData.

(** X3. The order of the defender's types does not matter: a defender
    with types [t1; t2] and one with [t2; t1] get the same multiplier. *)
Theorem type_order_irrelevant (move_type t1 t2 : string) :
  get_type_effectiveness fetch_type move_type [t1; t2] =
  get_type_effectiveness fetch_type move_type [t2; t1].
Proof.
  destruct (fetch_type move_type) as [dr|] eqn:Hf.
  - destruct (effectiveness_two_types fetch_type dr move_type t1 t2 Hf)
      as [-> _].
    destruct (effectiveness_two_types fetch_type dr move_type t2 t1 Hf)
      as [-> _].
    destruct (effectiveness_one_type fetch_type dr move_type t1 Hf)
      as [_ H1].
    destruct (effectiveness_one_type fetch_type dr move_type t2 Hf)
      as [_ H2].
    simpl in H1, H2.
    destruct H1 as [<-|[<-|[<-|[<-|[]]]]], H2 as [<-|[<-|[<-|[<-|[]]]]];
      reflexivity.
  - unfold get_type_effectiveness. rewrite Hf. reflexivity.
Qed.

(** X4. Immunity dominates: when the defender has at most two types and
    the attacking type's record gives one of them the factor 0, the
    multiplier is 0, whatever the other type. When the record lists none of
    the defender's types, or the defender has no type, it is 1. *)
Theorem immunity_dominates (move_type : string) (dr : TypeData)
    (defender_types : list string) :
  fetch_type move_type = Some dr ->
  ((List.length defender_types <= 2)%nat ->
   (exists t, In t defender_types /\ type_factor dr t = Some f0_0) ->
   get_type_effectiveness fetch_type move_type defender_types = f0_0)
  /\ ((forall t, In t defender_types -> type_factor dr t = None) ->
      get_type_effectiveness fetch_type move_type defender_types = f1_0).
Proof.
  intros Hf. split.
  - intros Hlen (t & Hin & Ht).
    destruct defender_types as [|t1 [|t2 [|t3 ts]]]; simpl in Hlen; try lia.
    + destruct Hin.
    + destruct Hin as [->|[]].
      destruct (effectiveness_one_type fetch_type dr move_type t Hf)
        as [-> _].
      unfold factor_value. now rewrite Ht.
    + destruct (effectiveness_two_types fetch_type dr move_type t1 t2 Hf)
        as [-> _].
      destruct (effectiveness_one_type fetch_type dr move_type t1 Hf)
        as [_ H1].
      destruct (effectiveness_one_type fetch_type dr move_type t2 Hf)
        as [_ H2].
      assert (H0 : factor_value dr t1 = f0_0 \/ factor_value dr t2 = f0_0).
      { unfold factor_value.
        destruct Hin as [->|[->|[]]]; rewrite Ht; auto. }
      simpl in H1, H2.
      destruct H0 as [H0|H0]; rewrite H0 in *;
        [destruct H2 as [<-|[<-|[<-|[<-|[]]]]]
        |destruct H1 as [<-|[<-|[<-|[<-|[]]]]]]; reflexivity.
  - intros Hnone. unfold get_type_effectiveness. rewrite Hf.
    generalize f1_0 as acc.
    induction defender_types as [|t ts IH]; intros acc; [reflexivity|].
    cbn [fold_left].
    assert (Ht := Hnone t (or_introl eq_refl)). unfold type_factor in Ht.
    destruct (str_in t (double_damage_to dr)); [discriminate Ht|].
    destruct (str_in t (half_damage_to dr)); [discriminate Ht|].
    destruct (str_in t (no_damage_to dr)); [discriminate Ht|].
    apply IH. intros t' Hin. apply Hnone. now right.
Qed.

(** X5. The label of every multiplier that at most two defending types
    can produce: 0 "No effect!", 0.25 "It's barely effective…", 0.5 "It's
    not very effective…", 1 no label, 2 "It's super effective!", 4 "It's
    ultra effective!". *)
Theorem effectiveness_label_table (move_type : string)
    (defender_types : list string) :
  (List.length defender_types <= 2)%nat ->
  let eff := get_type_effectiveness fetch_type move_type defender_types in
  (eff = f0_0 /\ effectiveness_label eff = "No effect!")
  \/ (eff = f0_25 /\ effectiveness_label eff = "It's barely effective…")
  \/ (eff = f0_5 /\ effectiveness_label eff = "It's not very effective…")
  \/ (eff = f1_0 /\ effectiveness_label eff = "")
  \/ (eff = f2_0 /\ effectiveness_label eff = "It's super effective!")
  \/ (eff = f4_0 /\ effectiveness_label eff = "It's ultra effective!").
Proof.
  intros Hlen eff.
  assert (Hin := effectiveness_in_values fetch_type move_type defender_types
                   Hlen).
  fold eff in Hin. unfold effectiveness_values in Hin. simpl in Hin.
  destruct Hin as [<-|[<-|[<-|[<-|[<-|[<-|[]]]]]]]; auto 10.
Qed.

End TypeEdges.

(** ** Lower bounds of float results *)

Lemma Zdigits2_lower (z j : Z) : 2 ^ j <= z -> 0 <= z -> j < Zdigits2 z.
Proof.
  intros Hj Hz. assert (Hu := Zdigits2_upper z Hz).
  destruct (Z.lt_ge_cases j (Zdigits2 z)) as [H|H]; [exact H|]. exfalso.
  assert (2 ^ Zdigits2 z <= 2 ^ j) by (apply Z.pow_le_mono_r; lia). lia.
Qed.

Lemma digits_lower (m : positive) : 2 ^ (Z.pos (digits2_pos m) - 1) <= Z.pos m.
Proof. apply digits2_pos_bounds. Qed.

(** The shift by [fexp] keeps the leading bit of a mantissa that is not in
    the underflow range. *)
Lemma shr_fexp_lower (m e : Z) (l : location) (mrs' : shr_record) (e' : Z) :
  0 < m -> -1074 < Zdigits2 m + e ->
  shr_fexp prec emax m e l = (mrs', e') ->
  0 < shr_m mrs' /\ Zdigits2 m + e <= Zdigits2 (shr_m mrs') + e'.
Proof.
  intros Hm Hlo. unfold shr_fexp, shr. rewrite fexp_eq.
  assert (Hb : 2 ^ (Zdigits2 m - 1) <= m).
  { destruct m as [|p|p]; try lia. apply digits_lower. }
  assert (Hd : 0 < Zdigits2 m) by (destruct m; simpl; lia).
  set (d := Zdigits2 m) in *.
  destruct (Z.max (d + e - 53) (-1074) - e) as [|n|n] eqn:En;
    intros H; injection H as <- <-; rewrite ?shr_m_of_loc; try (split; lia).
  rewrite iter_shr_1_m by (rewrite shr_m_of_loc; lia).
  rewrite shr_m_of_loc.
  assert (Hq : 2 ^ (d - 1 - Z.pos n) <= m / 2 ^ Z.pos n).
  { apply Z.div_le_lower_bound; [lia|].
    rewrite <- Z.pow_add_r by lia.
    replace (Z.pos n + (d - 1 - Z.pos n)) with (d - 1) by lia. exact Hb. }
  assert (Hp : 0 < 2 ^ (d - 1 - Z.pos n)) by (apply Z.pow_pos_nonneg; lia).
  split; [lia|].
  assert (d - 1 - Z.pos n < Zdigits2 (m / 2 ^ Z.pos n))
    by (apply Zdigits2_lower; lia).
  lia.
Qed.

Lemma binary_round_aux_lower (s : bool) (mx ex : Z) (lx : location) (k : Z) :
  0 < mx -> k < Zdigits2 mx + ex -> -1074 <= k ->
  at_least_pow2 k (binary_round_aux prec emax s mx ex lx).
Proof.
  intros Hm Hk Hlo. unfold binary_round_aux.
  destruct (shr_fexp prec emax mx ex lx) as [mrs' e'] eqn:E1.
  apply shr_fexp_lower in E1; try lia. destruct E1 as [P1 D1].
  set (m1 := round_nearest_even (shr_m mrs') (loc_of_shr_record mrs')).
  assert (Hm1 := round_nearest_even_bounds (shr_m mrs') (loc_of_shr_record mrs')).
  fold m1 in Hm1.
  assert (Hmono := Zdigits2_mono (shr_m mrs') m1 ltac:(lia)).
  destruct (shr_fexp prec emax m1 e' loc_Exact) as [mrs'' e''] eqn:E2.
  apply shr_fexp_lower in E2; try lia. destruct E2 as [P2 D2].
  destruct (shr_m mrs'') as [|m|m] eqn:Em; try lia.
  destruct (e'' <=? emax - prec); cbn [at_least_pow2]; [|exact I].
  change (Z.pos (digits2_pos m)) with (Zdigits2 (Z.pos m)). lia.
Qed.

Lemma shl_align_lower (m : positive) (e e' : Z) (m' : positive) (e'' : Z) :
  shl_align m e e' = (m', e'') ->
  Z.pos (digits2_pos m) + e <= Z.pos (digits2_pos m') + e''.
Proof.
  unfold shl_align. destruct (e' - e) as [|d|d] eqn:Ed;
    intros H; injection H as <- <-; try lia.
  assert (Z.pos (digits2_pos m) - 1 + Z.pos d
          < Zdigits2 (Z.pos (Pos.iter xO m d))); [|cbn [Zdigits2] in *; lia].
  apply Zdigits2_lower; [|lia].
  rewrite iter_xO_value, Z.pow_add_r by lia.
  apply Z.mul_le_mono_nonneg_r; [lia|apply digits_lower].
Qed.

Lemma binary_round_lower (s : bool) (m : positive) (e k : Z) :
  k < Z.pos (digits2_pos m) + e -> -1074 <= k ->
  at_least_pow2 k (binary_round prec emax s m e).
Proof.
  intros Hk Hlo. unfold binary_round.
  destruct (shl_align m e _) as [mz ez] eqn:Es.
  apply shl_align_lower in Es.
  apply binary_round_aux_lower; cbn [Zdigits2]; lia.
Qed.

Lemma digits_mul_lower (a b : positive) :
  Z.pos (digits2_pos a) + Z.pos (digits2_pos b) - 1
  <= Z.pos (digits2_pos (a * b)).
Proof.
  assert (Z.pos (digits2_pos a) + Z.pos (digits2_pos b) - 2
          < Zdigits2 (Z.pos (a * b))); [|cbn [Zdigits2] in *; lia].
  apply Zdigits2_lower; [|lia].
  replace (Z.pos (digits2_pos a) + Z.pos (digits2_pos b) - 2)
    with ((Z.pos (digits2_pos a) - 1) + (Z.pos (digits2_pos b) - 1)) by lia.
  rewrite Z.pow_add_r, Pos2Z.inj_mul by lia.
  assert (Ha := digits_lower a). assert (Hb := digits_lower b).
  assert (0 < 2 ^ (Z.pos (digits2_pos a) - 1)) by (apply Z.pow_pos_nonneg; lia).
  assert (0 < 2 ^ (Z.pos (digits2_pos b) - 1)) by (apply Z.pow_pos_nonneg; lia).
  apply Z.mul_le_mono_nonneg; lia.
Qed.

(** A product of floats of at least 2^kx and 2^ky is at least 2^(kx+ky). *)
Lemma fmul_lower (kx ky : Z) (x y : float) :
  at_least_pow2 kx x -> at_least_pow2 ky y -> -1074 <= kx + ky ->
  at_least_pow2 (kx + ky) (fmul x y).
Proof.
  intros Hx Hy Hlo.
  destruct x as [sx|sx| |sx mx ex], y as [sy|sy| |sy my ey];
    cbn [at_least_pow2] in Hx, Hy; try contradiction;
    cbn [fmul SFmul at_least_pow2]; trivial.
  assert (Hd := digits_mul_lower mx my).
  apply binary_round_aux_lower; cbn [Zdigits2]; lia.
Qed.

Lemma shl_align_snd (m : positive) (e e' : Z) :
  e' <= e -> snd (shl_align m e e') = e'.
Proof.
  intros Hle. unfold shl_align. destruct (e' - e) eqn:Ed; cbn [snd]; lia.
Qed.

(** Adding a non-negative float to one of at least 2^k leaves at least
    2^k. *)
Lemma fadd_lower (k : Z) (x y : float) :
  nonneg_sign x -> nonneg_sign y -> at_least_pow2 k y -> -1074 <= k ->
  at_least_pow2 k (fadd x y).
Proof.
  intros Sx Sy Hy Hlo.
  destruct x as [sx|sx| |sx mx ex], y as [sy|sy| |sy my ey];
    cbn [at_least_pow2 nonneg_sign] in Hy, Sx, Sy; try contradiction; subst;
    cbn [fadd SFadd at_least_pow2 Bool.eqb]; trivial.
  cbn [cond_Zopp].
  set (ez := Z.min ex ey).
  destruct (shl_align my ey ez) as [b eb] eqn:Eb.
  assert (Hsnd := shl_align_snd my ey ez ltac:(lia)). rewrite Eb in Hsnd.
  cbn [snd] in Hsnd. subst eb.
  apply shl_align_lower in Eb. cbn [fst].
  set (a := fst (shl_align mx ex ez)).
  change (Z.pos a + Z.pos b) with (Z.pos (a + b)). cbn [binary_normalize].
  assert (Hmono : Zdigits2 (Z.pos b) <= Zdigits2 (Z.pos (a + b)))
    by (apply Zdigits2_mono; lia).
  cbn [Zdigits2] in Hmono.
  apply binary_round_lower; lia.
Qed.

(** Truncating a non-negative float of at least 2^k gives at least 2^k. *)
Lemma int_of_float_lower (k : Z) (x : float) (n : Z) :
  0 <= k -> nonneg_sign x -> at_least_pow2 k x ->
  int_of_float x = Ok n -> 2 ^ k <= n.
Proof.
  intros Hk Sx Hx.
  destruct x as [sx|sx| |sx m e]; cbn [at_least_pow2 nonneg_sign] in *;
    try contradiction; cbn [int_of_float]; try discriminate.
  subst sx. intros H. injection H as <-.
  assert (Hb := digits_lower m).
  set (d := Z.pos (digits2_pos m)) in *.
  destruct e as [|p|p].
  - rewrite Z.shiftl_0_r.
    assert (2 ^ k <= 2 ^ (d - 1)) by (apply Z.pow_le_mono_r; lia). lia.
  - rewrite Z.shiftl_mul_pow2 by lia.
    assert (2 ^ k <= 2 ^ (d - 1 + Z.pos p)) by (apply Z.pow_le_mono_r; lia).
    rewrite Z.pow_add_r in H by lia.
    assert (0 < 2 ^ Z.pos p) by (apply Z.pow_pos_nonneg; lia). nia.
  - rewrite Z.shiftr_div_pow2 by lia.
    assert (2 ^ k <= 2 ^ (d - 1 - Z.pos p)) by (apply Z.pow_le_mono_r; lia).
    assert (2 ^ (d - 1 - Z.pos p) <= Z.pos m / 2 ^ Z.pos p); [|lia].
    apply Z.div_le_lower_bound; [apply Z.pow_pos_nonneg; lia|].
    rewrite <- Z.pow_add_r by lia.
    replace (Z.pos p + (d - 1 - Z.pos p)) with (d - 1) by lia. exact Hb.
Qed.

(** ** Rounding error of the float operations

    Each binary64 operation returns its exact result rounded; outside the
    underflow range the rounded value is within a relative error of
    [rnd_err] (of [div_err], for a quotient) of the exact one. *)

(** The shift by [fexp] divides the mantissa by a power of two. *)
Lemma shr_fexp_value (m e : Z) (l : location) (mrs' : shr_record) (e' : Z) :
  0 <= m ->
  shr_fexp prec emax m e l = (mrs', e') ->
  e <= e' /\ e' = Z.max e (fexp prec emax (Zdigits2 m + e)) /\
  shr_m mrs' = m / 2 ^ (e' - e) /\
  (e' = e -> mrs' = shr_record_of_loc m l).
Proof.
  intros Hm. unfold shr_fexp, shr.
  destruct (fexp prec emax (Zdigits2 m + e) - e) as [|n|n] eqn:En;
    intros H; injection H as <- <-.
  - rewrite Z.sub_diag, shr_m_of_loc, Z.div_1_r. repeat split; lia.
  - rewrite iter_shr_1_m by (now rewrite shr_m_of_loc).
    rewrite shr_m_of_loc.
    replace (e + Z.pos n - e) with (Z.pos n) by lia. repeat split; lia.
  - rewrite Z.sub_diag, shr_m_of_loc, Z.div_1_r. repeat split; lia.
Qed.

Lemma rne_exact (m : Z) :
  round_nearest_even (shr_m (shr_record_of_loc m loc_Exact))
    (loc_of_shr_record (shr_record_of_loc m loc_Exact)) = m.
Proof. reflexivity. Qed.

Lemma pow2_pos (n : Z) : 0 <= n -> 0 < 2 ^ n.
Proof. intros. apply Z.pow_pos_nonneg; lia. Qed.

Lemma div_pow2_bounds (m n : Z) :
  0 <= m -> 0 <= n ->
  m / 2 ^ n * 2 ^ n <= m < (m / 2 ^ n + 1) * 2 ^ n.
Proof.
  intros Hm Hn. assert (Hp := pow2_pos n Hn).
  assert (H := Z.div_mod m (2 ^ n) ltac:(lia)).
  assert (H' := Z.mod_pos_bound m (2 ^ n) Hp). nia.
Qed.

(** The result of rounding, in units of the input exponent, is within
    3 / 2^52 of the input mantissa. *)
Lemma binary_round_aux_error (s s' : bool) (mx ex : Z) (lx : location)
    (m : positive) (e : Z) :
  0 < mx -> -1074 <= Zdigits2 mx + ex - 53 ->
  lx = loc_Exact \/ 2 ^ 52 <= mx ->
  binary_round_aux prec emax s mx ex lx = S754_finite s' m e ->
  ex <= e /\ 2 ^ 52 * Z.abs (Z.pos m * 2 ^ (e - ex) - mx) <= 3 * mx.
Proof.
  intros Hm Hnorm Hloc. unfold binary_round_aux.
  destruct (shr_fexp prec emax mx ex lx) as [mrs' e'] eqn:E1.
  assert (S1 := shr_fexp_spec mx ex lx mrs' e' ltac:(lia) E1).
  apply shr_fexp_value in E1; [|lia].
  destruct E1 as (Hle1 & He' & Hm' & Hsame). destruct S1 as (P0 & P53 & _).
  rewrite fexp_eq in He'.
  set (m1 := round_nearest_even (shr_m mrs') (loc_of_shr_record mrs')).
  assert (Hm1 := round_nearest_even_bounds (shr_m mrs')
                  (loc_of_shr_record mrs')).
  fold m1 in Hm1.
  destruct (shr_fexp prec emax m1 e' loc_Exact) as [mrs'' e''] eqn:E2.
  apply shr_fexp_value in E2; [|lia].
  destruct E2 as (Hle2 & He'' & Hm'' & _). rewrite fexp_eq in He''.
  assert (Hd1 : Zdigits2 m1 <= 54).
  { apply Zdigits2_le; [lia|]. split; [lia|].
    change (2 ^ 54) with (2 * 2 ^ 53). lia. }
  assert (Hdx := Zdigits2_upper mx ltac:(lia)).
  assert (Hdl : 2 ^ (Zdigits2 mx - 1) <= mx).
  { destruct mx as [|p|p]; try lia. apply digits_lower. }
  assert (Hdpos : 0 < Zdigits2 mx) by (destruct mx; simpl; lia).
  set (d := Zdigits2 mx) in *.
  set (n1 := e' - ex) in *. set (n2 := e'' - e') in *.
  assert (Hb1 := div_pow2_bounds mx n1 ltac:(lia) ltac:(lia)).
  rewrite <- Hm' in Hb1.
  assert (Hb2 := div_pow2_bounds m1 n2 ltac:(lia) ltac:(lia)).
  rewrite <- Hm'' in Hb2.
  destruct (shr_m mrs'') as [|mm|mm] eqn:Em; try discriminate.
  destruct (e'' <=? emax - prec); [|discriminate].
  intros H. injection H as _ <- <-.
  split; [lia|].
  replace (e'' - ex) with (n1 + n2) by lia.
  rewrite Z.pow_add_r by lia.
  assert (Hp1 := pow2_pos n1 ltac:(lia)).
  assert (Hp2 := pow2_pos n2 ltac:(lia)).
  destruct (Z.eq_dec n1 0) as [Hz|Hnz].
  - (* no first shift *)
    rewrite Hz in *. change (2 ^ 0) with 1 in *.
    assert (Hd53 : d <= 53) by lia.
    assert (Hmeq : shr_m mrs' = mx) by lia.
    destruct Hloc as [-> | Hbig].
    + assert (Hm1eq : m1 = mx).
      { unfold m1. rewrite (Hsame ltac:(lia)). apply rne_exact. }
      assert (n2 = 0) by (rewrite Hm1eq in He''; fold d in He''; lia).
      replace n2 with 0 in * by lia. change (2 ^ 0) with 1 in *. lia.
    + assert (Hn2 : n2 <= 1) by lia.
      assert (2 ^ n2 <= 2).
      { change 2 with (2 ^ 1) at 2. apply Z.pow_le_mono_r; lia. }
      nia.
  - assert (Hn1 : n1 = d - 53) by lia.
    assert (Hbig : 2 ^ 52 * 2 ^ n1 <= mx).
    { rewrite <- Z.pow_add_r by lia. replace (52 + n1) with (d - 1) by lia.
      exact Hdl. }
    assert (Hd1' : 53 <= Zdigits2 m1).
    { assert (52 < Zdigits2 m1); [|lia]. apply Zdigits2_lower; [|lia].
      assert (2 ^ 52 <= shr_m mrs'); [|lia].
      rewrite Hm'. apply Z.div_le_lower_bound; [lia|]. lia. }
    assert (Hn2 : n2 <= 1) by lia.
    assert (2 ^ n2 <= 2).
    { change 2 with (2 ^ 1) at 2. apply Z.pow_le_mono_r; lia. }
    nia.
Qed.

Lemma Qpow2_pos (e : Z) : (0 < 2 ^ e)%Q.
Proof. apply Qpower_0_lt. reflexivity. Qed.

Lemma pos_value_shift (m e ex : Z) :
  ex <= e ->
  (pos_value m e == pos_value (m * 2 ^ (e - ex)) ex)%Q.
Proof.
  intros Hle. unfold pos_value.
  rewrite inject_Z_mult, Zpower_Qpower by lia.
  replace e with ((e - ex) + ex) at 1 by lia.
  rewrite Qpower_plus by discriminate.
  change (inject_Z 2) with 2%Q. ring.
Qed.

Lemma pos_value_mono (a b e : Z) :
  a <= b -> (pos_value a e <= pos_value b e)%Q.
Proof.
  intros H. unfold pos_value. apply Qmult_le_compat_r.
  - now rewrite <- Zle_Qle.
  - apply Qlt_le_weak, Qpow2_pos.
Qed.

(** The same bound between rationals. *)
Lemma rel_error_Q (mx M : Z) :
  0 <= mx -> 2 ^ 52 * Z.abs (M - mx) <= 3 * mx ->
  ((1 - rnd_err) * inject_Z mx <= inject_Z M <= (1 + rnd_err) * inject_Z mx)%Q.
Proof.
  intros Hm H. unfold rnd_err.
  assert (H1 : 4503599627370496 * (M - mx) <= 3 * mx) by lia.
  assert (H2 : 4503599627370496 * (mx - M) <= 3 * mx) by lia.
  rewrite Zle_Qle in H1, H2. unfold Z.sub in H1, H2.
  rewrite !inject_Z_mult, !inject_Z_plus, !inject_Z_opp in H1, H2.
  change (inject_Z 4503599627370496) with (4503599627370496 # 1) in H1, H2.
  change (inject_Z 3) with (3 # 1) in H1, H2.
  split; lra.
Qed.

(** Rounding changes the value by a relative error of at most [rnd_err]. *)
Lemma binary_round_aux_value (s s' : bool) (mx ex : Z) (lx : location)
    (m : positive) (e : Z) :
  0 < mx -> -1074 <= Zdigits2 mx + ex - 53 ->
  lx = loc_Exact \/ 2 ^ 52 <= mx ->
  binary_round_aux prec emax s mx ex lx = S754_finite s' m e ->
  ((1 - rnd_err) * pos_value mx ex <= pos_value (Z.pos m) e
   <= (1 + rnd_err) * pos_value mx ex)%Q.
Proof.
  intros Hm Hn Hl H.
  destruct (binary_round_aux_error _ _ _ _ _ _ _ Hm Hn Hl H) as [Hle Herr].
  rewrite (pos_value_shift (Z.pos m) e ex Hle).
  destruct (rel_error_Q mx _ ltac:(lia) Herr) as [H1 H2].
  unfold pos_value. assert (Hp := Qpow2_pos ex).
  split.
  - rewrite Qmult_assoc. apply Qmult_le_compat_r; [exact H1|lra].
  - rewrite Qmult_assoc. apply Qmult_le_compat_r; [exact H2|lra].
Qed.

(** ** Positive floats with bounds on their value *)

Lemma pfloat_inv (k K : Z) (lo hi : Q) (x : float) :
  pfloat k K lo hi x ->
  exists m e, x = S754_finite false m e /\ e <= K /\
    Z.pos (digits2_pos m) <= 53 /\ k < Z.pos (digits2_pos m) + e /\
    (lo <= pos_value (Z.pos m) e <= hi)%Q.
Proof.
  intros (S & B & L & V).
  destruct x as [s|s| |s m e]; cbn [fbound at_least_pow2 nonneg_sign] in *;
    try contradiction.
  subst s. exists m, e. cbn [float_value] in V. repeat split; try lia; apply V.
Qed.

Lemma finite_form (k K : Z) (x : float) :
  nonneg_sign x -> fbound K x -> at_least_pow2 k x ->
  exists m e, x = S754_finite false m e.
Proof.
  intros S B L.
  destruct x as [s|s| |s m e]; cbn [fbound at_least_pow2 nonneg_sign] in *;
    try contradiction.
  subst s. eauto.
Qed.

Lemma pos_value_mul (a b ea eb : Z) :
  (pos_value (a * b) (ea + eb) == pos_value a ea * pos_value b eb)%Q.
Proof.
  unfold pos_value. rewrite inject_Z_mult, Qpower_plus by discriminate. ring.
Qed.

Lemma pos_value_scale (c m e : Z) :
  (pos_value (c * m) e == inject_Z c * pos_value m e)%Q.
Proof. unfold pos_value. rewrite inject_Z_mult. ring. Qed.

Lemma pos_value_nonneg (m e : Z) : 0 <= m -> (0 <= pos_value m e)%Q.
Proof.
  intros H. unfold pos_value. apply Qmult_le_0_compat.
  - now rewrite Zle_Qle in H.
  - apply Qlt_le_weak, Qpow2_pos.
Qed.

Lemma rnd_err_small : (0 < rnd_err /\ rnd_err < 1)%Q.
Proof. unfold rnd_err. split; reflexivity. Qed.

Lemma Qmul_interval (l1 v1 h1 l2 v2 h2 : Q) :
  (0 <= l1 -> 0 <= l2 -> l1 <= v1 <= h1 -> l2 <= v2 <= h2 ->
   l1 * l2 <= v1 * v2 <= h1 * h2)%Q.
Proof. intros. split; nra. Qed.

(** A product: the exact product of the values, rounded. *)
Lemma fmul_pfloat (k1 K1 k2 K2 : Z) (l1 h1 l2 h2 : Q) (x y : float) :
  pfloat k1 K1 l1 h1 x -> pfloat k2 K2 l2 h2 y ->
  (0 <= l1)%Q -> (0 <= l2)%Q ->
  -1022 <= k1 + k2 -> K1 + K2 + 54 <= 971 ->
  pfloat (k1 + k2) (K1 + K2 + 54)
    ((1 - rnd_err) * (l1 * l2)) ((1 + rnd_err) * (h1 * h2)) (fmul x y).
Proof.
  intros Hx Hy Hl1 Hl2 Hlo Hhi.
  assert (Hx' := Hx). assert (Hy' := Hy).
  destruct Hx' as (Sx & Bx & Lx & _). destruct Hy' as (Sy & By & Ly & _).
  destruct (pfloat_inv _ _ _ _ _ Hx) as (mx & ex & -> & Ex & Dx & Mx & Vx).
  destruct (pfloat_inv _ _ _ _ _ Hy) as (my & ey & -> & Ey & Dy & My & Vy).
  assert (Sr := fmul_nonneg _ _ Sx Sy).
  assert (Br := fmul_finite _ _ _ _ Bx By ltac:(lia) Hhi).
  assert (Lr := fmul_lower _ _ _ _ Lx Ly ltac:(lia)).
  split; [exact Sr|]. split; [exact Br|]. split; [exact Lr|].
  destruct (finite_form _ _ _ Sr Br Lr) as (m & e & E). rewrite E.
  cbn [float_value]. cbn [fmul SFmul xorb] in E.
  assert (Hd := digits_mul_lower mx my).
  apply binary_round_aux_value in E;
    [|lia|cbn [Zdigits2]; lia|now left].
  rewrite Pos2Z.inj_mul, pos_value_mul in E.
  destruct (Qmul_interval _ _ _ _ _ _ Hl1 Hl2 Vx Vy) as [P1 P2].
  destruct rnd_err_small as [W0 W1]. destruct E as [E1 E2].
  split.
  - apply Qle_trans with (2 := E1). apply Qmult_le_l; [lra|exact P1].
  - apply Qle_trans with (1 := E2). apply Qmult_le_l; [lra|exact P2].
Qed.

(** Aligning a mantissa to a smaller exponent keeps the value. *)
Lemma shl_align_value (m : positive) (e e' : Z) (m' : positive) (e'' : Z) :
  shl_align m e e' = (m', e'') ->
  (pos_value (Z.pos m') e'' == pos_value (Z.pos m) e)%Q.
Proof.
  unfold shl_align. destruct (e' - e) as [|d|d] eqn:Ed;
    intros H; injection H as <- <-; try reflexivity.
  rewrite iter_xO_value, (pos_value_shift (Z.pos m) e e') by lia.
  replace (e - e') with (Z.pos d) by lia. reflexivity.
Qed.

Lemma binary_round_value (s s' : bool) (m : positive) (e : Z)
    (m' : positive) (e' : Z) :
  -1074 <= Z.pos (digits2_pos m) + e - 53 ->
  binary_round prec emax s m e = S754_finite s' m' e' ->
  ((1 - rnd_err) * pos_value (Z.pos m) e <= pos_value (Z.pos m') e'
   <= (1 + rnd_err) * pos_value (Z.pos m) e)%Q.
Proof.
  intros Hn. unfold binary_round.
  destruct (shl_align m e _) as [mz ez] eqn:Es. intros H.
  assert (Hl := shl_align_lower _ _ _ _ _ Es).
  apply binary_round_aux_value in H; [|lia|cbn [Zdigits2]; lia|now left].
  now rewrite (shl_align_value _ _ _ _ _ Es) in H.
Qed.

Lemma pos_value_add (a b e : Z) :
  (pos_value (a + b) e == pos_value a e + pos_value b e)%Q.
Proof. unfold pos_value. rewrite inject_Z_plus. ring. Qed.

(** A sum: the exact sum of the values, rounded. *)
Lemma fadd_pfloat (k1 K1 k2 K2 : Z) (l1 h1 l2 h2 : Q) (x y : float) :
  pfloat k1 K1 l1 h1 x -> pfloat k2 K2 l2 h2 y ->
  -1021 <= k2 -> Z.max K1 K2 + 2 <= 971 ->
  pfloat k2 (Z.max K1 K2 + 2)
    ((1 - rnd_err) * (l1 + l2)) ((1 + rnd_err) * (h1 + h2)) (fadd x y).
Proof.
  intros Hx Hy Hlo Hhi.
  assert (Hx' := Hx). assert (Hy' := Hy).
  destruct Hx' as (Sx & Bx & Lx & _). destruct Hy' as (Sy & By & Ly & _).
  destruct (pfloat_inv _ _ _ _ _ Hx) as (mx & ex & -> & Ex & Dx & Mx & Vx).
  destruct (pfloat_inv _ _ _ _ _ Hy) as (my & ey & -> & Ey & Dy & My & Vy).
  assert (Sr := fadd_nonneg _ _ Sx Sy).
  assert (Br := fadd_finite _ _ _ _ Sx Sy Bx By ltac:(lia) Hhi).
  assert (Lr := fadd_lower _ _ _ Sx Sy Ly ltac:(lia)).
  split; [exact Sr|]. split; [exact Br|]. split; [exact Lr|].
  destruct (finite_form _ _ _ Sr Br Lr) as (m & e & E). rewrite E.
  cbn [float_value]. cbn [fadd SFadd cond_Zopp] in E.
  set (ez := Z.min ex ey) in E.
  destruct (shl_align mx ex ez) as [a ea] eqn:Ea.
  destruct (shl_align my ey ez) as [b eb] eqn:Eb.
  assert (Ha := shl_align_snd mx ex ez ltac:(lia)). rewrite Ea in Ha.
  assert (Hb := shl_align_snd my ey ez ltac:(lia)). rewrite Eb in Hb.
  cbn [snd] in Ha, Hb. subst ea eb. cbn [fst] in E.
  assert (Va := shl_align_value _ _ _ _ _ Ea).
  assert (Vb := shl_align_value _ _ _ _ _ Eb).
  assert (Lb := shl_align_lower _ _ _ _ _ Eb).
  change (Z.pos a + Z.pos b) with (Z.pos (a + b)) in E.
  cbn [binary_normalize] in E.
  assert (Hmono : Zdigits2 (Z.pos b) <= Zdigits2 (Z.pos (a + b)))
    by (apply Zdigits2_mono; lia).
  cbn [Zdigits2] in Hmono.
  apply binary_round_value in E; [|lia].
  rewrite Pos2Z.inj_add, pos_value_add, Va, Vb in E.
  destruct rnd_err_small as [W0 W1]. destruct E as [E1 E2].
  split.
  - apply Qle_trans with (2 := E1). apply Qmult_le_l; lra.
  - apply Qle_trans with (1 := E2). apply Qmult_le_l; lra.
Qed.

Lemma pos_value_lt (a b e : Z) :
  a < b -> (pos_value a e < pos_value b e)%Q.
Proof.
  intros H. unfold pos_value. apply Qmult_lt_compat_r.
  - apply Qpow2_pos.
  - now rewrite <- Zlt_Qlt.
Qed.

Lemma pos_value_pos (m : positive) (e : Z) : (0 < pos_value (Z.pos m) e)%Q.
Proof.
  unfold pos_value. apply Qmult_lt_0_compat; [reflexivity|apply Qpow2_pos].
Qed.

(** The integer quotient that [SFdiv] rounds has at least 53 bits and is
    the exact quotient truncated. *)
Lemma SFdiv_core_value (mx : positive) (ex : Z) (my : positive) (ey : Z)
    (q e' : Z) (l : location) :
  Z.pos (digits2_pos mx) <= 53 ->
  -1074 <= Z.pos (digits2_pos mx) + ex - (Z.pos (digits2_pos my) + ey) - 53 ->
  SFdiv_core_binary prec emax (Z.pos mx) ex (Z.pos my) ey = (q, e', l) ->
  e' = Z.pos (digits2_pos mx) + ex - (Z.pos (digits2_pos my) + ey) - 53 /\
  2 ^ 52 <= q /\
  (pos_value q e' <= pos_value (Z.pos mx) ex / pos_value (Z.pos my) ey
   < pos_value (q + 1) e')%Q.
Proof.
  intros Hd Hn. unfold SFdiv_core_binary. rewrite fexp_eq. cbn [Zdigits2].
  set (d1 := Z.pos (digits2_pos mx)) in *.
  set (d2 := Z.pos (digits2_pos my)) in *.
  assert (Hd2 : 1 <= d2) by (unfold d2; lia).
  replace (Z.min (Z.max (d1 + ex - (d2 + ey) - 53) (-1074)) (ex - ey))
    with (d1 + ex - (d2 + ey) - 53) by lia.
  set (ee := d1 + ex - (d2 + ey) - 53).
  assert (Hs : ex - ey - ee = 53 - d1 + d2) by (unfold ee; lia).
  set (sh := ex - ey - ee) in *.
  assert (Hm' : match sh with
                | 0 => Z.pos mx
                | Z.pos _ => Z.shiftl (Z.pos mx) sh
                | Z.neg _ => 0
                end = Z.pos mx * 2 ^ sh).
  { destruct sh eqn:Esh; try lia. now rewrite Z.shiftl_mul_pow2. }
  rewrite Hm'. set (m' := Z.pos mx * 2 ^ sh).
  destruct (Z.div_eucl m' (Z.pos my)) as [q0 r] eqn:Eq.
  intros H. injection H as <- <- _.
  assert (Hq : q0 = m' / Z.pos my) by (unfold Z.div; now rewrite Eq).
  assert (Hb1 := digits_lower mx). fold d1 in Hb1.
  assert (Hb2 := digits2_pos_bounds my). fold d2 in Hb2.
  assert (Hp := pow2_pos sh ltac:(lia)).
  assert (Hbig : 2 ^ 52 * Z.pos my <= m').
  { unfold m'.
    assert (2 ^ 52 * 2 ^ d2 <= 2 ^ (d1 - 1) * 2 ^ sh).
    { rewrite <- !Z.pow_add_r by lia. apply Z.pow_le_mono_r; lia. }
    assert (0 < 2 ^ (d1 - 1)) by (apply pow2_pos; lia).
    nia. }
  assert (Hq52 : 2 ^ 52 <= q0).
  { rewrite Hq. apply Z.div_le_lower_bound; lia. }
  split; [reflexivity|]. split; [exact Hq52|].
  assert (Hdm := Z.div_mod m' (Z.pos my) ltac:(lia)). rewrite <- Hq in Hdm.
  assert (Hmod := Z.mod_pos_bound m' (Z.pos my) ltac:(lia)).
  assert (Vm : (pos_value m' (ee + ey) == pos_value (Z.pos mx) ex)%Q).
  { unfold m'. rewrite (pos_value_shift (Z.pos mx) ex (ee + ey)) by lia.
    replace (ex - (ee + ey)) with sh by (unfold sh; lia). reflexivity. }
  assert (Vy := pos_value_pos my ey).
  split.
  - apply Qle_shift_div_l; [exact Vy|].
    rewrite <- pos_value_mul, <- Vm. apply pos_value_mono. nia.
  - apply Qlt_shift_div_r; [exact Vy|].
    rewrite <- pos_value_mul, <- Vm. apply pos_value_lt. nia.
Qed.

Lemma div_err_small :
  (0 < div_err /\ div_err < 1 /\ rnd_err <= div_err)%Q.
Proof. unfold div_err, rnd_err. repeat split; lra. Qed.

(** A quotient: the exact quotient of the values, truncated and rounded. *)
Lemma SFdiv_pfloat (k1 K1 : Z) (l1 h1 : Q) (x : float) (my : positive)
    (ey : Z) :
  pfloat k1 K1 l1 h1 x -> (0 <= l1)%Q ->
  -1021 <= k1 - (Z.pos (digits2_pos my) + ey) -> K1 - ey + 1 <= 971 ->
  pfloat (k1 - (Z.pos (digits2_pos my) + ey)) (K1 - ey + 1)
    ((1 - div_err) * (l1 / pos_value (Z.pos my) ey))
    ((1 + div_err) * (h1 / pos_value (Z.pos my) ey))
    (SFdiv prec emax x (S754_finite false my ey)).
Proof.
  intros Hx Hl1 Hlo Hhi.
  assert (Hx' := Hx). destruct Hx' as (Sx & Bx & Lx & _).
  destruct (pfloat_inv _ _ _ _ _ Hx) as (mx & ex & -> & Ex & Dx & Mx & Vx).
  assert (Sr := SFdiv_nonneg _ (S754_finite false my ey) Sx eq_refl).
  assert (Br := SFdiv_finite _ _ false my ey Bx ltac:(lia) Hhi).
  assert (Vy := pos_value_pos my ey).
  set (vy := pos_value (Z.pos my) ey) in *.
  cbn [SFdiv xorb] in *.
  destruct (SFdiv_core_binary prec emax (Z.pos mx) ex (Z.pos my) ey)
    as [[q e'] l] eqn:Ec.
  apply SFdiv_core_value in Ec; [|lia|lia].
  destruct Ec as (He' & Hq & Vq).
  assert (Hdq : 52 < Zdigits2 q) by (apply Zdigits2_lower; lia).
  assert (Lr : at_least_pow2 (k1 - (Z.pos (digits2_pos my) + ey))
                 (binary_round_aux prec emax false q e' l))
    by (apply binary_round_aux_lower; lia).
  split; [exact Sr|]. split; [exact Br|]. split; [exact Lr|].
  destruct (finite_form _ _ _ Sr Br Lr) as (m & e & E). rewrite E.
  cbn [float_value].
  apply binary_round_aux_value in E; [|lia|lia|now right].
  assert (Ht : (pos_value (2 ^ 52 * 1) e' <= pos_value q e')%Q)
    by (apply pos_value_mono; lia).
  assert (Hq1 := pos_value_add q 1 e').
  rewrite pos_value_scale in Ht.
  change (inject_Z (2 ^ 52)) with (4503599627370496 # 1) in Ht.
  assert (HX : (l1 / vy <= pos_value (Z.pos mx) ex / vy <= h1 / vy)%Q).
  { unfold Qdiv. split; apply Qmult_le_compat_r; try apply Vx;
      apply Qlt_le_weak, Qinv_lt_0_compat, Vy. }
  assert (Hv0 : (0 <= pos_value q e')%Q) by (apply pos_value_nonneg; lia).
  fold vy in Vq. revert Ht Hq1 HX Hv0 Vq E.
  generalize (pos_value (q + 1) e') (pos_value (Z.pos m) e) (pos_value q e')
    (pos_value 1 e') (pos_value (Z.pos mx) ex / vy)%Q (l1 / vy)%Q (h1 / vy)%Q.
  intros Q1 v Qv t X ll hh Ht Hq1 HX Hv0 Vq E.
  unfold div_err, rnd_err in *. split; lra.
Qed.

Lemma pfloat_weaken (k K : Z) (lo hi : Q) (k' K' : Z) (lo' hi' : Q)
    (x : float) :
  pfloat k K lo hi x -> k' <= k -> K <= K' -> (lo' <= lo)%Q -> (hi <= hi')%Q ->
  pfloat k' K' lo' hi' x.
Proof.
  intros (S & B & L & V1 & V2) Hk HK Hlo Hhi.
  split; [exact S|].
  destruct x as [s|s| |s m e]; cbn [fbound at_least_pow2] in *;
    try contradiction.
  split; [lia|]. split; [lia|]. split; lra.
Qed.

Lemma inject_Z_nonneg (z : Z) : 0 <= z -> (0 <= inject_Z z)%Q.
Proof. intros H. change 0%Q with (inject_Z 0). now rewrite <- Zle_Qle. Qed.

Lemma inject_Z_pos (z : Z) : 0 < z -> (0 < inject_Z z)%Q.
Proof. intros H. change 0%Q with (inject_Z 0). now rewrite <- Zlt_Qlt. Qed.

Lemma pos_value_0 (m : Z) : (pos_value m 0 == inject_Z m)%Q.
Proof. unfold pos_value. change (2 ^ 0)%Q with 1%Q. ring. Qed.

(** [float(p)] for a positive [p]. *)
Lemma float_of_int_pfloat (p : Z) :
  1 <= p < 2 ^ 53 ->
  exists pw, float_of_int p = Ok pw /\
    pfloat 0 1 ((1 - rnd_err) * inject_Z p) ((1 + rnd_err) * inject_Z p) pw.
Proof.
  intros Hp.
  destruct (float_of_int_finite p ltac:(unfold exact_int; lia))
    as (pw & Epw & Bpw & Spw).
  exists pw. split; [exact Epw|].
  unfold float_of_int in Epw. destruct p as [|pp|pp]; try lia.
  cbn [binary_normalize] in Epw.
  destruct (is_infinity _) in Epw; [discriminate|]. injection Epw as Epw.
  assert (Lr : at_least_pow2 0 pw).
  { rewrite <- Epw. apply binary_round_lower; lia. }
  split; [exact Spw|]. split; [exact Bpw|]. split; [exact Lr|].
  destruct (finite_form _ _ _ Spw Bpw Lr) as (m & e & ->).
  cbn [float_value]. apply binary_round_value in Epw; [|lia].
  now rewrite pos_value_0 in Epw.
Qed.

(** [a / b] on positive ints, [b] below [2 ^ n]. *)
Lemma int_truediv_pfloat (a b n : Z) :
  1 <= a < 2 ^ 53 -> 1 <= b < 2 ^ n -> 0 <= n <= 53 ->
  exists q, int_truediv a b = Ok q /\
    pfloat (- n) 1 ((1 - div_err) * (inject_Z a / inject_Z b))
      ((1 + div_err) * (inject_Z a / inject_Z b)) q.
Proof.
  intros Ha Hb Hn. unfold int_truediv.
  destruct b as [|b|b]; try lia. destruct a as [|a|a]; try lia.
  cbn [Z.abs Z.to_pos Z.ltb Z.compare].
  assert (Hx : pfloat 0 0 (inject_Z (Z.pos a)) (inject_Z (Z.pos a))
                 (S754_finite false a 0)).
  { split; [reflexivity|]. split.
    - cbn [fbound]. split; [lia|]. apply digits_pos_le; lia.
    - split; [cbn [at_least_pow2]; lia|].
      cbn [float_value]. rewrite pos_value_0. split; apply Qle_refl. }
  assert (Hdb : Z.pos (digits2_pos b) <= n) by (apply digits_pos_le; lia).
  assert (Hq := SFdiv_pfloat 0 0 _ _ _ b 0 Hx
                  ltac:(apply inject_Z_nonneg; lia) ltac:(lia) ltac:(lia)).
  set (q := SFdiv prec emax (S754_finite false a 0) (S754_finite false b 0))
    in *.
  assert (Hq' := Hq). destruct Hq' as (_ & Bq & _).
  exists q. split.
  - destruct q; cbn [fbound] in Bq; try contradiction; reflexivity.
  - eapply pfloat_weaken; [exact Hq|lia|lia| |];
      rewrite pos_value_0; apply Qle_refl.
Qed.

(** ** The hit formula against its exact value *)

(** The float operations of line 172, before the effectiveness. *)
Lemma hit_base_steps (p atk dfn : Z) (pw q : float) :
  float_of_int p = Ok pw -> int_truediv atk dfn = Ok q ->
  hit_base (Some p) atk dfn =
  Ok (fadd (SFdiv prec emax (fmul (fmul f22 pw) q) f50) f2_0).
Proof.
  intros Epw Eq.
  unfold hit_base, fadd_int, fmul_int, fdiv_int.
  change (int_truediv (2 * LEVEL) 5)
    with (Ok (S754_finite false 5629499534213120 (-48))).
  change (float_of_int 2) with (Ok f2_0).
  change (float_of_int 50) with (Ok f50).
  monad_simpl. rewrite Epw. monad_simpl. rewrite Eq. monad_simpl.
  reflexivity.
Qed.

Lemma f22_pfloat : pfloat 4 (-48) 22 22 f22.
Proof.
  split; [reflexivity|]. split; [cbn; lia|]. split; [cbn; lia|].
  split; closed_Qle.
Qed.

Lemma f2_0_pfloat : pfloat 1 (-51) 2 2 f2_0.
Proof.
  split; [reflexivity|]. split; [cbn; lia|]. split; [cbn; lia|].
  split; closed_Qle.
Qed.

Lemma f50_value : (pos_value 7036874417766400 (-47) == 50)%Q.
Proof. reflexivity. Qed.

Lemma exact_base_50 (p atk dfn : Z) :
  (exact_base 50 p atk dfn ==
   (22 # 50) * (inject_Z p * (inject_Z atk / inject_Z dfn)) + 2)%Q.
Proof.
  unfold exact_base. change (inject_Z 50) with 50%Q.
  generalize (inject_Z atk / inject_Z dfn)%Q. intros r. field.
Qed.

(** With positive operands below 2^16 the base of a hit is within a
    relative error of 7 * 2^-50 of its exact value. *)
Lemma hit_base_value_pos (p atk dfn : Z) :
  1 <= p < 2 ^ 16 -> 1 <= atk < 2 ^ 16 -> 1 <= dfn < 2 ^ 16 ->
  exists x, hit_base (Some p) atk dfn = Ok x /\
    pfloat 1 112 ((1 - 6 * div_err) * exact_base 50 p atk dfn)
      ((1 + 7 * div_err) * exact_base 50 p atk dfn) x.
Proof.
  intros Hp Ha Hd.
  destruct (float_of_int_pfloat p ltac:(lia)) as (pw & Epw & Hpw).
  destruct (int_truediv_pfloat atk dfn 16 ltac:(lia) Hd ltac:(lia))
    as (q & Eq & Hq).
  rewrite (hit_base_steps _ _ _ _ _ Epw Eq). eexists. split; [reflexivity|].
  assert (P0 : (0 <= inject_Z p)%Q) by (apply inject_Z_nonneg; lia).
  assert (R0 : (0 <= inject_Z atk / inject_Z dfn)%Q).
  { apply Qle_shift_div_l; [apply inject_Z_pos; lia|].
    rewrite Qmult_0_l. apply inject_Z_nonneg; lia. }
  destruct rnd_err_small as [W0 W1].
  destruct div_err_small as (U0 & U1 & WU).
  set (P := inject_Z p) in *. set (R := (inject_Z atk / inject_Z dfn)%Q) in *.
  assert (H3 := fmul_pfloat _ _ _ _ _ _ _ _ _ _ f22_pfloat Hpw
                  ltac:(lra) ltac:(qnonneg) ltac:(lia) ltac:(lia)).
  assert (Hl3 : (0 <= (1 - rnd_err) * (22 * ((1 - rnd_err) * P)))%Q) by qnonneg.
  assert (H4 := fmul_pfloat _ _ _ _ _ _ _ _ _ _ H3 Hq
                  Hl3 ltac:(qnonneg) ltac:(lia) ltac:(lia)).
  assert (Hl4 : (0 <= (1 - rnd_err)
                     * ((1 - rnd_err) * (22 * ((1 - rnd_err) * P))
                        * ((1 - div_err) * R)))%Q) by qnonneg.
  assert (H5 := SFdiv_pfloat _ _ _ _ _ 7036874417766400 (-47) H4 Hl4
                  ltac:(cbn; lia) ltac:(lia)).
  assert (H6 := fadd_pfloat _ _ _ _ _ _ _ _ _ _ H5 f2_0_pfloat
                  ltac:(lia) ltac:(lia)).
  assert (PR : (0 <= P * R)%Q) by qnonneg.
  eapply pfloat_weaken; [exact H6|lia|lia| |];
    rewrite exact_base_50; fold P R; unfold Qdiv; rewrite f50_value;
    change (/ 50)%Q with (1 # 50)%Q; unfold rnd_err, div_err; lra.
Qed.

Lemma exact_base_nonneg (p atk dfn : Z) :
  0 <= p -> 0 <= atk -> 0 < dfn -> (2 <= exact_base 50 p atk dfn)%Q.
Proof.
  intros Hp Ha Hd. rewrite exact_base_50.
  assert (P0 : (0 <= inject_Z p)%Q) by (apply inject_Z_nonneg; lia).
  assert (R0 : (0 <= inject_Z atk / inject_Z dfn)%Q).
  { apply Qle_shift_div_l; [apply inject_Z_pos; lia|].
    rewrite Qmult_0_l. apply inject_Z_nonneg; lia. }
  assert (PR : (0 <= inject_Z p * (inject_Z atk / inject_Z dfn))%Q) by qnonneg.
  lra.
Qed.

(** With a power or an attack stat of 0 the base is exactly 2.0. *)
Lemma zero_base (x q : float) :
  fbound 1 q -> is_zero x = true \/ is_zero q = true -> fbound 7 x ->
  fadd (SFdiv prec emax (fmul x q) f50) f2_0 = f2_0.
Proof.
  intros Bq Hz Bx.
  destruct x as [sx|sx| |sx mx ex], q as [sq|sq| |sq mq eq];
    cbn [fbound is_zero] in *; try contradiction; try reflexivity;
    destruct Hz; discriminate.
Qed.

Lemma hit_base_value (p atk dfn : Z) :
  0 <= p < 2 ^ 16 -> 0 <= atk < 2 ^ 16 -> 1 <= dfn < 2 ^ 16 ->
  exists x, hit_base (Some p) atk dfn = Ok x /\
    pfloat 1 112 ((1 - 6 * div_err) * exact_base 50 p atk dfn)
      ((1 + 7 * div_err) * exact_base 50 p atk dfn) x.
Proof.
  intros Hp Ha Hd.
  destruct (Z.eq_dec p 0) as [Zp|Np]; [|destruct (Z.eq_dec atk 0) as [Za|Na]];
    [| |apply hit_base_value_pos; lia].
  - subst p.
    destruct (int_truediv_finite atk dfn) as (q & Eq & Bq & Sq);
      try (unfold exact_int; lia).
    rewrite (hit_base_steps 0 atk dfn (S754_zero false) q eq_refl Eq).
    change (fmul f22 (S754_zero false)) with (S754_zero false).
    rewrite zero_base; [|exact Bq|now left|exact I].
    eexists. split; [reflexivity|].
    assert (HB : (exact_base 50 0 atk dfn == 2)%Q).
    { rewrite exact_base_50. change (inject_Z 0) with 0%Q. ring. }
    eapply pfloat_weaken; [exact f2_0_pfloat|lia|lia| |];
      rewrite HB; unfold div_err; lra.
  - subst atk.
    destruct (float_of_int_finite p) as (pw & Epw & Bpw & Spw);
      [unfold exact_int; lia|].
    assert (Eq : int_truediv 0 dfn = Ok (S754_zero false))
      by (destruct dfn; try lia; reflexivity).
    rewrite (hit_base_steps p 0 dfn pw _ Epw Eq).
    assert (B3 := fmul_finite (-48) 1 f22 pw ltac:(cbn; lia) Bpw
                    ltac:(lia) ltac:(lia)).
    rewrite zero_base; [|exact I|now right|exact B3].
    eexists. split; [reflexivity|].
    assert (HB : (exact_base 50 p 0 dfn == 2)%Q).
    { rewrite exact_base_50. change (inject_Z 0) with 0%Q.
      unfold Qdiv. ring. }
    eapply pfloat_weaken; [exact f2_0_pfloat|lia|lia| |];
      rewrite HB; unfold div_err; lra.
Qed.

(** [int] of a positive float is the floor of its value. *)
Lemma int_of_float_Qfloor (m : positive) (e : Z) :
  int_of_float (S754_finite false m e) = Ok (Qfloor (pos_value (Z.pos m) e)).
Proof.
  cbn [int_of_float]. f_equal. destruct e as [|k|k].
  - rewrite Z.shiftl_0_r, (Qfloor_comp _ _ (pos_value_0 _)).
    symmetry. apply Qfloor_Z.
  - rewrite Z.shiftl_mul_pow2 by lia.
    rewrite (Qfloor_comp _ _
               (pos_value_shift (Z.pos m) (Z.pos k) 0 ltac:(lia))).
    rewrite (Qfloor_comp _ _ (pos_value_0 _)), Z.sub_0_r.
    symmetry. apply Qfloor_Z.
  - rewrite Z.shiftr_div_pow2 by lia. rewrite Zdiv_Qdiv.
    apply Qfloor_comp. unfold pos_value.
    change (Z.neg k) with (- Z.pos k). rewrite Qpower_opp.
    rewrite Zpower_Qpower by lia. reflexivity.
Qed.

Lemma Qfloor_lt_of (v : Q) (z : Z) : (v < inject_Z z)%Q -> Qfloor v < z.
Proof.
  intros H. rewrite Zlt_Qlt.
  apply Qle_lt_trans with (2 := H), Qfloor_le.
Qed.

Lemma Qfloor_ge_of (v : Q) (z : Z) : (inject_Z z <= v)%Q -> z <= Qfloor v.
Proof.
  intros H. rewrite <- (Qfloor_Z z). now apply Qfloor_resp_le.
Qed.

(** A value within a relative error of 2^-47 of the fraction N / D, with
    N < 2^47, has the floor of N / D, or one less; and the same floor when
    N / D is not an integer. *)
Lemma floor_near (v X : Q) (N D : Z) :
  0 < D -> 0 <= N < 2 ^ 47 -> (X == inject_Z N / inject_Z D)%Q ->
  ((1 - 8 * div_err) * X <= v <= (1 + 8 * div_err) * X)%Q ->
  Qfloor X - 1 <= Qfloor v <= Qfloor X /\
  (~ whole X -> Qfloor v = Qfloor X).
Proof.
  intros HD HN HX [Hlo Hhi].
  assert (FX : Qfloor X = N / D)
    by (rewrite Zdiv_Qdiv; apply Qfloor_comp, HX).
  assert (Hdm := Z.div_mod N D ltac:(lia)).
  assert (Hmod := Z.mod_pos_bound N D HD).
  rewrite <- FX in Hdm. set (F := Qfloor X) in *. set (r := N mod D) in *.
  assert (Dq := inject_Z_pos D HD).
  assert (HXd : (X * inject_Z D == inject_Z N)%Q).
  { rewrite HX. field. intros E. rewrite E in Dq. discriminate Dq. }
  assert (Hlo' := proj2 (Qmult_le_r _ _ _ Dq) Hlo).
  assert (Hhi' := proj2 (Qmult_le_r _ _ _ Dq) Hhi).
  assert (Nq : (0 <= inject_Z N < 140737488355328)%Q).
  { split; [apply inject_Z_nonneg; lia|].
    change (140737488355328)%Q with (inject_Z (2 ^ 47)).
    rewrite <- Zlt_Qlt. lia. }
  assert (Up : (inject_Z N + 1 <= inject_Z (F + 1) * inject_Z D)%Q).
  { rewrite <- inject_Z_mult. change 1%Q with (inject_Z 1).
    rewrite <- inject_Z_plus, <- Zle_Qle. nia. }
  assert (Lo : (inject_Z (F - 1) * inject_Z D <= inject_Z N - 1)%Q).
  { rewrite <- inject_Z_mult. change 1%Q with (inject_Z 1).
    unfold Qminus. rewrite <- inject_Z_opp, <- inject_Z_plus, <- Zle_Qle. nia. }
  split; [split|].
  - apply Qfloor_ge_of. apply (Qmult_le_r _ _ _ Dq).
    unfold div_err in *. lra.
  - assert (Qfloor v < F + 1); [|lia].
    apply Qfloor_lt_of. apply (Qmult_lt_r _ _ _ Dq).
    unfold div_err in *. lra.
  - intros Hw.
    assert (Hr : r <> 0).
    { intros Hr. apply Hw. unfold whole. fold F.
      apply (Qmult_inj_r _ _ (inject_Z D));
        [intros E; rewrite E in Dq; discriminate Dq|].
      rewrite HXd, <- inject_Z_mult. apply inject_Z_injective. lia. }
    assert (Mid : (inject_Z F * inject_Z D + 1 <= inject_Z N)%Q).
    { rewrite <- inject_Z_mult. change 1%Q with (inject_Z 1).
      rewrite <- inject_Z_plus, <- Zle_Qle. nia. }
    assert (F <= Qfloor v).
    { apply Qfloor_ge_of. apply (Qmult_le_r _ _ _ Dq).
      unfold div_err in *. lra. }
    assert (Qfloor v < F + 1); [|lia].
    apply Qfloor_lt_of. apply (Qmult_lt_r _ _ _ Dq).
    unfold div_err in *. lra.
Qed.

Lemma effectiveness_values_pfloat (eff : float) :
  In eff effectiveness_values ->
  eff = f0_0 \/
  (pfloat (-3) (-50) (float_value eff) (float_value eff) eff /\
   exists k, 1 <= k <= 16 /\ (float_value eff == inject_Z k / 4)%Q).
Proof.
  unfold effectiveness_values. simpl.
  intros [<-|[<-|[<-|[<-|[<-|[<-|[]]]]]]]; [now left|right..];
    (split;
     [split; [reflexivity|]; split; [cbn; lia|]; split; [cbn; lia|];
      split; apply Qle_refl|]).
  - exists 1. split; [lia|reflexivity].
  - exists 2. split; [lia|reflexivity].
  - exists 4. split; [lia|reflexivity].
  - exists 8. split; [lia|reflexivity].
  - exists 16. split; [lia|reflexivity].
Qed.

(** At level 50, with an effectiveness of k / 4, the exact formula is
    k * (22 * p * atk + 100 * dfn) / (200 * dfn). *)
Lemma exact_formula_fraction (p atk dfn k : Z) (e : Q) :
  0 < dfn -> (e == inject_Z k / 4)%Q ->
  (exact_formula 50 p atk dfn e ==
   inject_Z (k * (22 * p * atk + 100 * dfn)) / inject_Z (200 * dfn))%Q.
Proof.
  intros Hd He. unfold exact_formula. rewrite exact_base_50, He.
  rewrite !inject_Z_mult, inject_Z_plus, !inject_Z_mult.
  change (inject_Z 22) with 22%Q. change (inject_Z 100) with 100%Q.
  change (inject_Z 200) with 200%Q.
  assert (Dq := inject_Z_pos dfn Hd).
  field. intros E. rewrite E in Dq. discriminate Dq.
Qed.

(** The damage of a hit against the floor of the exact formula. *)
Lemma hit_damage_value (p atk dfn : Z) (eff : float) :
  0 <= p < 2 ^ 16 -> 0 <= atk < 2 ^ 16 -> 1 <= dfn < 2 ^ 16 ->
  In eff effectiveness_values ->
  exists dmg, hit_damage (Some p) atk dfn eff = Ok dmg /\
    exact_damage 50 p atk dfn (float_value eff) - 1 <= dmg
      <= exact_damage 50 p atk dfn (float_value eff) /\
    (~ whole (exact_formula 50 p atk dfn (float_value eff)) ->
     dmg = exact_damage 50 p atk dfn (float_value eff)).
Proof.
  intros Hp Ha Hd He.
  destruct (hit_base_value p atk dfn Hp Ha Hd) as (x & Ex & Hx).
  rewrite hit_damage_eq, Ex. monad_simpl.
  assert (HB := exact_base_nonneg p atk dfn ltac:(lia) ltac:(lia) ltac:(lia)).
  destruct (effectiveness_values_pfloat eff He) as [->|[Pe (k & Hk & Ek)]].
  - destruct (pfloat_inv _ _ _ _ _ Hx) as (m & e & -> & _).
    exists 0. split; [reflexivity|].
    assert (H0 : exact_damage 50 p atk dfn (float_value f0_0) = 0).
    { unfold exact_damage, exact_formula. cbn [float_value f0_0].
      rewrite (Qfloor_comp _ 0%Q) by ring. reflexivity. }
    rewrite H0. split; [lia|reflexivity].
  - destruct div_err_small as (U0 & U1 & WU).
    destruct rnd_err_small as [W0 W1].
    assert (E0 : (0 <= float_value eff)%Q).
    { rewrite Ek. apply Qle_shift_div_l; [reflexivity|].
      rewrite Qmult_0_l. apply inject_Z_nonneg. lia. }
    assert (L0 : (0 <= (1 - 6 * div_err) * exact_base 50 p atk dfn)%Q)
      by (apply Qmult_le_0_compat; unfold div_err in *; lra).
    assert (H7 := fmul_pfloat _ _ _ _ _ _ _ _ _ _ Hx Pe L0 E0
                    ltac:(lia) ltac:(lia)).
    destruct (pfloat_inv _ _ _ _ _ H7) as (m & e & -> & _ & _ & _ & V).
    rewrite int_of_float_Qfloor. eexists. split; [reflexivity|].
    unfold exact_damage.
    apply (floor_near _ _ (k * (22 * p * atk + 100 * dfn)) (200 * dfn)).
    + lia.
    + assert (p * atk < 2 ^ 16 * 2 ^ 16)
        by (apply Z.mul_lt_mono_nonneg; lia).
      change (2 ^ 16) with 65536 in *. change (2 ^ 47) with 140737488355328.
      nia.
    + apply exact_formula_fraction; [lia|exact Ek].
    + unfold exact_formula.
      assert (X0 : (0 <= exact_base 50 p atk dfn * float_value eff)%Q)
        by (apply Qmult_le_0_compat; lra).
      revert V X0. generalize (pos_value (Z.pos m) e) (float_value eff)
        (exact_base 50 p atk dfn). intros v E B V X0.
      unfold div_err, rnd_err in *. split; lra.
Qed.

(** ** Damage calculator: errors, stat selection, accuracy, least damage *)

Lemma hit_damage_without_power (atk dfn : Z) (eff : float) :
  hit_damage None atk dfn eff = Raise TypeError.
Proof.
  unfold hit_damage, fadd_int.
  change (int_truediv (2 * LEVEL) 5)
    with (Ok (S754_finite false 5629499534213120 (-48))).
  change (float_of_int 2) with (Ok f2_0). reflexivity.
Qed.

Lemma hit_damage_zero_defense (p atk : Z) (eff : float) :
  exact_int p -> hit_damage (Some p) atk 0 eff = Raise ZeroDivisionError.
Proof.
  intros Hp. destruct (float_of_int_finite p Hp) as (pw & Epw & _).
  unfold hit_damage, fadd_int, fmul_int.
  change (int_truediv (2 * LEVEL) 5)
    with (Ok (S754_finite false 5629499534213120 (-48))).
  change (float_of_int 2) with (Ok f2_0). monad_simpl.
  rewrite Epw. reflexivity.
Qed.

(** The base value of a hit is at least 2: the formula ends in [+ 2]. *)
Lemma hit_base_lower (power : option Z) (atk dfn : Z) (x : float) :
  (forall p, power = Some p -> 0 <= p) -> 0 <= atk -> 0 <= dfn ->
  hit_base power atk dfn = Ok x -> at_least_pow2 1 x /\ nonneg_sign x.
Proof.
  intros Hp Ha Hd H. split; [|exact (hit_base_nonneg _ _ _ _ Hp Ha Hd H)].
  revert H. unfold hit_base. monad_simpl. intros H.
  bind_ok H x1 E1. bind_ok H x2 E2.
  destruct power as [p|]; [|discriminate H].
  bind_ok H x3 E3. bind_ok H q E4. bind_ok H x5 E5.
  assert (H1 : nonneg_sign x1)
    by (eapply int_truediv_nonneg; [| |exact E1]; unfold LEVEL; lia).
  assert (H2 : nonneg_sign x2)
    by (eapply fadd_int_nonneg; [exact H1| |exact E2]; lia).
  assert (H3 : nonneg_sign x3)
    by (eapply fmul_int_nonneg; [exact H2| |exact E3]; now apply Hp).
  assert (H4 : nonneg_sign q)
    by (eapply int_truediv_nonneg; [| |exact E4]; assumption).
  assert (H5 : nonneg_sign x5)
    by (eapply fdiv_int_nonneg;
          [apply (fmul_nonneg x3 q H3 H4)| |exact E5]; lia).
  unfold fadd_int in H. change (float_of_int 2) with (Ok f2_0) in H.
  cbn [bind ret outcome_monad] in H. injection H as <-.
  apply fadd_lower; [exact H5|reflexivity|cbn; lia|lia].
Qed.

(** A hit that lands with an effectiveness of at least 2^j, j >= -1, deals
    at least 2^(1+j). *)
Lemma hit_damage_lower (power : option Z) (atk dfn : Z) (eff : float)
    (dmg j : Z) :
  (forall p, power = Some p -> 0 <= p) -> 0 <= atk -> 0 <= dfn ->
  nonneg_sign eff -> at_least_pow2 j eff -> -1 <= j ->
  hit_damage power atk dfn eff = Ok dmg -> 2 ^ (1 + j) <= dmg.
Proof.
  intros Hp Ha Hd Se He Hj. rewrite hit_damage_eq. monad_simpl. intros H.
  bind_ok H x E.
  destruct (hit_base_lower power atk dfn x Hp Ha Hd E) as [Lx Sx].
  eapply int_of_float_lower; [| | |exact H]; [lia| |].
  - now apply fmul_nonneg.
  - apply fmul_lower; [exact Lx|exact He|lia].
Qed.

Lemma range_from_In (len : nat) :
  forall k a, k <= a < k + Z.of_nat len -> In a (range_from k len).
Proof.
  induction len as [|len IH]; intros k a Ha; [lia|].
  cbn [range_from]. destruct (Z.eq_dec k a) as [->|Hne]; [now left|].
  right. apply IH. lia.
Qed.

(** The thresholds accuracy/100 of the accuracies 1..100: all are above
    0; below 100 the largest draw is not under the threshold; at 100 the
    threshold is 1.0. *)
Lemma accuracy_thresholds (acc : Z) :
  1 <= acc <= 100 ->
  exists th,
    int_truediv acc 100 = Ok th /\ fltb f0_0 th = true /\
    (acc < 100 -> fltb largest_draw th = false) /\
    (acc = 100 -> th = f1_0).
Proof.
  intros Ha.
  assert (Hin : In acc (range 1 101)) by (apply (range_from_In 100 1); lia).
  vm_compute in Hin.
  repeat (destruct Hin as [<-|Hin];
          [eexists; split; [vm_compute; reflexivity|];
           split; [reflexivity|];
           split; intros; first [reflexivity|lia]|]).
  destruct Hin.
Qed.

Section DamageEdges.

Variable fetch_type : string -> option TypeData.
Variable rand : nat -> float.

Lemma accuracy_in_range (m : MoveData) :
  (forall acc, accuracy m = Some acc -> 0 <= acc <= 100) ->
  1 <= accuracy_used m <= 100.
Proof.
  intros Hacc. unfold accuracy_used.
  destruct (accuracy m) as [a|]; [|lia].
  specialize (Hacc a eq_refl). destruct (a =? 0) eqn:E; lia.
Qed.

(** X6. When [calculate_damage] raises, on integers that binary64
    represents exactly, an accuracy that is absent or within 0..100 and at
    most two defending types. A failed roll never raises and returns a
    damage of 0, even with an absent power or a defence stat of 0. A
    landed roll raises [TypeError] when the power is absent, raises
    [ZeroDivisionError] when the power is present and the selected defence
    stat is 0, and returns otherwise. *)
Theorem calculate_damage_errors (a d : Stats) (ts : list string)
    (m : MoveData) (n : nat) :
  exact_int (attack_stat m a) -> exact_int (defense_stat m d) ->
  (forall p, power m = Some p -> exact_int p) ->
  (forall acc, accuracy m = Some acc -> 0 <= acc <= 100) ->
  (List.length ts <= 2)%nat ->
  let eff := get_type_effectiveness fetch_type (move_type m) ts in
  exists th,
    int_truediv (accuracy_used m) 100 = Ok th
    /\ (fltb (rand n) th = false ->
        calculate_damage fetch_type rand a d ts m n =
        Ok (0, eff, missed_flag 0 eff, S n))
    /\ (fltb (rand n) th = true -> power m = None ->
        calculate_damage fetch_type rand a d ts m n = Raise TypeError)
    /\ (fltb (rand n) th = true -> power m <> None ->
        defense_stat m d = 0 ->
        calculate_damage fetch_type rand a d ts m n
        = Raise ZeroDivisionError)
    /\ (fltb (rand n) th = true -> power m <> None ->
        0 < defense_stat m d ->
        exists dmg,
          calculate_damage fetch_type rand a d ts m n =
          Ok (dmg, eff, missed_flag dmg eff, S n)).
Proof.
  intros Hatk Hdfn Hpow Hacc Hts eff.
  assert (Hused := accuracy_in_range m Hacc).
  destruct (int_truediv_finite (accuracy_used m) 100) as (th & Eth & _);
    try (unfold exact_int; lia).
  exists th. split; [exact Eth|].
  rewrite calculate_damage_eq, Eth. fold eff.
  split; [intros ->; reflexivity|].
  split; [intros -> ->; now rewrite hit_damage_without_power|].
  split.
  - intros -> Hp ->. destruct (power m) as [p|] eqn:Ep; [|now destruct Hp].
    rewrite hit_damage_zero_defense by (now apply Hpow). reflexivity.
  - intros -> Hp Hpos. destruct (power m) as [p|] eqn:Ep; [|now destruct Hp].
    destruct (hit_damage_returns p (attack_stat m a) (defense_stat m d) eff)
      as (dmg & ->); auto.
    + now apply effectiveness_in_values.
    + eauto.
Qed.

(** X7. The damage class selects the stats that matter. For a physical
    move the result depends on the attacker's attack and the defender's
    defense only; for every other class, known or not, on the attacker's
    special-attack and the defender's special-defense only. HP and speed
    never enter the damage. *)
Theorem damage_class_selects_stats (a a' d d' : Stats) (ts : list string)
    (m : MoveData) (n : nat) :
  (damage_class m = "physical" ->
   attack a = attack a' /\ defense d = defense d') ->
  (damage_class m <> "physical" ->
   special_attack a = special_attack a' /\
   special_defense d = special_defense d') ->
  calculate_damage fetch_type rand a d ts m n =
  calculate_damage fetch_type rand a' d' ts m n.
Proof.
  intros Hphys Hspec. rewrite !calculate_damage_eq.
  unfold attack_stat, defense_stat.
  destruct (String.eqb_spec (damage_class m) "physical") as [E|E];
    [destruct (Hphys E) as [-> ->]|destruct (Hspec E) as [-> ->]];
    reflexivity.
Qed.

(** X8. How the accuracy decides the roll, for an accuracy that is absent
    or within 0..100. A draw of 0.0 always lands. With an accuracy of 100,
    or one that is absent or 0, every draw in [0, 1) lands. With an
    accuracy below 100 the largest draw, 1 - 2^-53, fails, and the call
    returns a damage of 0. *)
Theorem accuracy_decides_roll (a d : Stats) (ts : list string)
    (m : MoveData) (n : nat) :
  (forall acc, accuracy m = Some acc -> 0 <= acc <= 100) ->
  let eff := get_type_effectiveness fetch_type (move_type m) ts in
  let landed :=
    (dmg <- hit_damage (power m) (attack_stat m a) (defense_stat m d) eff ;;
     Ok (dmg, eff, missed_flag dmg eff, S n)) in
  (rand n = f0_0 -> calculate_damage fetch_type rand a d ts m n = landed)
  /\ (accuracy_used m = 100 -> unit_interval (rand n) ->
      calculate_damage fetch_type rand a d ts m n = landed)
  /\ (accuracy_used m < 100 -> rand n = largest_draw ->
      calculate_damage fetch_type rand a d ts m n =
      Ok (0, eff, missed_flag 0 eff, S n)).
Proof.
  intros Hacc eff landed.
  destruct (accuracy_thresholds (accuracy_used m) (accuracy_in_range m Hacc))
    as (th & Eth & H0 & Hlow & Hfull).
  rewrite calculate_damage_eq, Eth. fold eff. split; [|split].
  - intros ->. rewrite H0. reflexivity.
  - intros H100 [_ Hr]. rewrite (Hfull H100), Hr. reflexivity.
  - intros Hlt ->. rewrite (Hlow Hlt). reflexivity.
Qed.

(** X9. A hit that lands on valid combatants deals at least twice the
    effectiveness: at least 1 at effectiveness 0.5, 2 at 1.0, 4 at 2.0 and
    8 at 4.0. So, for a defender with at most two types, a landed hit is
    returned as missed only at effectiveness 0.25. *)
Theorem landed_hit_minimum (a d : Stats) (ts : list string) (m : MoveData)
    (n n' : nat) (th : float) (dmg : Z) (eff : float) (missed : bool) :
  valid_stats a -> valid_stats d -> valid_move m ->
  int_truediv (accuracy_used m) 100 = Ok th ->
  fltb (rand n) th = true ->
  calculate_damage fetch_type rand a d ts m n = Ok (dmg, eff, missed, n') ->
  (eff = f0_5 -> 1 <= dmg)
  /\ (eff = f1_0 -> 2 <= dmg)
  /\ (eff = f2_0 -> 4 <= dmg)
  /\ (eff = f4_0 -> 8 <= dmg)
  /\ ((List.length ts <= 2)%nat -> missed = true -> eff = f0_25).
Proof.
  intros Va Vd Vm Eth Hroll. rewrite calculate_damage_eq, Eth, Hroll.
  destruct (valid_stats_selected m a d Va Vd) as [Hatk Hdfn].
  destruct (hit_damage _ _ _ _) as [dmg'|] eqn:Eh; [|discriminate].
  intros H. injection H as <- <- <- <-.
  set (eff := get_type_effectiveness fetch_type (move_type m) ts) in *.
  assert (Hlow : forall j, at_least_pow2 j eff -> -1 <= j ->
                           2 ^ (1 + j) <= dmg').
  { intros j Hj Hge.
    eapply hit_damage_lower; [exact Vm|exact Hatk|exact Hdfn| | | |exact Eh];
      [apply get_type_effectiveness_nonneg|exact Hj|exact Hge]. }
  assert (L1 : eff = f0_5 -> 1 <= dmg').
  { intros He. apply (Hlow (-1)); [rewrite He; cbn; lia|lia]. }
  assert (L2 : eff = f1_0 -> 2 <= dmg').
  { intros He. apply (Hlow 0); [rewrite He; cbn; lia|lia]. }
  assert (L3 : eff = f2_0 -> 4 <= dmg').
  { intros He. apply (Hlow 1); [rewrite He; cbn; lia|lia]. }
  assert (L4 : eff = f4_0 -> 8 <= dmg').
  { intros He. apply (Hlow 2); [rewrite He; cbn; lia|lia]. }
  repeat (split; [assumption|]).
  intros Hts Hmiss. unfold missed_flag in Hmiss.
  apply andb_true_iff in Hmiss. destruct Hmiss as [Hz Hne].
  assert (Hin := effectiveness_in_values fetch_type (move_type m) ts Hts).
  fold eff in Hin. unfold effectiveness_values in Hin. simpl in Hin.
  destruct Hin as [He|[He|[He|[He|[He|[He|[]]]]]]]; symmetry in He;
    [rewrite He in Hne; discriminate Hne|exact He
    |apply L1 in He|apply L2 in He|apply L3 in He|apply L4 in He]; lia.
Qed.

End DamageEdges.

(** ** Damage calculator: the formula *)

Section DamageFormula.

Variable fetch_type : string -> option TypeData.
Variable rand : nat -> float.

(** C1, as amended. Let the power be present, the power and the selected
    attack stat lie in 0..65535, the selected defense stat in 1..65535, and
    the defender have at most two types. When the accuracy roll succeeds,
    [calculate_damage] returns a damage d, computed in binary64, such that
    F - 1 <= d <= F for
    F = floor(((2*level/5 + 2) * power * (atk/def) / 50 + 2) * effectiveness)
    in exact arithmetic at level 50; d = F whenever the exact value of the
    formula is not an integer. With attack 100, defense 50, power 40, a
    physical move and effectiveness 1.0 the damage is 37. *)
Theorem calculate_damage_formula (a d : Stats) (ts : list string)
    (m : MoveData) (n : nat) (threshold : float) (p : Z) :
  power m = Some p -> 0 <= p < 2 ^ 16 ->
  0 <= attack_stat m a < 2 ^ 16 -> 0 < defense_stat m d < 2 ^ 16 ->
  (List.length ts <= 2)%nat ->
  int_truediv (accuracy_used m) 100 = Ok threshold ->
  fltb (rand n) threshold = true ->
  let eff := get_type_effectiveness fetch_type (move_type m) ts in
  let atk := attack_stat m a in
  let dfn := defense_stat m d in
  (exists dmg,
     calculate_damage fetch_type rand a d ts m n
       = Ok (dmg, eff, missed_flag dmg eff, S n)
     /\ exact_damage 50 p atk dfn (float_value eff) - 1 <= dmg
        <= exact_damage 50 p atk dfn (float_value eff)
     /\ (~ whole (exact_formula 50 p atk dfn (float_value eff)) ->
         dmg = exact_damage 50 p atk dfn (float_value eff)))
  /\ (attack a = 100 -> defense d = 50 -> p = 40 ->
      damage_class m = "physical" -> eff = f1_0 ->
      calculate_damage fetch_type rand a d ts m n = Ok (37, f1_0, false, S n)).
Proof.
  intros Hpow Hp Hatk Hdfn Hts Hth Hroll eff atk dfn.
  rewrite calculate_damage_eq, Hth, Hroll, Hpow. fold eff atk dfn. split.
  - destruct (hit_damage_value p atk dfn eff Hp Hatk ltac:(lia)
                (effectiveness_in_values fetch_type (move_type m) ts Hts))
      as (dmg & E & B & W).
    exists dmg. rewrite E. auto.
  - intros Ha Hd -> Hclass Heff. unfold atk, dfn, attack_stat, defense_stat.
    rewrite Hclass, Ha, Hd, Heff. reflexivity.
Qed.

End DamageFormula.

(** ** Structure of a battle *)

Section BattleStructure.

Variable fetch_type : string -> option TypeData.
Variable rand : nat -> float.
Variables (p1 : Pokemon) (p1_move : MoveData)
          (p2 : Pokemon) (p2_move : MoveData).

Local Notation "'run_rounds'" :=
  (rounds fetch_type rand p1 p1_move p2 p2_move).
Local Notation "'round_of'" := (round_ok fetch_type rand p1 p1_move p2 p2_move).
Local Notation "'rounds_of'" := (rounds_ok fetch_type rand p1 p1_move p2 p2_move).
Local Notation "'tie_draws'" := (order_draws p1 p2).

(** What a returned triple of [calculate_damage] is made of. *)
Lemma calculate_damage_result (a d : Stats) (ts : list string) (m : MoveData)
    (n n' : nat) (dmg : Z) (eff : float) (missed : bool) :
  calculate_damage fetch_type rand a d ts m n = Ok (dmg, eff, missed, n') ->
  eff = get_type_effectiveness fetch_type (move_type m) ts /\
  missed = missed_flag dmg eff /\
  (feqb eff f0_0 = true -> dmg = 0).
Proof.
  rewrite calculate_damage_eq.
  destruct (int_truediv _ 100) as [th|]; [|discriminate].
  destruct (fltb (rand n) th).
  - destruct (hit_damage _ _ _ _) as [dmg'|] eqn:Ehit; [|discriminate].
    intros H. injection H as <- <- <- <-. repeat split.
    intros He. eapply hit_damage_immune; eassumption.
  - intros H. injection H as <- <- <- <-. repeat split.
Qed.

Lemma turn_logged (rnd : Z) (attacker : Pokemon) (mv : MoveData)
    (defender : Pokemon) (hp_before : Z) (n n' : nat) (dmg : Z) (eff : float)
    (missed : bool) :
  calculate_damage fetch_type rand (stats attacker) (stats defender)
                   (types defender) mv n = Ok (dmg, eff, missed, n') ->
  logged_hit fetch_type rand rnd attacker mv defender hp_before n
    (turn_event rnd attacker mv dmg eff missed (Z.max 0 (hp_before - dmg))).
Proof.
  intros H. destruct (calculate_damage_result _ _ _ _ _ _ _ _ _ H)
    as (He & Hm & Hz).
  unfold logged_hit, turn_event.
  cbn [Round Attacker Move Damage Effectiveness Note Defender_HP].
  rewrite Hm. repeat split; auto.
  - intros Va Vd Vm.
    exact (calculate_damage_nonneg _ _ _ _ _ _ _ _ _ _ _ Va Vd Vm H).
  - assert (n' = S n) by (eapply calculate_damage_draws; exact H). subst n'.
    eauto.
Qed.

(** The inner loop when the first side attacks first. *)
Lemma turns_p1_first (rnd : Z) (st st' : BattleState) (n n' : nat) :
  turns fetch_type rand rnd
        [ (p1, p1_move, p2, "p2"); (p2, p2_move, p1, "p1") ] st n
    = Ok (st', n') ->
  exists evs,
    exchange fetch_type rand rnd p1 p1_move (p1_hp st) p2 p2_move (p2_hp st)
             n evs (p1_hp st') (p2_hp st') /\
    battle_log st' = battle_log st ++ evs /\
    hp_history st' = hp_history st /\
    n' = (n + List.length evs)%nat.
Proof.
  intros H. apply turns_cons_inv in H.
  destruct H as (dmg & eff & missed & st1 & dha & Hc & Happ & H).
  unfold apply_damage in Happ. change (String.eqb "p2" "p1") with false in Happ.
  cbv iota zeta in Happ. injection Happ as <- <-.
  assert (L1 := turn_logged rnd p1 p1_move p2 (p2_hp st) _ _ _ _ _ Hc).
  cbv zeta in H. destruct H as [(Hdha & -> & ->)|(Hdha & H)].
  - eexists [_]. split; [left; eexists; split; [reflexivity|]|].
    + split; [exact L1|]. cbn. auto.
    + cbn. repeat split. lia.
  - apply turns_cons_inv in H.
    destruct H as (dmg2 & eff2 & missed2 & st2 & dha2 & Hc2 & Happ2 & H).
    unfold apply_damage in Happ2.
    change (String.eqb "p1" "p1") with true in Happ2.
    cbv iota zeta in Happ2. cbn [p1_hp p2_hp log_append] in Happ2.
    injection Happ2 as <- <-.
    assert (L2 := turn_logged rnd p2 p2_move p1 (p1_hp st) _ _ _ _ _ Hc2).
    assert (E : st' = log_append
                  (turn_event rnd p2 p2_move dmg2 eff2 missed2
                     (Z.max 0 (p1_hp st - dmg2)))
                  {| p1_hp := Z.max 0 (p1_hp st - dmg2);
                     p2_hp := Z.max 0 (p2_hp st - dmg);
                     battle_log := battle_log st ++
                       [turn_event rnd p1 p1_move dmg eff missed
                          (Z.max 0 (p2_hp st - dmg))];
                     hp_history := hp_history st |} /\ n' = S (S n)).
    { cbv zeta in H. destruct H as [(_ & -> & ->)|(_ & H)].
      - split; reflexivity.
      - injection H as <- <-. split; reflexivity. }
    destruct E as [-> ->].
    eexists [_; _]. split; [right; eexists _, _; split; [reflexivity|]|].
    + split; [exact L1|]. split; [exact Hdha|]. split; [exact L2|].
      cbn. auto.
    + cbn. rewrite <- app_assoc. repeat split. lia.
Qed.

(** The inner loop when the second side attacks first. *)
Lemma turns_p2_first (rnd : Z) (st st' : BattleState) (n n' : nat) :
  turns fetch_type rand rnd
        [ (p2, p2_move, p1, "p1"); (p1, p1_move, p2, "p2") ] st n
    = Ok (st', n') ->
  exists evs,
    exchange fetch_type rand rnd p2 p2_move (p2_hp st) p1 p1_move (p1_hp st)
             n evs (p2_hp st') (p1_hp st') /\
    battle_log st' = battle_log st ++ evs /\
    hp_history st' = hp_history st /\
    n' = (n + List.length evs)%nat.
Proof.
  intros H. apply turns_cons_inv in H.
  destruct H as (dmg & eff & missed & st1 & dha & Hc & Happ & H).
  unfold apply_damage in Happ. change (String.eqb "p1" "p1") with true in Happ.
  cbv iota zeta in Happ. injection Happ as <- <-.
  assert (L1 := turn_logged rnd p2 p2_move p1 (p1_hp st) _ _ _ _ _ Hc).
  cbv zeta in H. destruct H as [(Hdha & -> & ->)|(Hdha & H)].
  - eexists [_]. split; [left; eexists; split; [reflexivity|]|].
    + split; [exact L1|]. cbn. auto.
    + cbn. repeat split. lia.
  - apply turns_cons_inv in H.
    destruct H as (dmg2 & eff2 & missed2 & st2 & dha2 & Hc2 & Happ2 & H).
    unfold apply_damage in Happ2.
    change (String.eqb "p2" "p1") with false in Happ2.
    cbv iota zeta in Happ2. cbn [p1_hp p2_hp log_append] in Happ2.
    injection Happ2 as <- <-.
    assert (L2 := turn_logged rnd p1 p1_move p2 (p2_hp st) _ _ _ _ _ Hc2).
    assert (E : st' = log_append
                  (turn_event rnd p1 p1_move dmg2 eff2 missed2
                     (Z.max 0 (p2_hp st - dmg2)))
                  {| p1_hp := Z.max 0 (p1_hp st - dmg);
                     p2_hp := Z.max 0 (p2_hp st - dmg2);
                     battle_log := battle_log st ++
                       [turn_event rnd p2 p2_move dmg eff missed
                          (Z.max 0 (p1_hp st - dmg))];
                     hp_history := hp_history st |} /\ n' = S (S n)).
    { cbv zeta in H. destruct H as [(_ & -> & ->)|(_ & H)].
      - split; reflexivity.
      - injection H as <- <-. split; reflexivity. }
    destruct E as [-> ->].
    eexists [_; _]. split; [right; eexists _, _; split; [reflexivity|]|].
    + split; [exact L1|]. split; [exact Hdha|]. split; [exact L2|].
      cbn. auto.
    + cbn. rewrite <- app_assoc. repeat split. lia.
Qed.

Lemma turn_order_cases (n : nat) :
  exists order,
    turn_order rand p1 p1_move p2 p2_move n
      = Ok (order, (n + tie_draws)%nat) /\
    ((speed (stats p2) <= speed (stats p1) /\
      (speed (stats p1) = speed (stats p2) -> fltb (rand n) f0_5 = true) /\
      order = [ (p1, p1_move, p2, "p2"); (p2, p2_move, p1, "p1") ]) \/
     (speed (stats p1) <= speed (stats p2) /\
      (speed (stats p1) = speed (stats p2) -> fltb (rand n) f0_5 = false) /\
      order = [ (p2, p2_move, p1, "p1"); (p1, p1_move, p2, "p2") ])).
Proof.
  unfold turn_order, order_draws.
  destruct (speed (stats p1) >? speed (stats p2)) eqn:E1.
  { destruct (Z.eqb_spec (speed (stats p1)) (speed (stats p2))); [lia|].
    rewrite Nat.add_0_r. eexists. split; [reflexivity|].
    left. split; [lia|]. split; [intros; lia|reflexivity]. }
  destruct (speed (stats p2) >? speed (stats p1)) eqn:E2.
  { destruct (Z.eqb_spec (speed (stats p1)) (speed (stats p2))); [lia|].
    rewrite Nat.add_0_r. eexists. split; [reflexivity|].
    right. split; [lia|]. split; [intros; lia|reflexivity]. }
  destruct (Z.eqb_spec (speed (stats p1)) (speed (stats p2))); [|lia].
  monad_simpl. rewrite Nat.add_1_r.
  destruct (fltb (rand n) f0_5) eqn:Ef; eexists; (split; [reflexivity|]);
    [left|right]; (split; [lia|]); (split; [intros _; reflexivity|reflexivity]).
Qed.

(** One iteration of the outer loop. *)
Lemma round_step (rnd : Z) (rest : list Z) (st st' : BattleState)
    (n n' : nat) :
  run_rounds (rnd :: rest) st n = Ok (st', n') ->
  exists evs h' st2 n2,
    round_of rnd (p1_hp st, p2_hp st) n evs h' /\
    p1_hp st2 = fst h' /\ p2_hp st2 = snd h' /\
    battle_log st2 = battle_log st ++ evs /\
    hp_history st2 =
      hp_history st ++ history_rows (name p1) (name p2) rnd [h'] /\
    n2 = (n + tie_draws + List.length evs)%nat /\
    (((fst h' <= 0 \/ snd h' <= 0) /\ st' = st2 /\ n' = n2) \/
     (0 < fst h' /\ 0 < snd h' /\ run_rounds rest st2 n2 = Ok (st', n'))).
Proof.
  cbn [rounds]. monad_simpl.
  destruct (turn_order_cases n) as (order & -> & Ho). intros H.
  destruct (turns fetch_type rand rnd order st (n + tie_draws)%nat)
    as [[st1 n2]|] eqn:Et; [|discriminate H].
  assert (Hex : exists evs,
             round_of rnd (p1_hp st, p2_hp st) n evs
                      (p1_hp st1, p2_hp st1) /\
             battle_log st1 = battle_log st ++ evs /\
             hp_history st1 = hp_history st /\
             n2 = (n + tie_draws + List.length evs)%nat).
  { destruct Ho as [(Hs & Htie & ->)|(Hs & Htie & ->)];
      [apply turns_p1_first in Et|apply turns_p2_first in Et];
      destruct Et as (evs & Hx & Hl & Hh & Hn); exists evs;
      (split; [|auto]); [left|right];
      (split; [exact Hs|split; [exact Htie|exact Hx]]). }
  destruct Hex as (evs & Hr & Hl & Hh & Hn).
  exists evs, (p1_hp st1, p2_hp st1), (record_round p1 p2 rnd st1), n2.
  cbn [fst snd p1_hp p2_hp battle_log hp_history record_round history_rows].
  rewrite Hl, Hh.
  split; [exact Hr|]. do 4 (split; [reflexivity|]). split; [exact Hn|].
  unfold record_round at 1 2 in H. cbn [p1_hp p2_hp] in H.
  destruct (p1_hp st1 <=? 0) eqn:E1; cbn [orb] in H.
  { left. injection H as <- <-. split; [lia|auto]. }
  destruct (p2_hp st1 <=? 0) eqn:E2.
  { left. injection H as <- <-. split; [lia|auto]. }
  right. split; [lia|]. split; [lia|exact H].
Qed.

Lemma last_cons {A : Type} (l : list A) (a d : A) :
  last (a :: l) d = last l a.
Proof.
  revert a d. induction l as [|b l IH]; intros a d; [reflexivity|].
  change (last (a :: b :: l) d) with (last (b :: l) d).
  rewrite (IH b d), (IH b a). reflexivity.
Qed.

(** The outer loop over [len] rounds from round [k], round by round. *)
Lemma rounds_structure (len : nat) :
  forall k st n st' n',
    run_rounds (range_from k len) st n = Ok (st', n') ->
    exists rs,
      rounds_of k (p1_hp st, p2_hp st) n rs /\
      battle_log st' = battle_log st ++ List.concat (map fst rs) /\
      hp_history st' =
        hp_history st ++ history_rows (name p1) (name p2) k (map snd rs) /\
      (p1_hp st', p2_hp st') = last (map snd rs) (p1_hp st, p2_hp st) /\
      (List.length rs <= len)%nat /\
      (len <> 0%nat -> rs <> []) /\
      (0 < p1_hp st' -> 0 < p2_hp st' -> List.length rs = len) /\
      n' = (n + List.length rs * tie_draws
            + List.length (List.concat (map fst rs)))%nat.
Proof.
  induction len as [|len IH]; intros k st n st' n' H.
  - injection H as <- <-. exists []. cbn. rewrite !app_nil_r.
    repeat split; auto; lia.
  - cbn [range_from] in H. apply round_step in H.
    destruct H as (evs & [h1 h2] & st2 & n2 & Hr & E1 & E2 & El & Eh & En & H).
    cbn [fst snd] in *.
    destruct H as [(Hko & -> & ->)|(P1 & P2 & H)].
    + exists [(evs, (h1, h2))].
      cbn [rounds_ok map fst snd List.concat last List.length].
      rewrite app_nil_r, E1, E2, El, Eh.
      split; [split; [exact Hr|split; [intros []; reflexivity|exact I]]|].
      do 3 (split; [reflexivity|]). split; [lia|].
      split; [discriminate|]. split; lia.
    + apply IH in H.
      destruct H as (rs & R & L & Hh & Hlast & Hlen & Hne & Hfull & Hn).
      rewrite E1, E2 in R, Hlast. rewrite En in R.
      exists ((evs, (h1, h2)) :: rs).
      cbn [rounds_ok map fst snd List.concat List.length history_rows].
      split; [split; [exact Hr|split; [intros _; split; assumption|exact R]]|].
      split; [rewrite L, El, <- app_assoc; reflexivity|].
      split.
      { rewrite Hh, Eh. cbn [history_rows]. rewrite <- app_assoc. reflexivity. }
      split; [rewrite last_cons; exact Hlast|].
      split; [lia|]. split; [discriminate|].
      split; [intros Q1 Q2; rewrite (Hfull Q1 Q2); reflexivity|].
      rewrite Hn, En, length_app. lia.
Qed.

Local Notation "'battle'" :=
  (simulate_battle fetch_type rand p1 p1_move p2 p2_move).

(** A returned battle, round by round. *)
Lemma battle_structure (n n' : nat) (log : list TurnEvent)
    (hist : list HpSample) (winner : string) :
  battle n = Ok (log, hist, winner, n') ->
  exists st rs,
    run_rounds (range 1 101) (initial_state p1 p2) n = Ok (st, n') /\
    rounds_of 1 (hp (stats p1), hp (stats p2)) n rs /\
    log = List.concat (map fst rs) /\
    hist = history_rows (name p1) (name p2) 0
             ((hp (stats p1), hp (stats p2)) :: map snd rs) /\
    winner = winner_of p1 p2 st /\
    (p1_hp st, p2_hp st) = last (map snd rs) (hp (stats p1), hp (stats p2)) /\
    (1 <= List.length rs <= 100)%nat /\
    (0 < p1_hp st -> 0 < p2_hp st -> List.length rs = 100%nat) /\
    n' = (n + List.length rs * tie_draws + List.length log)%nat.
Proof.
  intros H. apply simulate_battle_inv in H.
  destruct H as (st & H & -> & -> & ->). exists st.
  destruct (rounds_structure 100 1 _ _ _ _ H)
    as (rs & R & L & Hh & Hlast & Hlen & Hne & Hfull & Hn).
  exists rs. cbn [initial_state p1_hp p2_hp battle_log hp_history] in *.
  split; [exact H|]. split; [exact R|]. split; [exact L|].
  split; [rewrite Hh; reflexivity|]. split; [reflexivity|].
  split; [exact Hlast|]. split.
  { split; [|exact Hlen]. destruct rs; [now destruct Hne|simpl; lia]. }
  split; [exact Hfull|]. rewrite L. exact Hn.
Qed.

(** A round with a single event ends with a side at 0. *)
Lemma round_single_ends (k : Z) (h h' : Z * Z) (n : nat) (e : TurnEvent) :
  round_of k h n [e] h' -> fst h' <= 0 \/ snd h' <= 0.
Proof.
  intros [(_ & _ & [(e1 & E & _ & Hd & _ & ->)|(e1 & e2 & E & _)])
         |(_ & _ & [(e1 & E & _ & Hd & _ & ->)|(e1 & e2 & E & _)])];
    try discriminate E; auto.
Qed.

Lemma rounds_ok_inv (k : Z) (h h' : Z * Z) (n : nat) (evs : list TurnEvent)
    (rest : list (list TurnEvent * (Z * Z))) :
  rounds_of k h n ((evs, h') :: rest) ->
  round_of k h n evs h' /\
  rounds_of (k + 1) h' (n + tie_draws + List.length evs)%nat rest /\
  ((exists e1 e2, evs = [e1; e2]) \/ (exists e1, evs = [e1] /\ rest = [])).
Proof.
  intros (Hr & Hpos & R). split; [exact Hr|]. split; [exact R|].
  assert (Hshape : (exists e1 e2, evs = [e1; e2]) \/ (exists e1, evs = [e1])).
  { destruct Hr as [(_ & _ & [(e1 & E & _)|(e1 & e2 & E & _)])
                   |(_ & _ & [(e1 & E & _)|(e1 & e2 & E & _)])]; eauto. }
  destruct Hshape as [Htwo|(e1 & ->)]; [left; exact Htwo|].
  right. exists e1. split; [reflexivity|].
  destruct rest as [|r rest]; [reflexivity|]. exfalso.
  apply round_single_ends in Hr.
  destruct Hpos as [Q1 Q2]; [discriminate|]. lia.
Qed.

(** The event at position [i] of the log belongs to round [i / 2], at the
    position given by the parity of [i]. *)
Lemma rounds_ok_event (rs : list (list TurnEvent * (Z * Z))) :
  forall k h n,
    rounds_of k h n rs ->
    forall i e,
      nth_error (List.concat (map fst rs)) i = Some e ->
      exists evs h' hprev,
        nth_error rs (Nat.div2 i) = Some (evs, h') /\
        nth_error evs (if Nat.even i then 0 else 1)%nat = Some e /\
        round_of (k + Z.of_nat (Nat.div2 i)) hprev
                 (n + Nat.div2 i * (tie_draws + 2))%nat evs h' /\
        nth_error (h :: map snd rs) (Nat.div2 i) = Some hprev.
Proof.
  induction rs as [|[evs h'] rest IH]; intros k h n R i e Hi.
  - destruct i; discriminate Hi.
  - apply rounds_ok_inv in R.
    destruct R as (Hr & R & [(e1 & e2 & ->)|(e1 & -> & ->)]).
    + cbn [map fst List.concat app] in Hi.
      destruct i as [|[|i]]; cbn [nth_error] in Hi.
      * injection Hi as <-. exists [e1; e2], h', h.
        cbn [Nat.div2 Nat.even nth_error Z.of_nat Nat.mul].
        rewrite Z.add_0_r, Nat.add_0_r. auto.
      * injection Hi as <-. exists [e1; e2], h', h.
        cbn [Nat.div2 Nat.even nth_error Z.of_nat Nat.mul].
        rewrite Z.add_0_r, Nat.add_0_r. auto.
      * apply (IH (k + 1) h' _ R) in Hi.
        destruct Hi as (evs & h'' & hprev & Hn & He & Hr' & Hp).
        exists evs, h'', hprev. cbn [Nat.div2 Nat.even nth_error map snd].
        split; [exact Hn|]. split; [exact He|]. split; [|exact Hp].
        replace (k + Z.of_nat (S (Nat.div2 i)))
          with (k + 1 + Z.of_nat (Nat.div2 i)) by lia.
        replace (n + S (Nat.div2 i) * (tie_draws + 2))%nat
          with (n + tie_draws + List.length [e1; e2]
                + Nat.div2 i * (tie_draws + 2))%nat
          by (cbn [List.length]; lia).
        exact Hr'.
    + cbn in Hi. destruct i as [|[|i]]; cbn in Hi; try discriminate Hi.
      injection Hi as <-. exists [e1], h', h.
      cbn [Nat.div2 Nat.even nth_error Z.of_nat Nat.mul].
      rewrite Z.add_0_r, Nat.add_0_r. auto.
Qed.

(** The row of round [k + j] is in the trace. *)
Lemma history_rows_nth (n1 n2 : string) (rows : list (Z * Z)) :
  forall k j h1 h2,
    nth_error rows j = Some (h1, h2) ->
    In {| round := k + Z.of_nat j; pokemon := n1; sample_hp := h1 |}
       (history_rows n1 n2 k rows) /\
    In {| round := k + Z.of_nat j; pokemon := n2; sample_hp := h2 |}
       (history_rows n1 n2 k rows).
Proof.
  induction rows as [|[a b] rows IH]; intros k j h1 h2 Hj.
  - destruct j; discriminate Hj.
  - destruct j as [|j]; cbn [nth_error history_rows] in *.
    + injection Hj as <- <-. rewrite Z.add_0_r. simpl. auto.
    + destruct (IH (k + 1) j h1 h2 Hj) as [I1 I2].
      replace (k + Z.of_nat (S j)) with (k + 1 + Z.of_nat j) by lia.
      simpl. auto.
Qed.

Lemma history_rows_length (n1 n2 : string) (rows : list (Z * Z)) :
  forall k,
    List.length (history_rows n1 n2 k rows) = (2 * List.length rows)%nat.
Proof.
  induction rows as [|[a b] rows IH]; intros k; [reflexivity|].
  cbn [history_rows List.length]. rewrite IH. lia.
Qed.

(** Every round but a last, cut one has two events. *)
Lemma rounds_ok_length (rs : list (list TurnEvent * (Z * Z))) :
  forall k h n,
    rounds_of k h n rs ->
    let events := List.length (List.concat (map fst rs)) in
    let final := last (map snd rs) h in
    events = (2 * List.length rs)%nat \/
    (S events = (2 * List.length rs)%nat /\ (fst final <= 0 \/ snd final <= 0)).
Proof.
  induction rs as [|[evs h'] rest IH]; intros k h n R; [left; reflexivity|].
  apply rounds_ok_inv in R.
  destruct R as (Hr & R & [(e1 & e2 & ->)|(e1 & -> & ->)]).
  - specialize (IH _ _ _ R). cbv zeta in *.
    cbn [map fst snd List.concat app List.length]. rewrite last_cons.
    destruct IH as [IH|[IH Hko]]; [left; lia|right; split; [lia|exact Hko]].
  - right. cbn. split; [reflexivity|].
    exact (round_single_ends _ _ _ _ _ Hr).
Qed.

(** Every logged event is the row of a hit by one side on the other. *)
Lemma event_logged (k : Z) (h : Z * Z) (n : nat)
    (rs : list (list TurnEvent * (Z * Z))) (e : TurnEvent) :
  rounds_of k h n rs -> In e (List.concat (map fst rs)) ->
  exists rnd hb draw,
    logged_hit fetch_type rand rnd p1 p1_move p2 hb draw e \/
    logged_hit fetch_type rand rnd p2 p2_move p1 hb draw e.
Proof.
  intros R Hin. apply In_nth_error in Hin. destruct Hin as (i & Hi).
  destruct (rounds_ok_event rs k h n R i e Hi)
    as (evs & h' & hprev & _ & He & Hr & _).
  destruct Hr as [(_ & _ & [(e1 & -> & L & _)
                           |(e1 & e2 & -> & L1 & _ & L2 & _)])
                 |(_ & _ & [(e1 & -> & L & _)
                           |(e1 & e2 & -> & L1 & _ & L2 & _)])];
    destruct (Nat.even i); cbn in He; try discriminate He;
    injection He as <-; eauto.
Qed.

Lemma effectiveness_label_not_missed (eff : float) :
  effectiveness_label eff <> "Missed!".
Proof.
  unfold effectiveness_label.
  destruct (feqb eff f0_0), (fleb f4_0 eff), (fleb f2_0 eff),
    (fleb eff f0_25), (fltb eff f1_0); discriminate.
Qed.

(** X10. Every row of the battle log is consistent: the defender's HP is
    never negative; the note is "Missed!" exactly when the damage is 0 and
    the effectiveness is not 0, and is the effectiveness label otherwise;
    the effectiveness is the one of the attacker's move against the
    defender's types; an effectiveness of 0 comes with a damage of 0; and on
    valid combatants and moves the damage is never negative. *)
Theorem log_rows_consistent (n n' : nat) (log : list TurnEvent)
    (hist : list HpSample) (winner : string) :
  simulate_battle fetch_type rand p1 p1_move p2 p2_move n
    = Ok (log, hist, winner, n') ->
  forall e, In e log ->
    0 <= Defender_HP e
    /\ (Note e = "Missed!" <->
        Damage e = 0 /\ feqb (Effectiveness e) f0_0 = false)
    /\ (Note e <> "Missed!" ->
        Note e = effectiveness_label (Effectiveness e))
    /\ ((hit_by p1 p1_move e /\
         Effectiveness e =
           get_type_effectiveness fetch_type (move_type p1_move) (types p2))
        \/ (hit_by p2 p2_move e /\
            Effectiveness e =
              get_type_effectiveness fetch_type (move_type p2_move)
                                     (types p1)))
    /\ (feqb (Effectiveness e) f0_0 = true -> Damage e = 0)
    /\ (valid_pokemon p1 -> valid_pokemon p2 ->
        valid_move p1_move -> valid_move p2_move -> 0 <= Damage e).
Proof.
  intros H e Hin. apply battle_structure in H.
  destruct H as (st & rs & _ & R & -> & _).
  destruct (event_logged _ _ _ _ _ R Hin) as (rnd & hb & draw & L).
  assert (Hcommon :
            0 <= Defender_HP e /\
            Note e = (if missed_flag (Damage e) (Effectiveness e)
                      then "Missed!"
                      else effectiveness_label (Effectiveness e)) /\
            (feqb (Effectiveness e) f0_0 = true -> Damage e = 0)).
  { destruct L as [(_ & _ & _ & _ & Nt & Dh & Hz & _)
                  |(_ & _ & _ & _ & Nt & Dh & Hz & _)];
      (split; [lia|split; assumption]). }
  destruct Hcommon as (Hnn & Nt & Hz).
  split; [exact Hnn|]. split; [|split; [|split; [|split; [exact Hz|]]]].
  - rewrite Nt. unfold missed_flag.
    destruct (Z.eqb_spec (Damage e) 0) as [Hd|Hd];
      destruct (feqb (Effectiveness e) f0_0); cbn [andb negb]; split;
      try tauto; try (intros [? ?]; congruence);
      intros Hl; now apply effectiveness_label_not_missed in Hl.
  - intros Hnot. rewrite Nt in *.
    destruct (missed_flag (Damage e) (Effectiveness e));
      [now destruct Hnot|reflexivity].
  - unfold hit_by.
    destruct L as [(_ & A & Mv & Ef & _)|(_ & A & Mv & Ef & _)]; auto.
  - intros V1 V2 M1 M2.
    destruct L as [(_ & _ & _ & _ & _ & _ & _ & Hv & _)
                  |(_ & _ & _ & _ & _ & _ & _ & Hv & _)]; auto.
Qed.

(** X11. Rounds are logged in order and the faster side attacks first: the
    event at position [i] of the log belongs to round 1 + i / 2, and when
    the speeds differ the events at even positions are hits of the faster
    side and those at odd positions hits of the slower side. *)
Theorem faster_side_attacks_first (n n' : nat) (log : list TurnEvent)
    (hist : list HpSample) (winner : string) :
  simulate_battle fetch_type rand p1 p1_move p2 p2_move n
    = Ok (log, hist, winner, n') ->
  forall i e, nth_error log i = Some e ->
    Round e = 1 + Z.of_nat (Nat.div2 i)
    /\ (speed (stats p2) < speed (stats p1) ->
        if Nat.even i then hit_by p1 p1_move e else hit_by p2 p2_move e)
    /\ (speed (stats p1) < speed (stats p2) ->
        if Nat.even i then hit_by p2 p2_move e else hit_by p1 p1_move e).
Proof.
  intros H i e Hi. apply battle_structure in H.
  destruct H as (st & rs & _ & R & -> & _).
  destruct (rounds_ok_event rs _ _ _ R i e Hi)
    as (evs & h' & hprev & _ & He & Hr & _).
  unfold hit_by.
  destruct Hr as [(Hs & _ & [(e1 & -> & L & _)|(e1 & e2 & -> & L1 & _ & L2 & _)])
                 |(Hs & _ & [(e1 & -> & L & _)|(e1 & e2 & -> & L1 & _ & L2 & _)])];
    destruct (Nat.even i); cbn in He; try discriminate He;
    injection He as <-;
    repeat match goal with
           | L : logged_hit _ _ _ _ _ _ _ _ _ |- _ =>
               destruct L as (? & ? & ? & _)
           end;
    (split; [assumption|]); split; intros; first [lia|auto].
Qed.

Lemma round_hp_nonneg (k : Z) (h h' : Z * Z) (n : nat)
    (evs : list TurnEvent) :
  round_of k h n evs h' -> 0 <= fst h -> 0 <= snd h ->
  0 <= fst h' /\ 0 <= snd h'.
Proof.
  intros Hr Q1 Q2.
  destruct Hr as [(_ & _ & [(e1 & _ & L & _ & -> & ->)
                       |(e1 & e2 & _ & L1 & _ & L2 & -> & ->)])
                 |(_ & _ & [(e1 & _ & L & _ & -> & ->)
                       |(e1 & e2 & _ & L1 & _ & L2 & -> & ->)])];
    repeat match goal with
           | L : logged_hit _ _ _ _ _ _ _ _ _ |- _ =>
               destruct L as (_ & _ & _ & _ & _ & ? & _)
           end; lia.
Qed.

Lemma rounds_final_nonneg (rs : list (list TurnEvent * (Z * Z))) :
  forall k h n,
    rounds_of k h n rs -> 0 <= fst h -> 0 <= snd h ->
    0 <= fst (last (map snd rs) h) /\ 0 <= snd (last (map snd rs) h).
Proof.
  induction rs as [|[evs h'] rest IH]; intros k h n R Q1 Q2; [cbn; auto|].
  destruct R as (Hr & _ & R). cbn [map snd]. rewrite last_cons.
  destruct (round_hp_nonneg _ _ _ _ _ Hr Q1 Q2) as [Q1' Q2'].
  exact (IH _ _ _ R Q1' Q2').
Qed.

(** Both sides stand in every row of the trace but the last. *)
Lemma rounds_rows_positive (rs : list (list TurnEvent * (Z * Z))) :
  forall k h n,
    rounds_of k h n rs -> 0 < fst h -> 0 < snd h ->
    Forall (fun r => 0 < fst r /\ 0 < snd r) (removelast (h :: map snd rs)).
Proof.
  induction rs as [|[evs h'] rest IH]; intros k h n R Q1 Q2; [constructor|].
  destruct R as (Hr & Hpos & R). cbn [map snd].
  change (removelast (h :: h' :: map snd rest))
    with (h :: removelast (h' :: map snd rest)).
  constructor; [auto|].
  destruct rest as [|r rest]; [constructor|].
  destruct Hpos as [Q1' Q2']; [discriminate|].
  exact (IH _ _ _ R Q1' Q2').
Qed.

(** The last round starts with both sides standing. *)
Lemma rounds_ok_last (rs : list (list TurnEvent * (Z * Z))) :
  forall k h n,
    rounds_of k h n rs -> 0 < fst h -> 0 < snd h -> rs <> [] ->
    exists rs' evs h' k' hp n',
      rs = rs' ++ [(evs, h')] /\ 0 < fst hp /\ 0 < snd hp /\
      round_of k' hp n' evs h'.
Proof.
  induction rs as [|[evs h'] rest IH]; intros k h n R Q1 Q2 Hne;
    [contradiction|].
  destruct R as (Hr & Hpos & R). destruct rest as [|r rest].
  - exists [], evs, h', k, h, n. auto.
  - destruct Hpos as [Q1' Q2']; [discriminate|].
    destruct (IH _ _ _ R Q1' Q2')
      as (rs' & evs' & h'' & k' & hp & n' & E & Hp); [discriminate|].
    exists ((evs, h') :: rs'), evs', h'', k', hp, n'. rewrite E. auto.
Qed.

(** X12. In a battle that starts with both sides above 0 HP, the trace
    shows both sides above 0 in every row but the last, and its last row
    decides the winner: the side whose HP is 0 there loses to the other,
    whose HP is positive; when both are positive, 100 rounds were played
    and the winner is the 100-round message. *)
Theorem trace_decides_winner (n n' : nat) (log : list TurnEvent)
    (hist : list HpSample) (winner : string) :
  0 < hp (stats p1) -> 0 < hp (stats p2) ->
  simulate_battle fetch_type rand p1 p1_move p2 p2_move n
    = Ok (log, hist, winner, n') ->
  exists rows h1 h2,
    hist = history_rows (name p1) (name p2) 0 (rows ++ [(h1, h2)])
    /\ Forall (fun r => 0 < fst r /\ 0 < snd r) rows
    /\ ((winner = title (name p1) /\ 0 < h1 /\ h2 = 0)
        \/ (winner = title (name p2) /\ h1 = 0 /\ 0 < h2)
        \/ (winner = "Draw — 100-round limit reached!" /\
            0 < h1 /\ 0 < h2 /\ List.length rows = 100%nat)).
Proof.
  intros H1 H2 H. apply battle_structure in H.
  destruct H as (st & rs & Hrun & R & _ & -> & -> & Hlast & Hlen & Hfull & _).
  set (start := (hp (stats p1), hp (stats p2))) in *.
  assert (Hsplit : start :: map snd rs =
            removelast (start :: map snd rs) ++ [(p1_hp st, p2_hp st)]).
  { rewrite Hlast, <- (last_cons (map snd rs) start start).
    apply app_removelast_last. discriminate. }
  assert (Hone := rounds_one_standing fetch_type rand p1 p1_move p2 p2_move
                    _ (initial_state p1 p2) _ _ _ H1 H2 Hrun).
  assert (Hnn := rounds_final_nonneg rs 1 start n R
                   ltac:(cbn; lia) ltac:(cbn; lia)).
  rewrite <- Hlast in Hnn. cbn [fst snd] in Hnn.
  exists (removelast (start :: map snd rs)), (p1_hp st), (p2_hp st).
  split; [rewrite <- Hsplit; reflexivity|].
  split; [exact (rounds_rows_positive rs 1 start n R H1 H2)|].
  unfold winner_of.
  destruct (p1_hp st <=? 0) eqn:E1, (p2_hp st <=? 0) eqn:E2; cbn [andb].
  - exfalso. lia.
  - right. left. repeat split; lia.
  - left. repeat split; lia.
  - right. right. split; [reflexivity|]. split; [lia|]. split; [lia|].
    apply (f_equal (@List.length _)) in Hsplit.
    rewrite length_app in Hsplit. cbn [List.length] in Hsplit.
    rewrite length_map in Hsplit. rewrite Hfull in Hsplit by lia. lia.
Qed.

(** X13. In a battle that starts with both sides above 0 HP and does not
    run into the 100-round limit, the last row of the log is the knockout:
    its defender is at 0 HP and its attacker is the winner. *)
Theorem winner_lands_last_hit (n n' : nat) (log : list TurnEvent)
    (hist : list HpSample) (winner : string) :
  0 < hp (stats p1) -> 0 < hp (stats p2) ->
  simulate_battle fetch_type rand p1 p1_move p2 p2_move n
    = Ok (log, hist, winner, n') ->
  winner <> "Draw — 100-round limit reached!" ->
  exists before e,
    log = before ++ [e] /\ Defender_HP e = 0 /\ Attacker e = winner.
Proof.
  intros H1 H2 H Hnot. apply battle_structure in H.
  destruct H as (st & rs & Hrun & R & -> & _ & -> & Hlast & Hlen & _).
  destruct (rounds_ok_last rs _ _ _ R H1 H2)
    as (rs' & evs & [h1 h2] & k' & hp & nl & -> & Q1 & Q2 & Hr).
  { intros ->. simpl in Hlen. lia. }
  rewrite map_app in Hlast. cbn [map snd] in Hlast.
  rewrite last_last in Hlast. injection Hlast as E1 E2.
  rewrite map_app, concat_app. cbn [map fst List.concat].
  rewrite app_nil_r.
  unfold winner_of in *. rewrite E1, E2 in *.
  unfold round_ok, exchange in Hr. cbn [fst snd] in Hr.
  destruct Hr as [(_ & _ & [(e1 & -> & L & Hd & -> & ->)
                       |(e1 & e2 & -> & L1 & Hd & L2 & -> & ->)])
                 |(_ & _ & [(e1 & -> & L & Hd & -> & ->)
                       |(e1 & e2 & -> & L1 & Hd & L2 & -> & ->)])];
    repeat match goal with
           | L : logged_hit _ _ _ _ _ _ _ _ _ |- _ =>
               destruct L as (_ & ? & _ & _ & _ & ? & _)
           end.
  - exists (List.concat (map fst rs')), e1.
    destruct (fst hp <=? 0) eqn:T1; [lia|].
    destruct (Defender_HP e1 <=? 0) eqn:T2; [|lia]. cbn [andb].
    repeat split; [lia|auto].
  - exists (List.concat (map fst rs') ++ [e1]), e2.
    rewrite <- app_assoc.
    destruct (Defender_HP e1 <=? 0) eqn:T2; [lia|].
    destruct (Defender_HP e2 <=? 0) eqn:T1; cbn [andb] in *;
      [|now destruct Hnot].
    repeat split; [lia|auto].
  - exists (List.concat (map fst rs')), e1.
    destruct (snd hp <=? 0) eqn:T1; [lia|].
    destruct (Defender_HP e1 <=? 0) eqn:T2; [|lia]. cbn [andb].
    repeat split; [lia|auto].
  - exists (List.concat (map fst rs') ++ [e1]), e2.
    rewrite <- app_assoc.
    destruct (Defender_HP e1 <=? 0) eqn:T2; [lia|].
    destruct (Defender_HP e2 <=? 0) eqn:T1; cbn [andb] in *;
      [|now destruct Hnot].
    repeat split; [lia|auto].
Qed.

(** X14. The log and the trace agree. For every row of the log, the HP it
    gives for its defender is the HP that the trace records for that side
    at the same round, and it is max(0, previous HP - damage), where the
    previous HP is the one that the trace records for that side at the
    round before. *)
Theorem log_matches_trace (n n' : nat) (log : list TurnEvent)
    (hist : list HpSample) (winner : string) :
  simulate_battle fetch_type rand p1 p1_move p2 p2_move n
    = Ok (log, hist, winner, n') ->
  forall e, In e log ->
    (hit_by p1 p1_move e /\
     In {| round := Round e; pokemon := name p2;
           sample_hp := Defender_HP e |} hist /\
     exists before,
       In {| round := Round e - 1; pokemon := name p2;
             sample_hp := before |} hist /\
       Defender_HP e = Z.max 0 (before - Damage e))
    \/ (hit_by p2 p2_move e /\
        In {| round := Round e; pokemon := name p1;
              sample_hp := Defender_HP e |} hist /\
        exists before,
          In {| round := Round e - 1; pokemon := name p1;
                sample_hp := before |} hist /\
          Defender_HP e = Z.max 0 (before - Damage e)).
Proof.
  intros H e Hin. apply battle_structure in H.
  destruct H as (st & rs & _ & R & -> & -> & _).
  apply In_nth_error in Hin. destruct Hin as (i & Hi).
  destruct (rounds_ok_event rs _ _ _ R i e Hi)
    as (evs & [h1 h2] & [b1 b2] & Hn & He & Hr & Hp).
  set (start := (hp (stats p1), hp (stats p2))) in *.
  assert (Hrow : nth_error (start :: map snd rs) (S (Nat.div2 i))
                 = Some (h1, h2)).
  { cbn [nth_error]. rewrite nth_error_map, Hn. reflexivity. }
  destruct (history_rows_nth (name p1) (name p2) _ 0 _ _ _ Hrow) as [I1 I2].
  destruct (history_rows_nth (name p1) (name p2) _ 0 _ _ _ Hp) as [J1 J2].
  replace (0 + Z.of_nat (S (Nat.div2 i))) with (1 + Z.of_nat (Nat.div2 i))
    in I1, I2 by lia.
  replace (0 + Z.of_nat (Nat.div2 i)) with (1 + Z.of_nat (Nat.div2 i) - 1)
    in J1, J2 by lia.
  unfold round_ok, exchange in Hr. cbn [fst snd] in Hr. unfold hit_by.
  destruct Hr as [(_ & _ & [(e1 & -> & L & _ & -> & ->)
                       |(e1 & e2 & -> & L1 & _ & L2 & -> & ->)])
                 |(_ & _ & [(e1 & -> & L & _ & -> & ->)
                       |(e1 & e2 & -> & L1 & _ & L2 & -> & ->)])];
    destruct (Nat.even i); cbn in He; try discriminate He;
    injection He as <-;
    repeat match goal with
           | L : logged_hit _ _ _ _ _ _ _ _ _ |- _ =>
               destruct L as (? & ? & ? & _ & _ & ? & _)
           end;
    repeat match goal with
           | Hround : Round _ = _ |- _ => rewrite Hround; clear Hround
           end; eauto 7.
Qed.

Lemma to_upper_not_lower (c : ascii) : is_lower (to_upper c) = false.
Proof. destruct c as [[] [] [] [] [] [] [] []]; reflexivity. Qed.

Lemma hyphen_is_uncased (c : ascii) :
  to_lower c = "-"%char \/ to_upper c = "-"%char ->
  is_upper c || is_lower c = false.
Proof.
  destruct c as [[] [] [] [] [] [] [] []]; vm_compute;
    intros [H|H]; try reflexivity; discriminate H.
Qed.

(** [str.title()] capitalises the letter after a hyphen, so no name is
    titled to the 100-round message. *)
Lemma title_not_timeout (s : string) :
  title s <> "Draw — 100-round limit reached!".
Proof.
  unfold title.
  destruct s as [|c0 [|c1 [|c2 [|c3 [|c4 [|c5 [|c6 [|c7 [|c8 [|c9 [|c10
                [|c11 [|c12 [|c13 s]]]]]]]]]]]]]]; cbn [title_from];
    try discriminate.
  intros H. injection H as _ _ _ _ _ _ _ _ _ _ _ _ H12 H13 _.
  assert (Hc : is_upper c12 || is_lower c12 = false).
  { apply hyphen_is_uncased.
    destruct (is_upper c11 || is_lower c11); auto. }
  rewrite Hc in H13.
  assert (Hl := to_upper_not_lower c13). rewrite H13 in Hl. discriminate Hl.
Qed.

(** X15. A returned battle played r rounds, 1 <= r <= 100: the trace has
    2 + 2 r samples; the log has 2 r rows, or 2 r - 1 when the last round
    was cut short by a knockout; the random source was advanced by one
    draw per logged row plus, when the speeds are equal, one draw per
    round. The 100-round message is returned only after 100 full rounds. *)
Theorem battle_accounting (n n' : nat) (log : list TurnEvent)
    (hist : list HpSample) (winner : string) :
  simulate_battle fetch_type rand p1 p1_move p2 p2_move n
    = Ok (log, hist, winner, n') ->
  exists r,
    (1 <= r <= 100)%nat
    /\ List.length hist = (2 + 2 * r)%nat
    /\ (List.length log = (2 * r)%nat \/ S (List.length log) = (2 * r)%nat)
    /\ n' = (n + List.length log + r * order_draws p1 p2)%nat
    /\ (winner = "Draw — 100-round limit reached!" ->
        r = 100%nat /\ List.length log = 200%nat).
Proof.
  intros H. apply battle_structure in H.
  destruct H as (st & rs & _ & R & -> & -> & -> & Hlast & Hlen & Hfull & ->).
  exists (List.length rs). split; [exact Hlen|].
  split.
  { rewrite history_rows_length. cbn [List.length]. rewrite length_map. lia. }
  assert (Hcount := rounds_ok_length rs _ _ _ R). cbv zeta in Hcount.
  split; [destruct Hcount as [Hc|[Hc _]]; auto|]. split; [lia|].
  unfold winner_of.
  destruct (p1_hp st <=? 0) eqn:E1, (p2_hp st <=? 0) eqn:E2; cbn [andb];
    intros Hw; try discriminate Hw;
    try (now apply title_not_timeout in Hw).
  rewrite <- Hlast in Hcount. cbn [fst snd] in Hcount.
  assert (Hr : List.length rs = 100%nat) by (apply Hfull; lia).
  split; [exact Hr|]. destruct Hcount as [Hc|[_ Hko]]; lia.
Qed.

Lemma even_succ_div2 (i : nat) :
  Nat.even i = true ->
  Nat.div2 (S i) = Nat.div2 i /\ Nat.even (S i) = false.
Proof.
  assert (H : forall j,
             (Nat.even j = true ->
              Nat.div2 (S j) = Nat.div2 j /\ Nat.even (S j) = false) /\
             (Nat.even (S j) = true ->
              Nat.div2 (S (S j)) = Nat.div2 (S j) /\
              Nat.even (S (S j)) = false)).
  { induction j as [|j [IH1 IH2]].
    - split; [intros _; split; reflexivity|intros H; discriminate H].
    - split; [exact IH2|]. intros He. cbn [Nat.even] in He.
      destruct (IH1 He) as [D E]. split.
      + change (Nat.div2 (S (S (S j)))) with (S (Nat.div2 (S j))).
        rewrite D. reflexivity.
      + exact E. }
  apply H.
Qed.

(** X18. In a round that both sides play, each side attacks once: the rows
    at positions 2j and 2j + 1 of the log belong to the same round, the
    first of them leaves its defender standing, and one of them is a hit of
    the first side, the other a hit of the second side. *)
Theorem both_sides_act_each_round (n n' : nat) (log : list TurnEvent)
    (hist : list HpSample) (winner : string) :
  simulate_battle fetch_type rand p1 p1_move p2 p2_move n
    = Ok (log, hist, winner, n') ->
  forall i e e',
    Nat.even i = true ->
    nth_error log i = Some e -> nth_error log (S i) = Some e' ->
    Round e = Round e' /\ 0 < Defender_HP e
    /\ ((hit_by p1 p1_move e /\ hit_by p2 p2_move e')
        \/ (hit_by p2 p2_move e /\ hit_by p1 p1_move e')).
Proof.
  intros H i e e' Hev Hi Hi'. apply battle_structure in H.
  destruct H as (st & rs & _ & R & -> & _).
  destruct (even_succ_div2 i Hev) as [Hd Hev'].
  destruct (rounds_ok_event rs _ _ _ R i e Hi)
    as (evs & h' & hprev & Hn & He & Hr & _).
  destruct (rounds_ok_event rs _ _ _ R (S i) e' Hi')
    as (evs' & h'' & hprev' & Hn' & He' & _).
  rewrite Hd, Hn in Hn'. injection Hn' as <- <-.
  rewrite Hev in He. rewrite Hev' in He'. unfold hit_by.
  destruct Hr as [(_ & _ & [(e1 & -> & L & _)|(e1 & e2 & -> & L1 & Hd1 & L2 & _)])
                 |(_ & _ & [(e1 & -> & L & _)|(e1 & e2 & -> & L1 & Hd1 & L2 & _)])];
    cbn in He, He'; try discriminate He';
    injection He as <-; injection He' as <-;
    destruct L1 as (R1 & A1 & M1 & _); destruct L2 as (R2 & A2 & M2 & _);
    (split; [congruence|]); (split; [exact Hd1|]); auto.
Qed.

Lemma parity_div2 (i : nat) :
  i = (2 * Nat.div2 i + (if Nat.even i then 0 else 1))%nat.
Proof.
  assert (H := Nat.div2_odd i). rewrite <- Nat.negb_even in H.
  destruct (Nat.even i); cbn [negb Nat.b2n] in H; exact H.
Qed.

(** X19. A battle is a function of the draws. The hit logged at position
    i (from 0), in round j + 1 with j = i div 2, consumed the random value
    number n + i + (j + 1) t, where n is the number of values drawn before
    the battle and t is 1 when the speeds are equal and 0 otherwise: the
    damage and the effectiveness of the row are those that
    [calculate_damage] returns at that value. With equal speeds the turn
    order of round j + 1 was decided by the value number n + 3 j: the first
    side attacks first exactly when that value is below 0.5. *)
Theorem battle_follows_draws (n n' : nat) (log : list TurnEvent)
    (hist : list HpSample) (winner : string) :
  simulate_battle fetch_type rand p1 p1_move p2 p2_move n
    = Ok (log, hist, winner, n') ->
  forall i e, nth_error log i = Some e ->
    let j := Nat.div2 i in
    let draw := (n + i + (j + 1) * order_draws p1 p2)%nat in
    ((hit_by p1 p1_move e /\
      exists missed,
        calculate_damage fetch_type rand (stats p1) (stats p2) (types p2)
                         p1_move draw
        = Ok (Damage e, Effectiveness e, missed, S draw))
     \/ (hit_by p2 p2_move e /\
         exists missed,
           calculate_damage fetch_type rand (stats p2) (stats p1) (types p1)
                            p2_move draw
           = Ok (Damage e, Effectiveness e, missed, S draw)))
    /\ (speed (stats p1) = speed (stats p2) -> Nat.even i = true ->
        if fltb (rand (n + 3 * j)) f0_5 then hit_by p1 p1_move e
        else hit_by p2 p2_move e).
Proof.
  intros H i e Hi j draw. apply battle_structure in H.
  destruct H as (st & rs & _ & R & -> & _).
  destruct (rounds_ok_event rs _ _ _ R i e Hi)
    as (evs & h' & hprev & _ & He & Hr & _).
  fold j in He, Hr. assert (Hpar := parity_div2 i). fold j in Hpar.
  set (t := order_draws p1 p2) in *.
  assert (Htie : speed (stats p1) = speed (stats p2) ->
                 (n + j * (t + 2))%nat = (n + 3 * j)%nat).
  { intros Heq. unfold t, order_draws. rewrite Heq, Z.eqb_refl. lia. }
  unfold hit_by.
  destruct Hr as [(_ & Hlt & [(e1 & -> & L & _)
                             |(e1 & e2 & -> & L1 & _ & L2 & _)])
                 |(_ & Hlt & [(e1 & -> & L & _)
                             |(e1 & e2 & -> & L1 & _ & L2 & _)])];
    destruct (Nat.even i); cbn in He; try discriminate He;
    injection He as <-;
    repeat match goal with
           | L : logged_hit _ _ _ _ _ _ _ _ _ |- _ =>
               let A := fresh "A" in
               let Mv := fresh "Mv" in
               let ms := fresh "ms" in
               let Hc := fresh "Hc" in
               destruct L as (_ & A & Mv & _ & _ & _ & _ & _ & ms & Hc)
           end;
    (split;
     [first [left; split; [auto|]; eexists;
             match goal with
             | Hc : calculate_damage _ _ _ _ _ _ ?d = _ |- _ =>
                 replace draw with d by (unfold draw; nia); exact Hc
             end
            |right; split; [auto|]; eexists;
             match goal with
             | Hc : calculate_damage _ _ _ _ _ _ ?d = _ |- _ =>
                 replace draw with d by (unfold draw; nia); exact Hc
             end]
     |intros Heq Hev; try discriminate Hev;
      rewrite <- (Htie Heq), (Hlt Heq); auto]).
Qed.

Local Notation "'eff_on_p2'" :=
  (get_type_effectiveness fetch_type (move_type p1_move) (types p2)).
Local Notation "'eff_on_p1'" :=
  (get_type_effectiveness fetch_type (move_type p2_move) (types p1)).

(** A side that is immune to the other side's move keeps its HP through a
    round. *)
Lemma immune_round (k : Z) (h h' : Z * Z) (n : nat)
    (evs : list TurnEvent) :
  round_of k h n evs h' ->
  (feqb eff_on_p2 f0_0 = true -> 0 < snd h -> snd h' = snd h) /\
  (feqb eff_on_p1 f0_0 = true -> 0 < fst h -> fst h' = fst h).
Proof.
  intros Hr. split; intros Himm Hpos;
    destruct Hr as [(_ & _ & [(e1 & _ & L & Hd & ? & ?)
                         |(e1 & e2 & _ & L1 & Hd & L2 & ? & ?)])
                   |(_ & _ & [(e1 & _ & L & Hd & ? & ?)
                         |(e1 & e2 & _ & L1 & Hd & L2 & ? & ?)])];
    repeat match goal with
           | L : logged_hit _ _ _ _ _ _ _ _ _ |- _ =>
               let Ef := fresh "Ef" in
               let Hz := fresh "Hz" in
               destruct L as (_ & _ & _ & Ef & _ & ? & Hz & _);
               rewrite Ef in Hz; try specialize (Hz Himm)
           end; lia.
Qed.

Lemma immune_rounds (rs : list (list TurnEvent * (Z * Z))) :
  forall k h n,
    rounds_of k h n rs ->
    (feqb eff_on_p2 f0_0 = true -> 0 < snd h ->
     Forall (fun r => snd r = snd h) (map snd rs)) /\
    (feqb eff_on_p1 f0_0 = true -> 0 < fst h ->
     Forall (fun r => fst r = fst h) (map snd rs)).
Proof.
  induction rs as [|[evs h'] rest IH]; intros k h n R;
    [split; intros; constructor|].
  destruct R as (Hr & _ & R).
  destruct (immune_round _ _ _ _ _ Hr) as [I2 I1].
  destruct (IH _ _ _ R) as [IH2 IH1].
  split; intros Himm Hpos; cbn [map snd]; (constructor; [auto|]).
  - rewrite <- (I2 Himm Hpos). apply IH2; [exact Himm|].
    rewrite (I2 Himm Hpos). exact Hpos.
  - rewrite <- (I1 Himm Hpos). apply IH1; [exact Himm|].
    rewrite (I1 Himm Hpos). exact Hpos.
Qed.

Lemma Forall_last {A : Type} (P : A -> Prop) (l : list A) (d : A) :
  Forall P l -> P d -> P (last l d).
Proof.
  intros Hl. revert d. induction Hl as [|x l Hx Hl IH]; intros d Hd;
    [exact Hd|].
  rewrite last_cons. now apply IH.
Qed.

(** X16. A side that is immune to the move used against it (effectiveness
    0) and starts above 0 HP keeps its starting HP in every row of the
    trace, and the other side is never the winner by knockout: the result
    names the immune side or is the 100-round message. When both sides are
    immune, the battle always runs the full 100 rounds. *)
Theorem immune_side_never_loses (n n' : nat) (log : list TurnEvent)
    (hist : list HpSample) (winner : string) :
  simulate_battle fetch_type rand p1 p1_move p2 p2_move n
    = Ok (log, hist, winner, n') ->
  exists rows,
    hist = history_rows (name p1) (name p2) 0 rows
    /\ (feqb (get_type_effectiveness fetch_type (move_type p1_move)
                                     (types p2)) f0_0 = true ->
        0 < hp (stats p2) ->
        Forall (fun r => snd r = hp (stats p2)) rows /\
        (winner = title (name p2) \/
         winner = "Draw — 100-round limit reached!"))
    /\ (feqb (get_type_effectiveness fetch_type (move_type p2_move)
                                     (types p1)) f0_0 = true ->
        0 < hp (stats p1) ->
        Forall (fun r => fst r = hp (stats p1)) rows /\
        (winner = title (name p1) \/
         winner = "Draw — 100-round limit reached!"))
    /\ (feqb (get_type_effectiveness fetch_type (move_type p1_move)
                                     (types p2)) f0_0 = true ->
        feqb (get_type_effectiveness fetch_type (move_type p2_move)
                                     (types p1)) f0_0 = true ->
        0 < hp (stats p1) -> 0 < hp (stats p2) ->
        winner = "Draw — 100-round limit reached!" /\
        List.length rows = 101%nat /\ List.length log = 200%nat).
Proof.
  intros H. apply battle_structure in H.
  destruct H as (st & rs & _ & R & -> & -> & -> & Hlast & Hlen & Hfull & _).
  set (start := (hp (stats p1), hp (stats p2))) in *.
  exists (start :: map snd rs). split; [reflexivity|].
  destruct (immune_rounds rs _ _ _ R) as [I2 I1]. cbn [fst snd start] in I1, I2.
  assert (K2 : feqb eff_on_p2 f0_0 = true -> 0 < hp (stats p2) ->
               p2_hp st = hp (stats p2)).
  { intros Himm Hpos. change (p2_hp st) with (snd (p1_hp st, p2_hp st)).
    rewrite Hlast.
    apply (Forall_last (fun r => snd r = hp (stats p2))); auto. }
  assert (K1 : feqb eff_on_p1 f0_0 = true -> 0 < hp (stats p1) ->
               p1_hp st = hp (stats p1)).
  { intros Himm Hpos. change (p1_hp st) with (fst (p1_hp st, p2_hp st)).
    rewrite Hlast.
    apply (Forall_last (fun r => fst r = hp (stats p1))); auto. }
  unfold winner_of. split; [|split].
  - intros Himm Hpos. split; [constructor; auto|].
    specialize (K2 Himm Hpos).
    destruct (p1_hp st <=? 0) eqn:E1, (p2_hp st <=? 0) eqn:E2; cbn [andb];
      auto; lia.
  - intros Himm Hpos. split; [constructor; auto|].
    specialize (K1 Himm Hpos).
    destruct (p1_hp st <=? 0) eqn:E1, (p2_hp st <=? 0) eqn:E2; cbn [andb];
      auto; lia.
  - intros Himm2 Himm1 Hpos1 Hpos2.
    specialize (K1 Himm1 Hpos1). specialize (K2 Himm2 Hpos2).
    assert (Hr : List.length rs = 100%nat) by (apply Hfull; lia).
    destruct (p1_hp st <=? 0) eqn:E1, (p2_hp st <=? 0) eqn:E2; cbn [andb];
      try lia.
    split; [reflexivity|]. split; [simpl; rewrite length_map; lia|].
    assert (Hcount := rounds_ok_length rs _ _ _ R). cbv zeta in Hcount.
    rewrite <- Hlast in Hcount. cbn [fst snd] in Hcount.
    destruct Hcount as [Hc|[_ Hko]]; lia.
Qed.

(** A move that always lands and is at least half effective deals at
    least 1. *)
Lemma sure_hit_damage (attacker : Pokemon) (mv : MoveData)
    (defender : Pokemon) (n n' : nat) (dmg : Z) (eff : float)
    (missed : bool) :
  sure_hit fetch_type attacker mv defender -> unit_interval (rand n) ->
  calculate_damage fetch_type rand (stats attacker) (stats defender)
                   (types defender) mv n = Ok (dmg, eff, missed, n') ->
  1 <= dmg.
Proof.
  intros (Va & Vd & Vm & Hacc & Heff) [_ Hr].
  rewrite calculate_damage_eq, Hacc, accuracy_full_threshold, Hr.
  destruct (valid_stats_selected mv _ _ Va Vd) as [Hatk Hdfn].
  destruct (hit_damage _ _ _ _) as [dmg'|] eqn:Eh; [|discriminate].
  intros H. injection H as <- _ _ _.
  assert (Hlow : 2 ^ (1 + -1) <= dmg').
  { eapply hit_damage_lower;
      [exact Vm|exact Hatk|exact Hdfn|apply get_type_effectiveness_nonneg
      | |reflexivity|exact Eh].
    simpl in Heff. destruct Heff as [<-|[<-|[<-|[<-|[]]]]]; cbn; lia. }
  exact Hlow.
Qed.

Section SureHits.

Hypothesis draws_in_range : forall k, unit_interval (rand k).
Hypothesis sure1 : sure_hit fetch_type p1 p1_move p2.
Hypothesis sure2 : sure_hit fetch_type p2 p2_move p1.

Lemma sure_logged (rnd hb : Z) (draw : nat) (e : TurnEvent) :
  logged_hit fetch_type rand rnd p1 p1_move p2 hb draw e \/
  logged_hit fetch_type rand rnd p2 p2_move p1 hb draw e ->
  1 <= Damage e.
Proof.
  intros [L|L]; destruct L as (_ & _ & _ & _ & _ & _ & _ & _ & ms & Hc);
    eapply sure_hit_damage; try exact Hc; auto.
Qed.

(** A round that both sides survive costs each of them at least 1 HP. *)
Lemma sure_round (k : Z) (h h' : Z * Z) (n : nat) (evs : list TurnEvent) :
  round_of k h n evs h' -> 0 < fst h' -> 0 < snd h' ->
  fst h' <= fst h - 1 /\ snd h' <= snd h - 1.
Proof.
  intros Hr Q1 Q2.
  destruct Hr as [(_ & _ & [(e1 & _ & L & Hd & ? & ?)
                       |(e1 & e2 & _ & L1 & Hd & L2 & ? & ?)])
                 |(_ & _ & [(e1 & _ & L & Hd & ? & ?)
                       |(e1 & e2 & _ & L1 & Hd & L2 & ? & ?)])];
    try lia;
    assert (D1 := sure_logged _ _ _ _ (or_introl L1)) ||
    assert (D1 := sure_logged _ _ _ _ (or_intror L1));
    assert (D2 := sure_logged _ _ _ _ (or_introl L2)) ||
    assert (D2 := sure_logged _ _ _ _ (or_intror L2));
    destruct L1 as (_ & _ & _ & _ & _ & ? & _);
    destruct L2 as (_ & _ & _ & _ & _ & ? & _); lia.
Qed.

Lemma sure_rounds (rs : list (list TurnEvent * (Z * Z))) :
  forall k h n,
    rounds_of k h n rs ->
    (0 < fst h -> 0 < snd h ->
     Z.of_nat (List.length rs) <= Z.min (fst h) (snd h))
    /\ (0 < fst (last (map snd rs) h) -> 0 < snd (last (map snd rs) h) ->
        fst (last (map snd rs) h) <= fst h - Z.of_nat (List.length rs) /\
        snd (last (map snd rs) h) <= snd h - Z.of_nat (List.length rs)).
Proof.
  induction rs as [|[evs h'] rest IH]; intros k h n R; [cbn; lia|].
  destruct R as (Hr & Hpos & R). destruct (IH _ _ _ R) as [IHc IHf].
  cbn [map snd List.length]. rewrite last_cons. split.
  - intros Q1 Q2. destruct rest as [|r rest]; [cbn; lia|].
    destruct Hpos as [P1 P2]; [discriminate|].
    destruct (sure_round _ _ _ _ _ Hr P1 P2). specialize (IHc P1 P2). lia.
  - intros Q1 Q2.
    assert (P : 0 < fst h' /\ 0 < snd h').
    { destruct rest as [|r rest]; [cbn in Q1, Q2; auto|].
      apply Hpos. discriminate. }
    destruct P as [P1 P2].
    destruct (sure_round _ _ _ _ _ Hr P1 P2). specialize (IHf Q1 Q2). lia.
Qed.

End SureHits.

(** X17. When both moves always land (accuracy 100, absent or 0, draws in
    [0, 1)) and are at least half effective, on valid combatants that
    start above 0 HP, every logged hit deals at least 1 damage and none is
    noted as missed; the battle lasts at most min(hp1, hp2) rounds; and the
    100-round message is returned only if both sides started above 100 HP.
    So when a side starts with at most 100 HP the battle ends in a
    knockout. *)
Theorem sure_hits_end_in_knockout (n n' : nat) (log : list TurnEvent)
    (hist : list HpSample) (winner : string) :
  (forall k, unit_interval (rand k)) ->
  sure_hit fetch_type p1 p1_move p2 -> sure_hit fetch_type p2 p2_move p1 ->
  0 < hp (stats p1) -> 0 < hp (stats p2) ->
  simulate_battle fetch_type rand p1 p1_move p2 p2_move n
    = Ok (log, hist, winner, n') ->
  Forall (fun e => 1 <= Damage e /\ Note e <> "Missed!") log
  /\ (exists r,
        List.length hist = (2 + 2 * r)%nat /\
        Z.of_nat r <= Z.min (hp (stats p1)) (hp (stats p2)))
  /\ (winner = "Draw — 100-round limit reached!" ->
      100 < hp (stats p1) /\ 100 < hp (stats p2))
  /\ (hp (stats p1) <= 100 \/ hp (stats p2) <= 100 ->
      winner = title (name p1) \/ winner = title (name p2)).
Proof.
  intros Hdraws S1 S2 H1 H2 H. apply battle_structure in H.
  destruct H as (st & rs & Hrun & R & -> & -> & -> & Hlast & Hlen & Hfull & _).
  destruct (sure_rounds Hdraws S1 S2 rs _ _ _ R) as [Hcount Hfinal].
  rewrite <- Hlast in Hfinal. cbn [fst snd] in Hcount, Hfinal.
  assert (Hone := rounds_one_standing fetch_type rand p1 p1_move p2 p2_move
                    _ (initial_state p1 p2) _ _ _ H1 H2 Hrun).
  assert (Htimeout : winner_of p1 p2 st = "Draw — 100-round limit reached!" ->
                     100 < hp (stats p1) /\ 100 < hp (stats p2)).
  { unfold winner_of.
    destruct (p1_hp st <=? 0) eqn:E1, (p2_hp st <=? 0) eqn:E2; cbn [andb];
      intros Hw; try discriminate Hw;
      try (now apply title_not_timeout in Hw).
    assert (Hr : List.length rs = 100%nat) by (apply Hfull; lia).
    rewrite Hr in Hfinal. lia. }
  split; [|split; [|split; [exact Htimeout|]]].
  - apply Forall_forall. intros e Hin.
    destruct (event_logged _ _ _ _ _ R Hin) as (rnd & hb & draw & L).
    assert (D := sure_logged Hdraws S1 S2 _ _ _ _ L). split; [exact D|].
    assert (Nt : Note e = (if missed_flag (Damage e) (Effectiveness e)
                           then "Missed!"
                           else effectiveness_label (Effectiveness e)))
      by (destruct L as [(_ & _ & _ & _ & Nt & _)|(_ & _ & _ & _ & Nt & _)];
          exact Nt).
    rewrite Nt. unfold missed_flag.
    destruct (Z.eqb_spec (Damage e) 0) as [Hz|Hz]; [lia|]. cbn [andb].
    apply effectiveness_label_not_missed.
  - exists (List.length rs). split; [|apply Hcount; assumption].
    rewrite history_rows_length. cbn [List.length]. rewrite length_map. lia.
  - intros Hsmall. revert Htimeout. unfold winner_of.
    destruct (p1_hp st <=? 0) eqn:E1, (p2_hp st <=? 0) eqn:E2; cbn [andb];
      intros Htimeout; auto; [exfalso; lia|].
    specialize (Htimeout eq_refl). lia.
Qed.

End BattleStructure.

(** * Instances *)


Lemma calculate_damage_formula_witness :
  calculate_damage sample_types (constant_source f0_5)
    (scenario_stats 100 50) (scenario_stats 100 50) ["water"] pound 0%nat
  = Ok (37, f1_0, false, 1%nat)
  /\ exact_damage 50 40 100 50 (float_value f1_0) = 37
  /\ ~ whole (exact_formula 50 40 100 50 (float_value f1_0)).
Proof.
  assert (W : ~ whole (exact_formula 50 40 100 50 (float_value f1_0)))
    by (intros H; discriminate H).
  split; [|split; [reflexivity|exact W]].
  assert (H := calculate_damage_formula sample_types (constant_source f0_5)
                 (scenario_stats 100 50) (scenario_stats 100 50) ["water"]
                 pound 0%nat f1_0 40 eq_refl
                 ltac:(change (2 ^ 16) with 65536; lia)
                 ltac:(unfold attack_stat; simpl; lia)
                 ltac:(unfold defense_stat; simpl; lia)
                 ltac:(simpl; lia) eq_refl eq_refl).
  cbv zeta in H. destruct H as [(dmg & E & _ & Hd) _].
  rewrite E, (Hd W). reflexivity.
Defined.

Lemma calculate_damage_nonneg_immune_witness :
  calculate_damage sample_types (constant_source f0_5)
    (scenario_stats 100 50) (scenario_stats 100 50) ["ghost"] pound 0%nat
  = Ok (0, f0_0, false, 1%nat).
Proof.
  refine (proj2 (proj2 (calculate_damage_nonneg_immune sample_types
                          (constant_source f0_5) (scenario_stats 100 50)
                          (scenario_stats 100 50) ["ghost"] pound 0%nat
                          _ _ _)
                       _ _ _ _) _);
    first [valid_record | ready_record | reflexivity | simpl; lia].
Defined.

Lemma accuracy_zero_always_hits_witness :
  calculate_damage sample_types (constant_source f0_5)
    (scenario_stats 100 50) (scenario_stats 100 50) ["water"]
    (with_accuracy (Some 0) pound) 0%nat
  = Ok (37, f1_0, false, 1%nat).
Proof.
  refine (eq_trans
            (proj2 (proj2 (accuracy_zero_always_hits sample_types
                             (constant_source f0_5) (scenario_stats 100 50)
                             (scenario_stats 100 50) ["water"]
                             (with_accuracy (Some 0) pound) 0%nat _ _)))
            _);
    [reflexivity | split; reflexivity | reflexivity].
Defined.

Lemma type_effectiveness_product_witness :
  In (get_type_effectiveness sample_types "normal" ["steel"; "rock"])
     effectiveness_values.
Proof.
  apply (type_effectiveness_product sample_types "normal" ["steel"; "rock"]).
  simpl. lia.
Defined.

Lemma battle_within_100_rounds_witness :
  (exists log hist winner n',
      sparring_match 0%nat = Ok (log, hist, winner, n'))
  /\ Forall (fun e => 1 <= Round e <= 100) (fst (fst (fst sparring_result)))
  /\ Forall (fun s => 0 <= round s <= 100) (snd (fst (fst sparring_result)))
  /\ (List.length (snd (fst (fst sparring_result))) <= 2 + 2 * 100)%nat
  /\ (List.length (fst (fst (fst sparring_result))) <= 2 * 100)%nat
  /\ (snd sparring_result <= 0 + 3 * 100)%nat.
Proof.
  destruct (battle_within_100_rounds sample_types (constant_source f0_5)
              (sparring "alpha" 100) pound (sparring "beta" 100) pound 0%nat)
    as [Hreturns Hbounds].
  split.
  - apply Hreturns; ready_record.
  - apply (Hbounds (fst (fst (fst sparring_result)))
                   (snd (fst (fst sparring_result)))
                   (snd (fst sparring_result)) (snd sparring_result)).
    vm_compute. reflexivity.
Defined.

(** The bounds of C6 are attained: with equal speeds and moves that never
    land, all 100 rounds are played and 300 values are drawn. *)
Example stalemate_plays_100_rounds :
  match stalemate 0%nat with
  | Ok (log, hist, winner, n') =>
      List.length log = 200%nat /\ List.length hist = 202%nat /\
      winner = "Draw — 100-round limit reached!" /\ n' = 300%nat
  | Raise _ => False
  end.
Proof. vm_compute. repeat split. Qed.

Lemma no_turn_after_faint_witness :
  only_last_faints (fst (fst (fst sparring_result))).
Proof.
  apply (no_turn_after_faint sample_types (constant_source f0_5)
           (sparring "alpha" 100) pound (sparring "beta" 100) pound
           0%nat (snd sparring_result) (fst (fst (fst sparring_result)))
           (snd (fst (fst sparring_result))) (snd (fst sparring_result))).
  vm_compute. reflexivity.
Defined.

Lemma hp_history_monotone_witness :
  exists rows,
    snd (fst (fst sparring_result)) =
      history_rows "alpha" "beta" 0 ((100, 100) :: rows) /\
    non_increasing (100 :: map fst rows) /\
    non_increasing (100 :: map snd rows) /\
    Forall (fun h => 0 <= h) (100 :: map fst rows) /\
    Forall (fun h => 0 <= h) (100 :: map snd rows).
Proof.
  apply (hp_history_monotone sample_types (constant_source f0_5)
           (sparring "alpha" 100) pound (sparring "beta" 100) pound
           0%nat (snd sparring_result) (fst (fst (fst sparring_result)))
           (snd (fst (fst sparring_result))) (snd (fst sparring_result)));
    first [valid_record | vm_compute; reflexivity].
Defined.

Lemma no_simultaneous_ko_witness :
  snd (fst sparring_result) <> "It's a draw!"
  /\ (snd (fst sparring_result) = title "alpha" \/
      snd (fst sparring_result) = title "beta" \/
      snd (fst sparring_result) = "Draw — 100-round limit reached!").
Proof.
  apply (no_simultaneous_ko sample_types (constant_source f0_5)
           (sparring "alpha" 100) pound (sparring "beta" 100) pound
           0%nat (snd sparring_result) (fst (fst (fst sparring_result)))
           (snd (fst (fst sparring_result))));
    [simpl; lia | simpl; lia | vm_compute; reflexivity].
Defined.

(** C9, as stated, fails when the combatants start at 0 HP: the first hit
    of round 1 ends the battle with both sides at 0. *)
Lemma spent_combatants_draw :
  spent_match 0%nat =
  Ok ([ {| Round := 1; Attacker := "Beta"; Move := "Pound"; Damage := 37;
           Effectiveness := f1_0; Note := ""; Defender_HP := 0 |} ],
      [ {| round := 0; pokemon := "alpha"; sample_hp := 0 |};
        {| round := 0; pokemon := "beta"; sample_hp := 0 |};
        {| round := 1; pokemon := "alpha"; sample_hp := 0 |};
        {| round := 1; pokemon := "beta"; sample_hp := 0 |} ],
      "It's a draw!", 2%nat).
Proof. vm_compute. reflexivity. Qed.

(** ** Instances of the further properties *)

Lemma offered_moves_have_power_witness :
  In "tackle" (firstn 50 ["pound"; "growl"; "tackle"])
  /\ exists md p,
       sample_moves "tackle" = Some md /\ power md = Some p /\ 0 < p
       /\ valid_move md
       /\ forall fetch_type rand a d ts n,
            calculate_damage fetch_type rand a d ts md n <> Raise TypeError.
Proof.
  apply (offered_moves_have_power sample_moves ["pound"; "growl"; "tackle"]
                                  "tackle").
  vm_compute. auto.
Defined.

(** Growl, a status move without power, is not offered. *)
Example status_move_not_offered :
  get_damaging_moves sample_moves ["growl"] = []
  /\ get_damaging_moves sample_moves ["pound"; "growl"; "pound"]
     = ["pound"; "pound"].
Proof. split; reflexivity. Qed.

Lemma immunity_dominates_witness :
  get_type_effectiveness sample_types "normal" ["steel"; "ghost"] = f0_0.
Proof.
  refine (proj1 (immunity_dominates sample_types "normal"
                   {| double_damage_to := [];
                      half_damage_to := ["rock"; "steel"];
                      no_damage_to := ["ghost"] |}
                   ["steel"; "ghost"] eq_refl) _ _).
  - simpl. lia.
  - exists "ghost". split; [simpl; auto|reflexivity].
Defined.

Lemma effectiveness_label_table_witness :
  let eff := get_type_effectiveness sample_types "normal" ["steel"; "rock"] in
  (eff = f0_0 /\ effectiveness_label eff = "No effect!")
  \/ (eff = f0_25 /\ effectiveness_label eff = "It's barely effective…")
  \/ (eff = f0_5 /\ effectiveness_label eff = "It's not very effective…")
  \/ (eff = f1_0 /\ effectiveness_label eff = "")
  \/ (eff = f2_0 /\ effectiveness_label eff = "It's super effective!")
  \/ (eff = f4_0 /\ effectiveness_label eff = "It's ultra effective!").
Proof.
  apply (effectiveness_label_table sample_types "normal" ["steel"; "rock"]).
  simpl. lia.
Defined.

Lemma calculate_damage_errors_witness :
  exists th,
    int_truediv (accuracy_used pound) 100 = Ok th
    /\ (fltb f0_5 th = false ->
        calculate_damage sample_types (constant_source f0_5)
          (scenario_stats 100 50) (scenario_stats 100 0) ["water"] pound 0%nat
        = Ok (0, f1_0, missed_flag 0 f1_0, 1%nat))
    /\ (fltb f0_5 th = true -> power pound = None ->
        calculate_damage sample_types (constant_source f0_5)
          (scenario_stats 100 50) (scenario_stats 100 0) ["water"] pound 0%nat
        = Raise TypeError)
    /\ (fltb f0_5 th = true -> power pound <> None ->
        defense_stat pound (scenario_stats 100 0) = 0 ->
        calculate_damage sample_types (constant_source f0_5)
          (scenario_stats 100 50) (scenario_stats 100 0) ["water"] pound 0%nat
        = Raise ZeroDivisionError)
    /\ (fltb f0_5 th = true -> power pound <> None ->
        0 < defense_stat pound (scenario_stats 100 0) ->
        exists dmg,
          calculate_damage sample_types (constant_source f0_5)
            (scenario_stats 100 50) (scenario_stats 100 0) ["water"] pound
            0%nat
          = Ok (dmg, f1_0, missed_flag dmg f1_0, 1%nat)).
Proof.
  apply (calculate_damage_errors sample_types (constant_source f0_5)
           (scenario_stats 100 50) (scenario_stats 100 0) ["water"] pound
           0%nat).
  - unfold exact_int, attack_stat. simpl. lia.
  - unfold exact_int, defense_stat. simpl. lia.
  - intros p H. injection H as <-. unfold exact_int. lia.
  - intros acc H. injection H as <-. lia.
  - simpl. lia.
Defined.

(** The same call in full: the draw 0.5 lands, the defence stat is 0. *)
Example zero_defense_raises :
  calculate_damage sample_types (constant_source f0_5)
    (scenario_stats 100 50) (scenario_stats 100 0) ["water"] pound 0%nat
  = Raise ZeroDivisionError
  /\ calculate_damage sample_types (constant_source largest_draw)
       (scenario_stats 100 50) (scenario_stats 100 0) ["water"] wild_swing
       0%nat
     = Ok (0, f1_0, true, 1%nat).
Proof. split; reflexivity. Qed.

Lemma damage_class_selects_stats_witness :
  calculate_damage sample_types (constant_source f0_5)
    (scenario_stats 100 50) (scenario_stats 100 50) ["water"] pound 0%nat
  = calculate_damage sample_types (constant_source f0_5)
      {| hp := 1; attack := 100; defense := 7; special_attack := 8;
         special_defense := 9; speed := 200 |}
      {| hp := 300; attack := 1; defense := 50; special_attack := 2;
         special_defense := 3; speed := 4 |}
      ["water"] pound 0%nat.
Proof.
  apply (damage_class_selects_stats sample_types (constant_source f0_5)).
  - intros _. split; reflexivity.
  - intros H. exfalso. apply H. reflexivity.
Defined.

(** The largest draw is a value of [random.random()]: it lies in [0, 1). *)
Example largest_draw_in_range : unit_interval largest_draw.
Proof. split; reflexivity. Qed.

Lemma accuracy_decides_roll_witness :
  calculate_damage sample_types (constant_source largest_draw)
    (scenario_stats 100 50) (scenario_stats 100 50) ["water"] wild_swing 0%nat
  = Ok (0, f1_0, missed_flag 0 f1_0, 1%nat).
Proof.
  refine (proj2 (proj2 (accuracy_decides_roll sample_types
                          (constant_source largest_draw)
                          (scenario_stats 100 50) (scenario_stats 100 50)
                          ["water"] wild_swing 0%nat _)) _ _).
  - intros acc H. injection H as <-. lia.
  - unfold accuracy_used. simpl. lia.
  - reflexivity.
Defined.

Lemma landed_hit_minimum_witness :
  calculate_damage sample_types (constant_source f0_5)
    (stats caterpie) (stats ekans) (types ekans) bug_bite 0%nat
  = Ok (9, f0_5, false, 1%nat)
  /\ 1 <= 9.
Proof.
  split; [reflexivity|].
  refine (proj1 (landed_hit_minimum sample_types (constant_source f0_5)
                   (stats caterpie) (stats ekans) (types ekans) bug_bite
                   0%nat 1%nat f1_0 9 f0_5 false _ _ _ _ _ _) _);
    first [valid_record | reflexivity].
Defined.

Lemma log_rows_consistent_witness :
  Forall (fun e =>
            0 <= Defender_HP e
            /\ (Note e = "Missed!" <->
                Damage e = 0 /\ feqb (Effectiveness e) f0_0 = false)
            /\ (feqb (Effectiveness e) f0_0 = true -> Damage e = 0))
         (fst (fst (fst haunted_result))).
Proof.
  apply Forall_forall. intros e Hin.
  destruct (log_rows_consistent sample_types (constant_source f0_5)
              (sparring "alpha" 100) pound (phantom "gamma" 100) pound
              0%nat (snd haunted_result) (fst (fst (fst haunted_result)))
              (snd (fst (fst haunted_result))) (snd (fst haunted_result))
              ltac:(vm_compute; reflexivity) e Hin)
    as (H1 & H2 & _ & _ & H5 & _).
  split; [exact H1|]. split; [exact H2|exact H5].
Defined.

Lemma faster_side_attacks_first_witness :
  exists e,
    nth_error (fst (fst (fst bug_duel_result))) 1 = Some e
    /\ Round e = 1 + Z.of_nat (Nat.div2 1)
    /\ hit_by caterpie bug_bite e.
Proof.
  eexists. split; [vm_compute; reflexivity|].
  match goal with
  | |- Round ?e = _ /\ _ =>
      destruct (faster_side_attacks_first sample_types (constant_source f0_5)
                  caterpie bug_bite ekans pound
                  0%nat (snd bug_duel_result)
                  (fst (fst (fst bug_duel_result)))
                  (snd (fst (fst bug_duel_result)))
                  (snd (fst bug_duel_result))
                  ltac:(vm_compute; reflexivity) 1%nat e
                  ltac:(vm_compute; reflexivity))
        as (Hr & _ & Hs)
  end.
  split; [exact Hr|]. apply Hs. simpl. lia.
Defined.

Lemma trace_decides_winner_witness :
  exists rows h1 h2,
    snd (fst (fst sparring_result)) =
      history_rows "alpha" "beta" 0 (rows ++ [(h1, h2)])
    /\ Forall (fun r => 0 < fst r /\ 0 < snd r) rows
    /\ ((snd (fst sparring_result) = title "alpha" /\ 0 < h1 /\ h2 = 0)
        \/ (snd (fst sparring_result) = title "beta" /\ h1 = 0 /\ 0 < h2)
        \/ (snd (fst sparring_result) = "Draw — 100-round limit reached!" /\
            0 < h1 /\ 0 < h2 /\ List.length rows = 100%nat)).
Proof.
  apply (trace_decides_winner sample_types (constant_source f0_5)
           (sparring "alpha" 100) pound (sparring "beta" 100) pound
           0%nat (snd sparring_result) (fst (fst (fst sparring_result)))
           (snd (fst (fst sparring_result))) (snd (fst sparring_result)));
    [simpl; lia | simpl; lia | vm_compute; reflexivity].
Defined.

Lemma winner_lands_last_hit_witness :
  exists before e,
    fst (fst (fst sparring_result)) = before ++ [e]
    /\ Defender_HP e = 0 /\ Attacker e = snd (fst sparring_result).
Proof.
  apply (winner_lands_last_hit sample_types (constant_source f0_5)
           (sparring "alpha" 100) pound (sparring "beta" 100) pound
           0%nat (snd sparring_result) (fst (fst (fst sparring_result)))
           (snd (fst (fst sparring_result))) (snd (fst sparring_result)));
    [simpl; lia | simpl; lia | vm_compute; reflexivity
    | vm_compute; discriminate].
Defined.

Lemma log_matches_trace_witness :
  Forall (fun e =>
    (hit_by caterpie bug_bite e /\
     In {| round := Round e; pokemon := "ekans";
           sample_hp := Defender_HP e |} (snd (fst (fst bug_duel_result))) /\
     exists before,
       In {| round := Round e - 1; pokemon := "ekans";
             sample_hp := before |} (snd (fst (fst bug_duel_result))) /\
       Defender_HP e = Z.max 0 (before - Damage e))
    \/ (hit_by ekans pound e /\
        In {| round := Round e; pokemon := "caterpie";
              sample_hp := Defender_HP e |}
           (snd (fst (fst bug_duel_result))) /\
        exists before,
          In {| round := Round e - 1; pokemon := "caterpie";
                sample_hp := before |} (snd (fst (fst bug_duel_result))) /\
          Defender_HP e = Z.max 0 (before - Damage e)))
    (fst (fst (fst bug_duel_result))).
Proof.
  apply Forall_forall.
  apply (log_matches_trace sample_types (constant_source f0_5)
           caterpie bug_bite ekans pound
           0%nat (snd bug_duel_result) (fst (fst (fst bug_duel_result)))
           (snd (fst (fst bug_duel_result))) (snd (fst bug_duel_result))).
  vm_compute. reflexivity.
Defined.

Lemma battle_accounting_witness :
  exists r,
    (1 <= r <= 100)%nat
    /\ List.length (snd (fst (fst haunted_result))) = (2 + 2 * r)%nat
    /\ (List.length (fst (fst (fst haunted_result))) = (2 * r)%nat \/
        S (List.length (fst (fst (fst haunted_result)))) = (2 * r)%nat)
    /\ snd haunted_result =
       (0 + List.length (fst (fst (fst haunted_result)))
        + r * order_draws (sparring "alpha" 100) (phantom "gamma" 100))%nat
    /\ (snd (fst haunted_result) = "Draw — 100-round limit reached!" ->
        r = 100%nat /\
        List.length (fst (fst (fst haunted_result))) = 200%nat).
Proof.
  apply (battle_accounting sample_types (constant_source f0_5)
           (sparring "alpha" 100) pound (phantom "gamma" 100) pound
           0%nat (snd haunted_result) (fst (fst (fst haunted_result)))
           (snd (fst (fst haunted_result))) (snd (fst haunted_result))).
  vm_compute. reflexivity.
Defined.

Lemma immune_side_never_loses_witness :
  exists rows,
    snd (fst (fst haunted_result)) = history_rows "alpha" "gamma" 0 rows
    /\ Forall (fun r => snd r = 100) rows
    /\ (snd (fst haunted_result) = title "gamma" \/
        snd (fst haunted_result) = "Draw — 100-round limit reached!").
Proof.
  destruct (immune_side_never_loses sample_types (constant_source f0_5)
              (sparring "alpha" 100) pound (phantom "gamma" 100) pound
              0%nat (snd haunted_result) (fst (fst (fst haunted_result)))
              (snd (fst (fst haunted_result))) (snd (fst haunted_result))
              ltac:(vm_compute; reflexivity))
    as (rows & Hh & H2 & _).
  exists rows. split; [exact Hh|].
  apply H2; [reflexivity|simpl; lia].
Defined.

Lemma sure_hits_end_in_knockout_witness :
  Forall (fun e => 1 <= Damage e /\ Note e <> "Missed!")
         (fst (fst (fst sparring_result)))
  /\ (exists r,
        List.length (snd (fst (fst sparring_result))) = (2 + 2 * r)%nat /\
        Z.of_nat r <= Z.min 100 100)
  /\ (snd (fst sparring_result) = title "alpha" \/
      snd (fst sparring_result) = title "beta").
Proof.
  destruct (sure_hits_end_in_knockout sample_types (constant_source f0_5)
              (sparring "alpha" 100) pound (sparring "beta" 100) pound
              0%nat (snd sparring_result) (fst (fst (fst sparring_result)))
              (snd (fst (fst sparring_result))) (snd (fst sparring_result)))
    as (Hd & Hr & _ & Hw).
  - intros k. split; reflexivity.
  - do 3 (split; [valid_record|]). split; [reflexivity|]. simpl. auto.
  - do 3 (split; [valid_record|]). split; [reflexivity|]. simpl. auto.
  - simpl. lia.
  - simpl. lia.
  - vm_compute. reflexivity.
  - split; [exact Hd|]. split; [exact Hr|]. apply Hw. left. simpl. lia.
Defined.

Lemma both_sides_act_each_round_witness :
  exists e e',
    nth_error (fst (fst (fst sparring_result))) 2 = Some e
    /\ nth_error (fst (fst (fst sparring_result))) 3 = Some e'
    /\ Round e = Round e' /\ 0 < Defender_HP e
    /\ ((hit_by (sparring "alpha" 100) pound e /\
         hit_by (sparring "beta" 100) pound e')
        \/ (hit_by (sparring "beta" 100) pound e /\
            hit_by (sparring "alpha" 100) pound e')).
Proof.
  eexists. eexists.
  split; [vm_compute; reflexivity|]. split; [vm_compute; reflexivity|].
  apply (both_sides_act_each_round sample_types (constant_source f0_5)
           (sparring "alpha" 100) pound (sparring "beta" 100) pound
           0%nat (snd sparring_result) (fst (fst (fst sparring_result)))
           (snd (fst (fst sparring_result))) (snd (fst sparring_result))
           ltac:(vm_compute; reflexivity) 2%nat);
    vm_compute; reflexivity.
Defined.

Lemma battle_follows_draws_witness :
  exists e,
    nth_error (fst (fst (fst sparring_result))) 2 = Some e
    /\ hit_by (sparring "beta" 100) pound e
    /\ exists missed,
         calculate_damage sample_types (constant_source f0_5)
           (stats (sparring "beta" 100)) (stats (sparring "alpha" 100))
           (types (sparring "alpha" 100)) pound 4%nat
         = Ok (Damage e, Effectiveness e, missed, 5%nat).
Proof.
  eexists. split; [vm_compute; reflexivity|].
  match goal with
  | |- hit_by _ _ ?e /\ _ =>
      destruct (battle_follows_draws sample_types (constant_source f0_5)
                  (sparring "alpha" 100) pound (sparring "beta" 100) pound
                  0%nat (snd sparring_result)
                  (fst (fst (fst sparring_result)))
                  (snd (fst (fst sparring_result)))
                  (snd (fst sparring_result))
                  ltac:(vm_compute; reflexivity) 2%nat e
                  ltac:(vm_compute; reflexivity))
        as [_ Hs]
  end.
  split; [exact (Hs eq_refl eq_refl)|].
  eexists. vm_compute. reflexivity.
Defined.
